(** * pi-remote-web-ui: tab multiplexing, scoped broadcast, dialog bridge

    A shallow embedding of the multi-tab server (server/index.ts) and of the
    state-sync part of the browser client (src/main.ts).

    Conventions.
    - A JavaScript [Map] whose iteration order is observed ([tabs]) is an
      association list in insertion order ([JsMap]); maps that are only
      looked up ([clientActiveTab], [pendingExtensionRequests]) are [gmap]s.
    - [wss.clients] is the list of sockets in iteration order; a socket is a
      handle ([ws_id]) together with its [readyState].
    - Everything the server does to the outside world ([ws.send],
      [session.dispose], [fs.unlink], [console.error]) is appended to the
      [effects] trace of the state, in program order.
    - Values produced by collaborators ([crypto.randomUUID],
      [createAgentSession], [SessionManager.listAll], ...) are inputs of the
      functions that consume them. *)

From stdpp Require Import gmap strings list fin_maps pretty.
From Stdlib Require Import ZArith Lia Sorted.

#[local] Set Warnings "-clear-no-such-hyp".

(** ** JavaScript odds and ends *)

(** Truthiness of a string value: only the empty string is falsy. *)
Definition truthy (s : string) : bool := negb (String.eqb s "").

(** Truthiness of [string | undefined] / [string | null]. *)
Definition truthy_opt (o : option string) : bool :=
  match o with
  | Some s => truthy s
  | None => false
  end.

(** A call that may throw. *)
Inductive Result (A : Type) : Type :=
  | Ok (a : A)
  | Throw (err : string).
Arguments Ok {A} a.
Arguments Throw {A} err.

(** [Array.prototype.indexOf]: position of the first occurrence, else -1. *)
Fixpoint indexOf (l : list string) (x : string) : Z :=
  match l with
  | [] => (-1)%Z
  | y :: l' =>
      if decide (y = x) then 0%Z
      else let i := indexOf l' x in
           if (i <? 0)%Z then (-1)%Z else (i + 1)%Z
  end.

(** [arr[i]] for an integer index: [undefined] when out of range. *)
Definition at_index {A} (l : list A) (i : Z) : option A :=
  if (i <? 0)%Z then None else l !! Z.to_nat i.

(** [a ?? b] *)
Definition nullish {A} (a b : option A) : option A :=
  match a with
  | Some x => Some x
  | None => b
  end.

(** [Array.prototype.find] *)
Fixpoint array_find {A} (p : A → bool) (l : list A) : option A :=
  match l with
  | [] => None
  | x :: l' => if p x then Some x else array_find p l'
  end.

(** ** Insertion-ordered [Map<string, V>] *)
Module JsMap.
Section js_map.
Context {V : Type}.

Definition t := list (string * V).

Fixpoint get (m : t) (k : string) : option V :=
  match m with
  | [] => None
  | (k', v) :: m' => if decide (k' = k) then Some v else get m' k
  end.

Definition has (m : t) (k : string) : bool :=
  match get m k with
  | Some _ => true
  | None => false
  end.

(** [set] keeps the position of an existing key and appends a new one. *)
Fixpoint set (m : t) (k : string) (v : V) : t :=
  match m with
  | [] => [(k, v)]
  | (k', v') :: m' =>
      if decide (k' = k) then (k, v) :: m' else (k', v') :: set m' k v
  end.

Fixpoint delete (m : t) (k : string) : t :=
  match m with
  | [] => []
  | (k', v') :: m' =>
      if decide (k' = k) then m' else (k', v') :: delete m' k
  end.

Definition size (m : t) : nat := length m.

Definition keys (m : t) : list string := m.*1.

Definition values (m : t) : list V := m.*2.
End js_map.
Arguments t : clear implicits.
End JsMap.

(** ** Wire data *)

(** Content parts of a runtime message ([msg.content] entries). *)
Inductive ContentPart : Type :=
  | part_text (text : string)
  | part_thinking (thinking : string)
  | part_toolCall (id : string) (name : string) (arguments : string)
  | part_other (type : string).

(** [msg.content] of a user message: a string, an array, or anything else
    (kept as its [String(...)] rendering). *)
Inductive UserContent : Type :=
  | content_string (s : string)
  | content_array (parts : list ContentPart)
  | content_other (rendered : string).

(** Entries of [session.messages], by [role]. *)
Inductive AgentMessage : Type :=
  | msg_user (content : UserContent)
  | msg_assistant (content : option (list ContentPart))
  | msg_toolResult (toolCallId : string)
      (content : option (list ContentPart)) (isError : option bool)
  | msg_other (role : string).

Record SessionInfo : Type := {
  info_id : string;
  info_path : string;
  info_name : option string;
  info_modified : Z;
}.

Record TabInfo : Type := { ti_tabId : string; ti_name : string }.

(** Messages the server puts on a socket. *)
Inductive ServerMsg : Type :=
  | tabs_update (tabs : list TabInfo)
  | state_sync (tabId : option string) (messages : option (list AgentMessage))
      (streaming : option bool) (model : option string) (sessionId : string)
  | sessions_list (sessions : list SessionInfo)
  | extension_ui_request (id : string) (method : string)
  | extension_error (error : string)
  | agent_event (payload : string).

(** ** Server *)
Module Server.

Inductive ReadyState : Type := CONNECTING | OPEN | CLOSING | CLOSED.

#[global] Instance ReadyState_eq_dec : EqDecision ReadyState.
Proof. solve_decision. Defined.

Record WebSocket : Type := { ws_id : nat; readyState : ReadyState }.

Record AgentSession : Type := {
  sessionId : string;
  messages : list AgentMessage;
  isStreaming : bool;
  model : option string;
}.

Record TabEntry : Type := {
  tabId : string;
  name : string;
  session : AgentSession;
}.

Inductive Effect : Type :=
  | ws_send (ws : nat) (msg : ServerMsg)
  | session_dispose (entry : TabEntry)
  | fs_unlink (path : string)
  | console_error (tag : string).

Record ServerState : Type := {
  tabOrder : list string;
  tabs : JsMap.t TabEntry;
  clientActiveTab : gmap nat string;
  tabCounter : nat;
  effects : list Effect;
}.

Definition emit (es : list Effect) (st : ServerState) : ServerState :=
  {| tabOrder := tabOrder st; tabs := tabs st;
     clientActiveTab := clientActiveTab st; tabCounter := tabCounter st;
     effects := effects st ++ es |}.

Definition set_clientActiveTab (ws : nat) (t : string) (st : ServerState)
  : ServerState :=
  {| tabOrder := tabOrder st; tabs := tabs st;
     clientActiveTab := <[ws := t]> (clientActiveTab st);
     tabCounter := tabCounter st; effects := effects st |}.

Definition getTabsList (st : ServerState) : list TabInfo :=
  (λ id, match JsMap.get (tabs st) id with
         | Some t => {| ti_tabId := tabId t; ti_name := name t |}
         | None => {| ti_tabId := id; ti_name := "" |} (* filtered out above *)
         end)
  <$> filter (λ id, JsMap.has (tabs st) id = true) (tabOrder st).

(** Send to all connected clients regardless of active tab. *)
Fixpoint broadcastAll (wss : list WebSocket) (msg : ServerMsg) : list Effect :=
  match wss with
  | [] => []
  | client :: rest =>
      if decide (readyState client = OPEN)
      then ws_send (ws_id client) msg :: broadcastAll rest msg
      else broadcastAll rest msg
  end.

(** Send only to clients currently viewing the given tab. *)
Fixpoint broadcastToTabViewers (wss : list WebSocket)
    (cat : gmap nat string) (tab : string) (msg : ServerMsg) : list Effect :=
  match wss with
  | [] => []
  | client :: rest =>
      if decide (readyState client = OPEN ∧ cat !! ws_id client = Some tab)
      then ws_send (ws_id client) msg :: broadcastToTabViewers rest cat tab msg
      else broadcastToTabViewers rest cat tab msg
  end.

(** The listener [createTab] registers with [session.subscribe] for the tab
    [tab]: every runtime event goes through the tab-scoped broadcast. *)
Definition session_listener (wss : list WebSocket) (tab : string)
    (event : string) (st : ServerState) : ServerState :=
  emit (broadcastToTabViewers wss (clientActiveTab st) tab (agent_event event)) st.

Definition broadcastTabsList (wss : list WebSocket) (st : ServerState)
  : ServerState :=
  emit (broadcastAll wss (tabs_update (getTabsList st))) st.

Definition sync_msg (entry : TabEntry) : ServerMsg :=
  state_sync (Some (tabId entry)) (Some (messages (session entry)))
    (Some (isStreaming (session entry))) (model (session entry))
    (sessionId (session entry)).

Definition sendStateSync (ws : nat) (entry : TabEntry) (st : ServerState)
  : ServerState :=
  emit [ws_send ws (sync_msg entry)] st.


(** *** Tab registry *)

(** Inputs of one [createTab] call: the UUID it draws, the session manager
    it opens or creates (carrying [getSessionName()]), the runtime that
    [createAgentSession] builds, and the outcome of [session.bindExtensions]. *)
Record CreateEnv : Type := {
  randomUUID : string;
  sessionManager : Result (option string);
  createAgentSession : Result AgentSession;
  bindExtensions : Result unit;
}.

(** [createTab], up to its first [await]: the counter is bumped at once. *)
Definition createTab_begin (st : ServerState) : ServerState :=
  {| tabOrder := tabOrder st; tabs := tabs st;
     clientActiveTab := clientActiveTab st; tabCounter := S (tabCounter st);
     effects := effects st |}.

Definition default_name (counter : nat) : string := "Session " +:+ pretty counter.

(** [name ?? (sessionPath ? (getSessionName() ?? `Session N`) : `Session N`)] *)
Definition displayName (name sessionPath sessionName : option string)
    (counter : nat) : string :=
  match name with
  | Some n => n
  | None =>
      if truthy_opt sessionPath
      then match sessionName with
           | Some n => n
           | None => default_name counter
           end
      else default_name counter
  end.

(** [createTab], after its last [await]: the entry enters the registry. *)
Definition createTab_register (tab display : string) (s : AgentSession)
    (st : ServerState) : TabEntry * ServerState :=
  let entry := {| tabId := tab; name := display; session := s |} in
  (entry,
   {| tabOrder := tabOrder st ++ [tab];
      tabs := JsMap.set (tabs st) tab entry;
      clientActiveTab := clientActiveTab st; tabCounter := tabCounter st;
      effects := effects st |}).

(** [createTab] run without interruption. *)
Definition createTab (env : CreateEnv) (name sessionPath : option string)
    (st : ServerState) : Result TabEntry * ServerState :=
  let tab := randomUUID env in
  let st1 := createTab_begin st in
  match sessionManager env with
  | Throw e => (Throw e, st1)
  | Ok sessionName =>
      match createAgentSession env with
      | Throw e => (Throw e, st1)
      | Ok s =>
          let display := displayName name sessionPath sessionName (tabCounter st1) in
          match bindExtensions env with
          | Throw e => (Throw e, st1)
          | Ok _ =>
              let '(entry, st2) := createTab_register tab display s st1 in
              (Ok entry, st2)
          end
      end
  end.

(** Close a tab. Returns the tab clients should switch to, or null. *)
Definition closeTab (tab : string) (st : ServerState)
  : option string * ServerState :=
  match JsMap.get (tabs st) tab with
  | None => (None, st)
  | Some entry =>
      if (JsMap.size (tabs st) <=? 1)%nat then (Some tab, st)
      else
        let idx := indexOf (tabOrder st) tab in
        let remainingOrder :=
          filter (λ id, id ≠ tab ∧ JsMap.has (tabs st) id = true) (tabOrder st) in
        let replacementId :=
          nullish (at_index remainingOrder (Z.max 0 (idx - 1)))
            (nullish (at_index remainingOrder 0) None) in
        let orderIdx := indexOf (tabOrder st) tab in
        (replacementId,
         {| tabOrder :=
              if (orderIdx =? -1)%Z then tabOrder st
              else delete (Z.to_nat orderIdx) (tabOrder st);
            tabs := JsMap.delete (tabs st) tab;
            clientActiveTab := clientActiveTab st;
            tabCounter := tabCounter st;
            effects := effects st ++ [session_dispose entry] |})
  end.

(** *** Command dispatch *)

(** [replacementId ? tabs.get(replacementId) : tabs.get(tabOrder[0])] *)
Definition fallback_entry (replacementId : option string) (st : ServerState)
  : option TabEntry :=
  if truthy_opt replacementId
  then replacementId ≫= JsMap.get (tabs st)
  else at_index (tabOrder st) 0 ≫= JsMap.get (tabs st).

(** The loop that redirects every open client that was viewing [target]. *)
Fixpoint redirect_viewers (wss : list WebSocket) (target : string)
    (replacementId : option string) (st : ServerState) : ServerState :=
  match wss with
  | [] => st
  | client :: rest =>
      let st' :=
        if decide (readyState client = OPEN
                   ∧ clientActiveTab st !! ws_id client = Some target)
        then match fallback_entry replacementId st with
             | Some fallback =>
                 sendStateSync (ws_id client) fallback
                   (set_clientActiveTab (ws_id client) (tabId fallback) st)
             | None => st
             end
        else st in
      redirect_viewers rest target replacementId st'
  end.

(** [closeTab], then the list broadcast, then the redirect loop: the body
    shared by the [close_tab] and [delete_session] cases. *)
Definition close_flow (wss : list WebSocket) (target : string)
    (st : ServerState) : ServerState :=
  let '(replacementId, st1) := closeTab target st in
  redirect_viewers wss target replacementId (broadcastTabsList wss st1).

(** Bind the requester to a freshly created tab, publish the list, sync. *)
Definition adopt_new_tab (wss : list WebSocket) (ws : nat) (newEntry : TabEntry)
    (st : ServerState) : ServerState :=
  sendStateSync ws newEntry
    (broadcastTabsList wss (set_clientActiveTab ws (tabId newEntry) st)).

(** The outer [try { ... } catch (err) { console.error(...) }]. *)
Definition cmd_error (st : ServerState) : ServerState :=
  emit [console_error "cmd error"] st.

(** [new_session] run without interruption: no other handler runs between
    the [await]s of its [createTab], so the counter the name is read from
    after [await createAgentSession] is still the one [createTab] bumped.
    [new_session_resume] below follows the handler one [await] at a time. *)
Definition handle_new_session (wss : list WebSocket) (ws : nat)
    (env : CreateEnv) (st : ServerState) : ServerState :=
  match createTab env None None st with
  | (Throw _, st1) => cmd_error st1
  | (Ok newEntry, st1) => adopt_new_tab wss ws newEntry st1
  end.

Definition handle_switch_session (ws : nat) (target : option string)
    (st : ServerState) : ServerState :=
  match target with
  | None => st
  | Some targetTabId =>
      match JsMap.get (tabs st) targetTabId with
      | None => st
      | Some targetEntry =>
          sendStateSync ws targetEntry (set_clientActiveTab ws targetTabId st)
      end
  end.

Definition handle_close_tab (wss : list WebSocket) (target : option string)
    (st : ServerState) : ServerState :=
  match target with
  | None => st
  | Some targetTabId =>
      if negb (JsMap.has (tabs st) targetTabId) then st
      else if (JsMap.size (tabs st) <=? 1)%nat then st
      else close_flow wss targetTabId st
  end.

Definition find_info (sessionPath : string) (all : list SessionInfo)
  : option SessionInfo :=
  array_find (λ s, String.eqb (info_path s) sessionPath) all.

Definition find_open_tab (id : string) (st : ServerState) : option TabEntry :=
  array_find (λ t, String.eqb (sessionId (session t)) id)
    (JsMap.values (tabs st)).

(** [open_session], resumed after [SessionManager.listAll()] has answered:
    either the case is over, or a tab has to be created. *)
Inductive OpenStep : Type :=
  | open_done (st : ServerState)
  | open_create (st : ServerState).

Definition open_session_listed (ws : nat) (sessionPath : string)
    (allSessions : list SessionInfo) (st : ServerState) : OpenStep :=
  match find_info sessionPath allSessions with
  | None => open_done st
  | Some info =>
      match find_open_tab (info_id info) st with
      | Some alreadyOpen =>
          open_done (sendStateSync ws alreadyOpen
                       (set_clientActiveTab ws (tabId alreadyOpen) st))
      | None => open_create st
      end
  end.

(** [open_session] run without interruption. *)
Definition handle_open_session (wss : list WebSocket) (ws : nat)
    (sessionPath : option string) (listAll : Result (list SessionInfo))
    (env : CreateEnv) (st : ServerState) : ServerState :=
  match sessionPath with
  | None => st
  | Some path =>
      if negb (truthy path) then st
      else match listAll with
           | Throw _ => cmd_error st
           | Ok allSessions =>
               match open_session_listed ws path allSessions st with
               | open_done st' => st'
               | open_create st' =>
                   match createTab env None (Some path) st' with
                   | (Throw _, st1) => cmd_error st1
                   | (Ok newEntry, st1) => adopt_new_tab wss ws newEntry st1
                   end
               end
           end
  end.

(** [(a, b) => b.modified.getTime() - a.modified.getTime()] *)
Definition newest_first (a b : SessionInfo) : Prop :=
  (info_modified b ≤ info_modified a)%Z.

#[global] Instance newest_first_dec : RelDecision newest_first.
Proof. intros a b. unfold newest_first. apply _. Defined.

(** [Array.prototype.sort(compare)].  The sort is stable, so its result does
    not depend on the algorithm: each element goes before the first element
    of the sorted rest that [compare] does not put before it, and elements
    that compare equal keep the order they had.  [before a b] stands for
    [compare(a, b) <= 0]. *)
Fixpoint sort_insert {A : Type} (before : A → A → Prop)
    `{!RelDecision before} (x : A) (sorted : list A) : list A :=
  match sorted with
  | [] => [x]
  | y :: rest =>
      if decide (before x y) then x :: y :: rest
      else y :: sort_insert before x rest
  end.

Definition array_sort {A : Type} (before : A → A → Prop)
    `{!RelDecision before} (l : list A) : list A :=
  foldr (sort_insert before) [] l.

(** Sessions offered to the requester: not open in any tab, newest first. *)
Definition available_sessions (all : list SessionInfo) (open : JsMap.t TabEntry)
  : list SessionInfo :=
  let openIds := (λ t, sessionId (session t)) <$> JsMap.values open in
  array_sort newest_first (filter (λ s, info_id s ∉ openIds) all).

Definition list_or_empty (r : Result (list SessionInfo)) : list SessionInfo :=
  match r with
  | Ok l => l
  | Throw _ => []
  end.

(** The end of [delete_session]: unlink the file (a failure is only
    logged), then send the requester the sessions that can still be opened. *)
Definition unlink_tail (ws : nat) (path : string) (unlink : Result unit)
    (listAllAfter : Result (list SessionInfo)) (open : JsMap.t TabEntry)
  : list Effect :=
  fs_unlink path
  :: match unlink with
     | Ok _ => []
     | Throw _ => [console_error "unlink error"]
     end
  ++ [ws_send ws
        (sessions_list (available_sessions (list_or_empty listAllAfter) open))].

(** [st] is the state at the moment [SessionManager.listAll()] answers. *)
Definition handle_delete_session (wss : list WebSocket) (ws : nat)
    (sessionPath : option string)
    (listAll : Result (list SessionInfo)) (unlink : Result unit)
    (listAllAfter : Result (list SessionInfo))
    (st : ServerState) : ServerState :=
  match sessionPath with
  | None => st
  | Some path =>
      if negb (truthy path) then st
      else
        let allForDelete := list_or_empty listAll in
        let st1 :=
          match find_info path allForDelete with
          | None => st
          | Some deleteInfo =>
              match find_open_tab (info_id deleteInfo) st with
              | Some openTab =>
                  if (1 <? JsMap.size (tabs st))%nat
                  then close_flow wss (tabId openTab) st
                  else st
              | None => st
              end
          end in
        emit (unlink_tail ws path unlink listAllAfter (tabs st1)) st1
  end.

(** *** [open_session], one [await] at a time

    The handler is an [async] function: between two of its [await]s other
    handlers run.  A suspended [open_session] handler is an [OpenTask]; an
    [Answer] is what the awaited collaborator returns, together with the
    values the handler draws before it suspends again. *)
Inductive OpenTask : Type :=
  | awaiting_listAll (ws : nat) (sessionPath : string)
  | awaiting_createAgentSession (ws : nat) (sessionPath : string)
      (tab : string) (sessionName : option string)
  | awaiting_bindExtensions (ws : nat) (tab : string) (display : string)
      (s : AgentSession).

Inductive Answer : Type :=
  | answer_listAll (r : Result (list SessionInfo)) (uuid : string)
      (sm : Result (option string))
  | answer_createAgentSession (r : Result AgentSession)
  | answer_bindExtensions (r : Result unit).

(** The synchronous prefix of the case, up to [await listAll()]. *)
Definition open_session_start (ws : nat) (sessionPath : option string)
  : option OpenTask :=
  match sessionPath with
  | None => None
  | Some path => if negb (truthy path) then None else Some (awaiting_listAll ws path)
  end.

(** Run a suspended handler up to its next [await], or to its end. *)
Definition resume (wss : list WebSocket) (task : OpenTask) (a : Answer)
    (st : ServerState) : ServerState * option OpenTask :=
  match task, a with
  | awaiting_listAll ws path, answer_listAll (Throw _) _ _ => (cmd_error st, None)
  | awaiting_listAll ws path, answer_listAll (Ok allSessions) uuid sm =>
      match open_session_listed ws path allSessions st with
      | open_done st' => (st', None)
      | open_create st' =>
          let st1 := createTab_begin st' in
          match sm with
          | Throw _ => (cmd_error st1, None)
          | Ok sessionName =>
              (st1, Some (awaiting_createAgentSession ws path uuid sessionName))
          end
      end
  | awaiting_createAgentSession ws path tab sessionName,
    answer_createAgentSession r =>
      match r with
      | Throw _ => (cmd_error st, None)
      | Ok s =>
          let display :=
            displayName None (Some path) sessionName (tabCounter st) in
          (st, Some (awaiting_bindExtensions ws tab display s))
      end
  | awaiting_bindExtensions ws tab display s, answer_bindExtensions r =>
      match r with
      | Throw _ => (cmd_error st, None)
      | Ok _ =>
          let '(newEntry, st1) := createTab_register tab display s st in
          (adopt_new_tab wss ws newEntry st1, None)
      end
  | _, _ => (st, Some task) (* an answer to another question: still waiting *)
  end.

(** The three resumptions of one handler, back to back. *)
Definition open_session_uninterrupted (wss : list WebSocket) (ws : nat)
    (sessionPath : option string) (listAll : Result (list SessionInfo))
    (env : CreateEnv) (st : ServerState) : ServerState :=
  match open_session_start ws sessionPath with
  | None => st
  | Some t0 =>
      match resume wss t0
              (answer_listAll listAll (randomUUID env) (sessionManager env)) st with
      | (st1, None) => st1
      | (st1, Some t1) =>
          match resume wss t1
                  (answer_createAgentSession (createAgentSession env)) st1 with
          | (st2, None) => st2
          | (st2, Some t2) =>
              (resume wss t2 (answer_bindExtensions (bindExtensions env)) st2).1
          end
      end
  end.

(** Several suspended [open_session] handlers, resumed in the order in
    which their [await]s are answered: [(i, a)] hands answer [a] to the
    handler in slot [i] of the pool. *)
Fixpoint run_schedule (wss : list WebSocket) (schedule : list (nat * Answer))
    (pool : list (option OpenTask)) (st : ServerState)
  : ServerState * list (option OpenTask) :=
  match schedule with
  | [] => (st, pool)
  | (i, a) :: rest =>
      match pool !! i with
      | Some (Some task) =>
          let '(st', task') := resume wss task a st in
          run_schedule wss rest (<[i := task']> pool) st'
      | _ => run_schedule wss rest pool st
      end
  end.

(** *** [new_session], one [await] at a time

    A suspended [new_session] handler: it waits inside [createTab], first for
    [createAgentSession], then for [session.bindExtensions]. *)
Inductive NewTask : Type :=
  | new_awaiting_createAgentSession (ws : nat) (tab : string)
  | new_awaiting_bindExtensions (ws : nat) (tab : string) (display : string)
      (s : AgentSession).

(** The synchronous prefix of the case: [createTab] draws its UUID, bumps
    the counter and creates the session manager, up to
    [await createAgentSession]. *)
Definition new_session_start (ws : nat) (uuid : string)
    (sm : Result (option string)) (st : ServerState)
  : ServerState * option NewTask :=
  let st1 := createTab_begin st in
  match sm with
  | Throw _ => (cmd_error st1, None)
  | Ok _ => (st1, Some (new_awaiting_createAgentSession ws uuid))
  end.

(** Run a suspended handler up to its next [await], or to its end: the name
    is derived from the counter as it is when [createAgentSession] answers,
    the tab is registered in the state in which [bindExtensions] answers. *)
Definition new_session_resume (wss : list WebSocket) (task : NewTask)
    (a : Answer) (st : ServerState) : ServerState * option NewTask :=
  match task, a with
  | new_awaiting_createAgentSession ws tab, answer_createAgentSession r =>
      match r with
      | Throw _ => (cmd_error st, None)
      | Ok s =>
          let display := displayName None None None (tabCounter st) in
          (st, Some (new_awaiting_bindExtensions ws tab display s))
      end
  | new_awaiting_bindExtensions ws tab display s, answer_bindExtensions r =>
      match r with
      | Throw _ => (cmd_error st, None)
      | Ok _ =>
          let '(newEntry, st1) := createTab_register tab display s st in
          (adopt_new_tab wss ws newEntry st1, None)
      end
  | _, _ => (st, Some task) (* an answer to another question: still waiting *)
  end.

(** The three steps of one handler, back to back. *)
Definition new_session_uninterrupted (wss : list WebSocket) (ws : nat)
    (env : CreateEnv) (st : ServerState) : ServerState :=
  match new_session_start ws (randomUUID env) (sessionManager env) st with
  | (st1, None) => st1
  | (st1, Some t1) =>
      match new_session_resume wss t1
              (answer_createAgentSession (createAgentSession env)) st1 with
      | (st2, None) => st2
      | (st2, Some t2) =>
          (new_session_resume wss t2
             (answer_bindExtensions (bindExtensions env)) st2).1
      end
  end.

Inductive Command : Type :=
  | new_session
  | switch_session (tabId : option string)
  | close_tab (tabId : option string)
  | open_session (sessionPath : option string)
  | delete_session (sessionPath : option string)
  | unknown_command.

(** What the collaborators answer while one command is being handled. *)
Record Env : Type := {
  create : CreateEnv;
  listAll : Result (list SessionInfo);
  unlink : Result unit;
  listAllAfter : Result (list SessionInfo);
}.

(** The [switch (cmd.type)] of the message handler, one command run to
    completion.  The [prompt], [abort] and [list_sessions] cases touch
    neither the registry nor the bindings and are not embedded; the
    [extension_ui_response] case is [Dialog.handle_extension_ui_response]. *)
Definition handleCommand (wss : list WebSocket) (ws : nat) (cmd : Command)
    (env : Env) (st : ServerState) : ServerState :=
  match cmd with
  | new_session => handle_new_session wss ws (create env) st
  | switch_session t => handle_switch_session ws t st
  | close_tab t => handle_close_tab wss t st
  | open_session p => handle_open_session wss ws p (listAll env) (create env) st
  | delete_session p =>
      handle_delete_session wss ws p (listAll env) (unlink env) (listAllAfter env) st
  | unknown_command => st
  end.

End Server.

(** ** Extension UI bridge *)
Module Dialog.
Section dialog.
(** [T] is the outcome type of the dialogs, [Response] the parsed
    [extension_ui_response] command handed to [parseResponse]. *)
Context {T Response : Type}.

(** [opts]: an abort signal (named by a number) and a timeout in ms. *)
Record Opts : Type := { signal : option nat; timeout : option nat }.

(** What the closures of one [createDialogPromise] call capture:
    [opts?.signal], whether [timeoutId] was assigned, [defaultValue] and
    [parseResponse]. *)
Record DialogEnv : Type := {
  d_signal : option nat;
  d_timeoutId : bool;
  d_default : T;
  d_parse : Response → T;
}.

(** A promise settles at the first call of its [resolve]; later calls are
    ignored.  [resolve_calls] counts every call. *)
Record Promise : Type := { settled : option T; resolve_calls : nat }.

(** The [{ resolve, reject }] pair built by the call that drew [id]. *)
Inductive PendingUIRequest : Type := pending_entry (id : string).

Record State : Type := {
  pendingExtensionRequests : gmap string PendingUIRequest;
  dialogs : gmap string DialogEnv;      (* closure environments, by request *)
  promises : gmap string Promise;       (* the promise of each request *)
  timers : gset string;                 (* armed timers, by owning request *)
  abortListeners : list (nat * string); (* (signal, request): onAbort registered *)
  aborted : gset nat;                   (* signals with [aborted] set *)
  sent : list Server.Effect;
}.

Definition with_pending (f : gmap string PendingUIRequest → gmap string PendingUIRequest)
    (st : State) : State :=
  {| pendingExtensionRequests := f (pendingExtensionRequests st);
     dialogs := dialogs st; promises := promises st; timers := timers st;
     abortListeners := abortListeners st; aborted := aborted st;
     sent := sent st |}.

Definition with_promises (f : gmap string Promise → gmap string Promise)
    (st : State) : State :=
  {| pendingExtensionRequests := pendingExtensionRequests st;
     dialogs := dialogs st; promises := f (promises st); timers := timers st;
     abortListeners := abortListeners st; aborted := aborted st;
     sent := sent st |}.

Definition with_timers (f : gset string → gset string) (st : State) : State :=
  {| pendingExtensionRequests := pendingExtensionRequests st;
     dialogs := dialogs st; promises := promises st; timers := f (timers st);
     abortListeners := abortListeners st; aborted := aborted st;
     sent := sent st |}.

Definition with_listeners (f : list (nat * string) → list (nat * string))
    (st : State) : State :=
  {| pendingExtensionRequests := pendingExtensionRequests st;
     dialogs := dialogs st; promises := promises st; timers := timers st;
     abortListeners := f (abortListeners st); aborted := aborted st;
     sent := sent st |}.

(** The [resolve] function of the promise of request [id]. *)
Definition promise_resolve (id : string) (v : T) (st : State) : State :=
  with_promises
    (alter (λ p, {| settled := nullish (settled p) (Some v);
                    resolve_calls := S (resolve_calls p) |}) id) st.

Definition removeEventListener (s : nat) (id : string)
    (ls : list (nat * string)) : list (nat * string) :=
  filter (λ l, l ≠ (s, id)) ls.

(** [cleanup] of request [id]. *)
Definition cleanup (id : string) (d : DialogEnv) (st : State) : State :=
  let st1 := if d_timeoutId d then with_timers (λ t, t ∖ {[id]}) st else st in
  let st2 := match d_signal d with
             | Some s => with_listeners (removeEventListener s id) st1
             | None => st1
             end in
  with_pending (delete id) st2.

(** [onAbort], and the timer callback, which has the same body. *)
Definition onAbort (id : string) (st : State) : State :=
  match dialogs st !! id with
  | Some d => promise_resolve id (d_default d) (cleanup id d st)
  | None => st
  end.

Definition onTimeout (id : string) (st : State) : State := onAbort id st.

(** [resolve] of the pending entry. *)
Definition entry_resolve (id : string) (response : Response) (st : State)
  : State :=
  match dialogs st !! id with
  | Some d => promise_resolve id (d_parse d response) (cleanup id d st)
  | None => st
  end.

(** What [createDialogPromise] returns: a promise that is already resolved,
    or the promise of the request it registered. *)
Inductive PromiseRef : Type :=
  | promise_resolved (v : T)
  | promise_of (id : string).

Definition signal_aborted (opts : option Opts) (st : State) : bool :=
  match opts ≫= signal with
  | Some s => bool_decide (s ∈ aborted st)
  | None => false
  end.

Definition timeout_set (opts : option Opts) : bool :=
  match opts ≫= timeout with
  | Some ms => negb (ms =? 0)%nat
  | None => false
  end.

(** [uuid] is what [crypto.randomUUID()] returns in this call. *)
Definition createDialogPromise (wss : list Server.WebSocket)
    (opts : option Opts) (defaultValue : T) (method : string)
    (parseResponse : Response → T) (uuid : string) (st : State)
  : PromiseRef * State :=
  if signal_aborted opts st then (promise_resolved defaultValue, st)
  else
    let id := uuid in
    let d := {| d_signal := opts ≫= signal; d_timeoutId := timeout_set opts;
                d_default := defaultValue; d_parse := parseResponse |} in
    (promise_of id,
     {| pendingExtensionRequests :=
          <[id := pending_entry id]> (pendingExtensionRequests st);
        dialogs := <[id := d]> (dialogs st);
        promises := <[id := {| settled := None; resolve_calls := 0 |}]> (promises st);
        timers := if timeout_set opts then {[id]} ∪ timers st else timers st;
        abortListeners :=
          match opts ≫= signal with
          | Some s => abortListeners st ++ [(s, id)]
          | None => abortListeners st
          end;
        aborted := aborted st;
        sent := sent st
                ++ Server.broadcastAll wss (extension_ui_request id method) |}).

(** The [extension_ui_response] case of the message handler. *)
Definition handle_extension_ui_response (id : string) (cmd : Response)
    (st : State) : State :=
  match pendingExtensionRequests st !! id with
  | Some (pending_entry owner) =>
      entry_resolve owner cmd (with_pending (delete id) st)
  | None => st
  end.

(** The timer of request [id] expires: its callback runs if still armed. *)
Definition timer_fires (id : string) (st : State) : State :=
  if decide (id ∈ timers st)
  then onTimeout id (with_timers (λ t, t ∖ {[id]}) st)
  else st.

(** Signal [s] aborts: its flag is set and the [once] listeners registered
    on it run in registration order, each removed as it is called. *)
Definition signal_aborts (s : nat) (st : State) : State :=
  if decide (s ∈ aborted st) then st
  else
    foldl (λ st' l,
             if decide (l ∈ abortListeners st')
             then onAbort l.2 (with_listeners (removeEventListener l.1 l.2) st')
             else st')
      {| pendingExtensionRequests := pendingExtensionRequests st;
         dialogs := dialogs st; promises := promises st; timers := timers st;
         abortListeners := abortListeners st; aborted := {[s]} ∪ aborted st;
         sent := sent st |}
      (filter (λ l, l.1 = s) (abortListeners st)).

(** What can happen to the bridge. *)
Inductive Event : Type :=
  | ev_ask (uuid : string) (opts : option Opts) (defaultValue : T)
      (method : string) (parseResponse : Response → T)
  | ev_response (id : string) (cmd : Response)
  | ev_timer (id : string)
  | ev_abort (s : nat).

Definition step (wss : list Server.WebSocket) (st : State) (e : Event) : State :=
  match e with
  | ev_ask uuid opts dv m parse => (createDialogPromise wss opts dv m parse uuid st).2
  | ev_response id cmd => handle_extension_ui_response id cmd st
  | ev_timer id => timer_fires id st
  | ev_abort s => signal_aborts s st
  end.

Definition run (wss : list Server.WebSocket) (st : State) (es : list Event)
  : State :=
  foldl (step wss) st es.

(** The bridge before any dialog was opened. *)
Definition initial : State :=
  {| pendingExtensionRequests := ∅; dialogs := ∅; promises := ∅;
     timers := ∅; abortListeners := []; aborted := ∅; sent := [] |}.

(** The outcome of the promise of request [id], if it has settled. *)
Definition outcome (st : State) (id : string) : option T :=
  promises st !! id ≫= settled.

End dialog.
Arguments State : clear implicits.
Arguments Event : clear implicits.
Arguments DialogEnv : clear implicits.
Arguments Promise : clear implicits.
Arguments PromiseRef : clear implicits.
End Dialog.

(** ** Browser client: tab list and state sync *)
Module Client.

Inductive Block : Type :=
  | ThinkingBlock (text : string) (expanded : bool)
  | TextBlock (text : string)
  | ToolBlock (callId name args output : string)
      (isError running expanded : bool).

Inductive ConversationItem : Type :=
  | UserItem (text : string)
  | AssistantItem (blocks : list Block) (streaming : bool).

(** [state], with the module-level [currentAssistantItem], which aliases an
    element of [state.items] and is kept as its index. *)
Record State : Type := {
  streaming : bool;
  items : list ConversationItem;
  tabs : list TabInfo;
  activeTabId : option string;
  scrollToBottomOnSync : bool;
  currentAssistantItem : option nat;
}.

Definition newline : string := String (Ascii.ascii_of_nat 10) "".

(** [content.filter(c => c.type === "text").map(c => c.text).join("\n")] *)
Definition joined_text (parts : list ContentPart) : string :=
  String.concat newline
    (omap (λ c, match c with part_text t => Some t | _ => None end) parts).

Definition user_text (content : UserContent) : string :=
  match content with
  | content_string s => s
  | content_array parts => joined_text parts
  | content_other rendered => rendered
  end.

Fixpoint blocks_of (contentArr : list ContentPart) : list Block :=
  match contentArr with
  | [] => []
  | c :: rest =>
      match c with
      | part_text t => TextBlock t :: blocks_of rest
      | part_thinking t => ThinkingBlock t false :: blocks_of rest
      | part_toolCall id name args =>
          ToolBlock id name args "" false false false :: blocks_of rest
      | part_other _ => blocks_of rest
      end
  end.

(** [item.blocks.find(b => b.type === "tool" && b.callId === callId)],
    with the mutation applied to the block found. *)
Fixpoint mutate_tool (callId : string) (mutate : Block → Block)
    (blocks : list Block) : option (list Block) :=
  match blocks with
  | [] => None
  | b :: rest =>
      match b with
      | ToolBlock cid _ _ _ _ _ _ =>
          if String.eqb cid callId then Some (mutate b :: rest)
          else cons b <$> mutate_tool callId mutate rest
      | _ => cons b <$> mutate_tool callId mutate rest
      end
  end.

(** The loop of [findToolBlock], over the items from the last to the first. *)
Fixpoint findToolBlock_from_last (callId : string) (mutate : Block → Block)
    (reversed : list ConversationItem) : list ConversationItem :=
  match reversed with
  | [] => []
  | item :: earlier =>
      match item with
      | AssistantItem blocks s =>
          match mutate_tool callId mutate blocks with
          | Some blocks' => AssistantItem blocks' s :: earlier
          | None => item :: findToolBlock_from_last callId mutate earlier
          end
      | UserItem _ => item :: findToolBlock_from_last callId mutate earlier
      end
  end.

Definition findToolBlock (callId : string) (mutate : Block → Block)
    (its : list ConversationItem) : list ConversationItem :=
  rev (findToolBlock_from_last callId mutate (rev its)).

(** First text of a tool result: [content?.[0]] when it is a text part. *)
Definition result_text (content : option (list ContentPart)) : string :=
  match content ≫= head with
  | Some (part_text t) => t
  | _ => ""
  end.

Definition attach_result (text : string) (isError : option bool) (b : Block)
  : Block :=
  match b with
  | ToolBlock cid n a _ _ _ expanded =>
      let err := default false isError in
      ToolBlock cid n a text err false (if err then true else expanded)
  | _ => b
  end.

(** The body of the [for (const msg of messages)] loop. *)
Definition sync_message (its : list ConversationItem) (msg : AgentMessage)
  : list ConversationItem :=
  match msg with
  | msg_user content => its ++ [UserItem (user_text content)]
  | msg_assistant contentArr =>
      its ++ [AssistantItem (blocks_of (default [] contentArr)) false]
  | msg_toolResult callId content isError =>
      findToolBlock callId (attach_result (result_text content) isError) its
  | msg_other _ => its
  end.

(** Rebuilds the conversation from the full message array of a sync. *)
Definition handleStateSync (tabId : option string)
    (messages : option (list AgentMessage)) (data_streaming : option bool)
    (st : State) : State :=
  if truthy_opt tabId && negb (bool_decide (tabId = activeTabId st)) then st
  else
    {| streaming := default false data_streaming;
       items := foldl sync_message [] (default [] messages);
       tabs := tabs st;
       activeTabId := activeTabId st;
       scrollToBottomOnSync := false;
       currentAssistantItem := None |}.

(** The [tabs_update] and [state_sync] cases of [handleServerEvent].  The
    cases for runtime events and dialogs are outside this development:
    [None]. *)
Definition handleServerEvent (event : ServerMsg) (st : State) : option State :=
  match event with
  | tabs_update ts =>
      Some
      {| streaming := streaming st; items := items st;
         tabs := ts;
         activeTabId :=
           if negb (truthy_opt (activeTabId st))
           then match ts with
                | t :: _ => Some (ti_tabId t)
                | [] => activeTabId st
                end
           else activeTabId st;
         scrollToBottomOnSync := scrollToBottomOnSync st;
         currentAssistantItem := currentAssistantItem st |}
  | state_sync tabId messages data_streaming _ _ =>
      let st1 :=
        if truthy_opt tabId
        then {| streaming := streaming st; items := items st; tabs := tabs st;
                activeTabId := tabId;
                scrollToBottomOnSync := scrollToBottomOnSync st;
                currentAssistantItem := currentAssistantItem st |}
        else st in
      Some (handleStateSync tabId messages data_streaming st1)
  | _ => None
  end.

(** Clicking a tab that is not the active one: the client switches at once
    and tells the server. *)
Definition click_tab (tab : string) (st : State) : State * option Server.Command :=
  if bool_decide (Some tab = activeTabId st) then (st, None)
  else
    ({| streaming := streaming st; items := items st; tabs := tabs st;
        activeTabId := Some tab;
        scrollToBottomOnSync := scrollToBottomOnSync st;
        currentAssistantItem := currentAssistantItem st |},
     Some (Server.switch_session (Some tab))).

End Client.

(** ** Sample data *)
Module Demo.
Import Server.

Definition sess (id : string) : AgentSession :=
  {| sessionId := id; messages := []; isStreaming := false; model := None |}.

Definition entry (tab : string) : TabEntry :=
  {| tabId := tab; name := "Session " +:+ tab; session := sess ("sess-" +:+ tab) |}.

Definition registry (order : list string) (cat : gmap nat string) : ServerState :=
  {| tabOrder := order; tabs := (λ t, (t, entry t)) <$> order;
     clientActiveTab := cat; tabCounter := length order; effects := [] |}.

(** Two open viewers and one socket that is closing. *)
Definition wss : list WebSocket :=
  [ {| ws_id := 1; readyState := OPEN |};
    {| ws_id := 2; readyState := OPEN |};
    {| ws_id := 3; readyState := CLOSING |} ].

(** Socket 1 views B, sockets 2 and 3 view A. *)
Definition bindings : gmap nat string := <[1 := "B"]> (<[2 := "A"]> (<[3 := "A"]> ∅)).

Definition st_A : ServerState := registry ["A"] (<[1 := "A"]> ∅).
Definition st_AB : ServerState := registry ["A"; "B"] bindings.
Definition st_ABC : ServerState := registry ["A"; "B"; "C"] bindings.

(** The saved session behind the tab [tab], as [listAll] reports it. *)
Definition saved (tab : string) : SessionInfo :=
  {| info_id := "sess-" +:+ tab; info_path := "/sessions/" +:+ tab;
     info_name := None; info_modified := 0 |}.

(** A runtime that fails to start, and one that starts a fresh session. *)
Definition failing_env : CreateEnv :=
  {| randomUUID := "N"; sessionManager := Ok None;
     createAgentSession := Throw "no model available";
     bindExtensions := Ok () |}.

Definition working_env (uuid session_id : string) : CreateEnv :=
  {| randomUUID := uuid; sessionManager := Ok None;
     createAgentSession := Ok (sess session_id);
     bindExtensions := Ok () |}.

(** Two sockets ask, one right after the other, to open the saved session
    S, which no tab holds yet. *)
Definition two_openers : list (option OpenTask) :=
  [ open_session_start 1 (Some "/sessions/S");
    open_session_start 2 (Some "/sessions/S") ].

Definition listed (uuid : string) : Answer :=
  answer_listAll (Ok [saved "S"]) uuid (Ok None).
Definition created : Answer := answer_createAgentSession (Ok (sess "sess-S")).
Definition bound : Answer := answer_bindExtensions (Ok ()).

(** The second handler is resumed from [listAll] while the first one still
    waits for [createAgentSession]. *)
Definition overlapping : list (nat * Answer) :=
  [ (0, listed "U1"); (1, listed "U2");
    (0, created); (0, bound); (1, created); (1, bound) ].

(** The first handler finishes before the second one is resumed. *)
Definition one_after_the_other : list (nat * Answer) :=
  [ (0, listed "U1"); (0, created); (0, bound);
    (1, listed "U2"); (1, created); (1, bound) ].

End Demo.

(** The conversation a client shows while viewing tab A, next to tab B. *)
Module ClientDemo.
Import Client.

Definition viewing_A : State :=
  {| streaming := false; items := [UserItem "question asked in A"];
     tabs := [ {| ti_tabId := "A"; ti_name := "Session 1" |};
               {| ti_tabId := "B"; ti_name := "Session 2" |} ];
     activeTabId := Some "A"; scrollToBottomOnSync := false;
     currentAssistantItem := None |}.

(** The user clicks tab B and at once tab A again. *)
Definition back_on_A : State := (click_tab "A" (click_tab "B" viewing_A).1).1.

(** The sync the server sends for the first click. *)
Definition sync_of_B : ServerMsg :=
  state_sync (Some "B")
    (Some [msg_user (content_string "question asked in B")])
    (Some false) None "sess-B".

End ClientDemo.

(** ** Specification predicates *)

(** The registry invariant: the order lists every key of the mapping once,
    every entry is filed under its own identifier, and identifiers are
    non-empty (they are UUIDs). *)
Record registry_wf (st : Server.ServerState) : Prop := {
  wf_order_nodup : NoDup (Server.tabOrder st);
  wf_keys_nodup : NoDup (JsMap.keys (Server.tabs st));
  wf_same_ids : ∀ id, id ∈ Server.tabOrder st ↔ id ∈ JsMap.keys (Server.tabs st);
  wf_own_id : ∀ id e, (id, e) ∈ Server.tabs st → Server.tabId e = id;
  wf_ids_nonempty : ∀ id, id ∈ Server.tabOrder st → id ≠ "";
}.

(** No two tabs hold the same persisted session. *)
Definition one_tab_per_session (st : Server.ServerState) : Prop :=
  NoDup ((λ t, Server.sessionId (Server.session t))
           <$> JsMap.values (Server.tabs st)).

(** The sockets of [wss.clients] are pairwise distinct: it is a [Set]. *)
Definition distinct_clients (wss : list Server.WebSocket) : Prop :=
  NoDup (Server.ws_id <$> wss).

(** The open clients currently viewing [tab]. *)
Definition viewers (wss : list Server.WebSocket) (cat : gmap nat string)
    (tab : string) : list Server.WebSocket :=
  filter (λ c, Server.readyState c = Server.OPEN
               ∧ cat !! Server.ws_id c = Some tab) wss.

Definition open_clients (wss : list Server.WebSocket) : list Server.WebSocket :=
  filter (λ c, Server.readyState c = Server.OPEN) wss.

(** [delete_session] closed the open tab before it deleted the file: in the
    trace added to [st], the disposal of [openTab] comes before the unlink
    of [path], and [openTab] has left the order and the mapping. *)
Definition closed_before_unlink (path : string) (openTab : Server.TabEntry)
    (st st' : Server.ServerState) : Prop :=
  ∃ before after,
    Server.effects st'
    = Server.effects st ++ before ++ Server.fs_unlink path :: after
    ∧ Server.session_dispose openTab ∈ before
    ∧ JsMap.get (Server.tabs st') (Server.tabId openTab) = None
    ∧ Server.tabId openTab ∉ Server.tabOrder st'.

(** *** The life of one dialog request *)
Section dialog_predicates.
Context {T Response : Type}.
Implicit Types (st : Dialog.State T Response) (d : Dialog.DialogEnv T Response).

(** The identifier [id] is in use nowhere in [st]: what is expected of a
    UUID that has just been drawn. *)
Definition unused (id : string) st : Prop :=
  (∀ k, Dialog.pendingExtensionRequests st !! k ≠ Some (Dialog.pending_entry id))
  ∧ (id ∉ Dialog.timers st)
  ∧ ∀ s, (s, id) ∉ Dialog.abortListeners st.

(** Request [id] is outstanding: its promise is pending and has never been
    resolved, its entry is in the pending map (and nowhere else), its timer
    is armed exactly if a timeout was given, its abort listener is
    registered exactly on its signal. *)
Definition outstanding (id : string) d st : Prop :=
  Dialog.dialogs st !! id = Some d
  ∧ Dialog.pendingExtensionRequests st !! id = Some (Dialog.pending_entry id)
  ∧ (∀ k, Dialog.pendingExtensionRequests st !! k = Some (Dialog.pending_entry id)
          → k = id)
  ∧ Dialog.promises st !! id
    = Some {| Dialog.settled := None; Dialog.resolve_calls := 0 |}
  ∧ (id ∈ Dialog.timers st ↔ Dialog.d_timeoutId d = true)
  ∧ ∀ s, (s, id) ∈ Dialog.abortListeners st ↔ Dialog.d_signal d = Some s.

(** What is left of [outstanding] while a callback of the request runs. *)
Definition resolving (id : string) d st : Prop :=
  Dialog.dialogs st !! id = Some d
  ∧ Dialog.promises st !! id = Some {| Dialog.settled := None; Dialog.resolve_calls := 0 |}
  ∧ (∀ k, Dialog.pendingExtensionRequests st !! k = Some (Dialog.pending_entry id) → k = id)
  ∧ (id ∈ Dialog.timers st → Dialog.d_timeoutId d = true)
  ∧ ∀ s, (s, id) ∈ Dialog.abortListeners st → Dialog.d_signal d = Some s.

(** Request [id] is over with outcome [v]: its promise settled to [v] by
    the one and only call of its [resolve]; the timer is cleared, the abort
    listener removed, the pending entry deleted. *)
Definition resolved_once (id : string) (v : T) st : Prop :=
  Dialog.promises st !! id
  = Some {| Dialog.settled := Some v; Dialog.resolve_calls := 1 |}
  ∧ Dialog.pendingExtensionRequests st !! id = None
  ∧ (∀ k, Dialog.pendingExtensionRequests st !! k ≠ Some (Dialog.pending_entry id))
  ∧ (id ∉ Dialog.timers st)
  ∧ ∀ s, (s, id) ∉ Dialog.abortListeners st.

(** [st'] agrees with [st] on everything that belongs to request [id]. *)
Definition same_at (id : string) st st' : Prop :=
  Dialog.dialogs st' !! id = Dialog.dialogs st !! id
  ∧ Dialog.promises st' !! id = Dialog.promises st !! id
  ∧ Dialog.pendingExtensionRequests st' !! id
    = Dialog.pendingExtensionRequests st !! id
  ∧ (∀ k, Dialog.pendingExtensionRequests st' !! k = Some (Dialog.pending_entry id)
          → Dialog.pendingExtensionRequests st !! k = Some (Dialog.pending_entry id))
  ∧ (id ∈ Dialog.timers st' ↔ id ∈ Dialog.timers st)
  ∧ ∀ s, (s, id) ∈ Dialog.abortListeners st' ↔ (s, id) ∈ Dialog.abortListeners st.

(** An event that has nothing to do with the request [id] asked with
    [opts]: another request's reply or timer, another signal, a call that
    draws another UUID. *)
Definition unrelated (id : string) (opts : option Dialog.Opts)
    (e : Dialog.Event T Response) : Prop :=
  match e with
  | Dialog.ev_ask uuid _ _ _ _ => uuid ≠ id
  | Dialog.ev_response k _ => k ≠ id
  | Dialog.ev_timer k => k ≠ id
  | Dialog.ev_abort s => opts ≫= Dialog.signal ≠ Some s
  end.

(** The three resolution sources of the request [id] asked with [opts]: a
    reply bearing [id], its timer (if a timeout was given), its signal. *)
Definition resolves (id : string) (opts : option Dialog.Opts)
    (e : Dialog.Event T Response) : Prop :=
  match e with
  | Dialog.ev_ask _ _ _ _ _ => False
  | Dialog.ev_response k _ => k = id
  | Dialog.ev_timer k => k = id ∧ Dialog.timeout_set opts = true
  | Dialog.ev_abort s => opts ≫= Dialog.signal = Some s
  end.

(** The outcome each source resolves to. *)
Definition resolution (defaultValue : T) (parseResponse : Response → T)
    (e : Dialog.Event T Response) : T :=
  match e with
  | Dialog.ev_response _ cmd => parseResponse cmd
  | _ => defaultValue
  end.

(** The event is not a call that draws the UUID [id] again. *)
Definition not_redrawn (id : string) (e : Dialog.Event T Response) : Prop :=
  match e with
  | Dialog.ev_ask uuid _ _ _ _ => uuid ≠ id
  | _ => True
  end.

End dialog_predicates.

(** The messages a trace puts on socket [w], in order. *)
Definition delivered_to (w : nat) (es : list Server.Effect) : list ServerMsg :=
  omap (λ e, match e with
             | Server.ws_send w' m => if decide (w' = w) then Some m else None
             | _ => None
             end) es.

(** ** The rest of the message handler *)
Module Session.
Import Server.

Definition unbind (ws : nat) (st : ServerState) : ServerState :=
  {| tabOrder := tabOrder st; tabs := tabs st;
     clientActiveTab := delete ws (clientActiveTab st);
     tabCounter := tabCounter st; effects := effects st |}.

(** [wss.on("connection")]: the new socket is assigned the first tab and is
    sent the tab list and the state of that tab.  With an empty order
    [tabOrder[0]] is [undefined]: the binding is set to [undefined], which no
    reader of the table tells from a missing entry, the list is sent, and
    [sendStateSync] throws on the missing entry. *)
Definition handle_connection (ws : nat) (st : ServerState)
  : Result unit * ServerState :=
  match at_index (tabOrder st) 0 with
  | Some firstTabId =>
      let st1 := emit [ws_send ws (tabs_update (getTabsList st))]
                   (set_clientActiveTab ws firstTabId st) in
      match JsMap.get (tabs st) firstTabId with
      | Some firstEntry => (Ok (), sendStateSync ws firstEntry st1)
      | None => (Throw "TypeError", st1)
      end
  | None =>
      (Throw "TypeError",
       emit [ws_send ws (tabs_update (getTabsList st))] (unbind ws st))
  end.

(** [ws.on("close")] *)
Definition handle_close (ws : nat) (st : ServerState) : ServerState :=
  unbind ws st.

(** [tabs.get(clientActiveTab.get(ws) ?? tabOrder[0])]: the session a
    command of socket [ws] is routed to. *)
Definition activeEntry (ws : nat) (st : ServerState) : option TabEntry :=
  nullish (clientActiveTab st !! ws) (at_index (tabOrder st) 0)
  ≫= JsMap.get (tabs st).

(** What the [prompt] and [abort] cases ask of a runtime. *)
Inductive RuntimeCall : Type :=
  | session_prompt (entry : TabEntry) (text : string)
      (streamingBehavior : option string)
  | session_abort (entry : TabEntry).

Definition handle_prompt (ws : nat) (message streamingBehavior : option string)
    (st : ServerState) : option RuntimeCall :=
  match message, activeEntry ws st with
  | Some text, Some entry =>
      if negb (truthy text) then None
      else if isStreaming (session entry)
      then Some (session_prompt entry text
                   (Some (default "followUp" streamingBehavior)))
      else Some (session_prompt entry text None)
  | _, _ => None
  end.

Definition handle_abort (ws : nat) (st : ServerState) : option RuntimeCall :=
  session_abort <$> activeEntry ws st.

(** The [list_sessions] case: a failing [listAll] is logged and counts as
    an empty listing. *)
Definition handle_list_sessions (ws : nat) (listAll : Result (list SessionInfo))
    (st : ServerState) : ServerState :=
  emit (match listAll with
        | Ok _ => []
        | Throw _ => [console_error "list_sessions error"]
        end
        ++ [ws_send ws
              (sessions_list (available_sessions (list_or_empty listAll) (tabs st)))])
    st.

End Session.

(** ** The dialogs of the extension UI context, and the client's answers *)
Module DialogUI.

(** A value of a parsed reply, as far as the bridge looks at it: for
    numbers, arrays and objects only their truthiness is observed. *)
Inductive JsValue : Type :=
  | JUndefined
  | JNull
  | JBool (b : bool)
  | JString (s : string)
  | JOther (is_truthy : bool).

Definition js_truthy (v : JsValue) : bool :=
  match v with
  | JUndefined | JNull => false
  | JBool b => b
  | JString s => truthy s
  | JOther t => t
  end.

(** ["cancelled" in r && r.cancelled] *)
Definition cancelled (r : gmap string JsValue) : bool :=
  match r !! "cancelled" with
  | Some v => js_truthy v
  | None => false
  end.

(** [parseResponse] of [select] and of [input]. *)
Definition parse_value (r : gmap string JsValue) : JsValue :=
  if cancelled r then JUndefined
  else match r !! "value" with
       | Some v => v
       | None => JUndefined
       end.

(** [parseResponse] of [confirm]. *)
Definition parse_confirmed (r : gmap string JsValue) : JsValue :=
  if cancelled r then JBool false
  else match r !! "confirmed" with
       | Some v => v
       | None => JBool false
       end.

Definition select (wss : list Server.WebSocket) (opts : option Dialog.Opts)
    (uuid : string) (st : Dialog.State JsValue (gmap string JsValue)) :=
  Dialog.createDialogPromise wss opts JUndefined "select" parse_value uuid st.

Definition confirm (wss : list Server.WebSocket) (opts : option Dialog.Opts)
    (uuid : string) (st : Dialog.State JsValue (gmap string JsValue)) :=
  Dialog.createDialogPromise wss opts (JBool false) "confirm" parse_confirmed uuid st.

Definition input (wss : list Server.WebSocket) (opts : option Dialog.Opts)
    (uuid : string) (st : Dialog.State JsValue (gmap string JsValue)) :=
  Dialog.createDialogPromise wss opts JUndefined "input" parse_value uuid st.

(** The [extension_ui_response] case, from the parsed command: [cmd.id] is
    looked up in the pending map, where only strings are keys. *)
Definition on_extension_ui_response (cmd : gmap string JsValue)
    (st : Dialog.State JsValue (gmap string JsValue))
  : Dialog.State JsValue (gmap string JsValue) :=
  match cmd !! "id" with
  | Some (JString id) => Dialog.handle_extension_ui_response id cmd st
  | _ => st
  end.

(** What the user can do to the dialog the client shows ([renderDialog],
    [addCancelBtn], the backdrop listener). *)
Inductive Click : Type :=
  | click_option (opt : string)
  | click_yes
  | click_no
  | click_ok (typed : string)
  | click_cancel
  | click_backdrop.

(** The value each control passes to [respond]; [None] when the dialog of
    that method has no such control. *)
Definition click_value (method : string) (c : Click)
  : option (gmap string JsValue) :=
  match c with
  | click_backdrop => Some {[ "cancelled" := JBool true ]}
  | click_option opt =>
      if String.eqb method "select" then Some {[ "value" := JString opt ]}
      else None
  | click_yes =>
      if String.eqb method "confirm" then Some {[ "confirmed" := JBool true ]}
      else None
  | click_no =>
      if String.eqb method "confirm" then Some {[ "confirmed" := JBool false ]}
      else None
  | click_ok typed =>
      if String.eqb method "input" || String.eqb method "editor"
      then Some {[ "value" := JString typed ]}
      else None
  | click_cancel =>
      if String.eqb method "select" || String.eqb method "input"
         || String.eqb method "editor"
      then Some {[ "cancelled" := JBool true ]}
      else None
  end.

(** [{ type: "extension_ui_response", id: req.id, ...value }] *)
Definition respond (id : string) (value : gmap string JsValue)
  : gmap string JsValue :=
  value ∪ <["id" := JString id]> {[ "type" := JString "extension_ui_response" ]}.

(** What the user meant by the click. *)
Definition meaning (c : Click) : JsValue :=
  match c with
  | click_option opt => JString opt
  | click_yes => JBool true
  | click_no => JBool false
  | click_ok typed => JString typed
  | click_cancel | click_backdrop => JUndefined
  end.

End DialogUI.

(** ** Browser client: the event stream of a response *)
Module ClientStream.
Import Client.

(** [event.assistantMessageEvent] *)
Inductive Delta : Type :=
  | text_delta (delta : option string)
  | thinking_delta (delta : option string)
  | toolcall_end (toolCall : option (string * string * string))
  | other_delta.

(** The runtime events [handleServerEvent] acts on. *)
Inductive RuntimeEvent : Type :=
  | agent_start
  | message_update (assistantMessageEvent : option Delta)
  | message_start
  | tool_execution_update (toolCallId : string)
      (partialResult : option (list ContentPart))
  | tool_execution_end (toolCallId : string)
      (result : option (list ContentPart)) (isError : option bool)
  | agent_end.

(** [blocks.find(b => b.type === "text")], created empty at the end when
    missing, then [tb.text += delta]. *)
Fixpoint append_text (delta : string) (blocks : list Block) : list Block :=
  match blocks with
  | [] => [TextBlock ("" +:+ delta)]
  | TextBlock t :: rest => TextBlock (t +:+ delta) :: rest
  | b :: rest => b :: append_text delta rest
  end.

Fixpoint append_thinking (delta : string) (blocks : list Block) : list Block :=
  match blocks with
  | [] => [ThinkingBlock ("" +:+ delta) false]
  | ThinkingBlock t e :: rest => ThinkingBlock (t +:+ delta) e :: rest
  | b :: rest => b :: append_thinking delta rest
  end.

Definition apply_delta (d : Delta) (blocks : list Block) : list Block :=
  match d with
  | text_delta delta => append_text (default "" delta) blocks
  | thinking_delta delta => append_thinking (default "" delta) blocks
  | toolcall_end (Some (id, name, args)) =>
      blocks ++ [ToolBlock id name args "" false true false]
  | toolcall_end None => blocks
  | other_delta => blocks
  end.

Definition on_blocks (f : list Block → list Block) (item : ConversationItem)
  : ConversationItem :=
  match item with
  | AssistantItem blocks s => AssistantItem (f blocks) s
  | UserItem _ => item
  end.

Definition stop_streaming (item : ConversationItem) : ConversationItem :=
  match item with
  | AssistantItem blocks _ => AssistantItem blocks false
  | UserItem _ => item
  end.

(** A mutation of the item [currentAssistantItem] points to. *)
Definition with_current (f : ConversationItem → ConversationItem) (st : State)
  : State :=
  match currentAssistantItem st with
  | Some i =>
      {| streaming := streaming st; items := alter f i (items st);
         tabs := tabs st; activeTabId := activeTabId st;
         scrollToBottomOnSync := scrollToBottomOnSync st;
         currentAssistantItem := currentAssistantItem st |}
  | None => st
  end.

(** [currentAssistantItem = { kind: "assistant", blocks: [], streaming: true };
    state.items.push(currentAssistantItem)] *)
Definition push_current (st : State) : State :=
  {| streaming := streaming st;
     items := items st ++ [AssistantItem [] true];
     tabs := tabs st; activeTabId := activeTabId st;
     scrollToBottomOnSync := scrollToBottomOnSync st;
     currentAssistantItem := Some (length (items st)) |}.

Definition set_streaming (b : bool) (st : State) : State :=
  {| streaming := b; items := items st; tabs := tabs st;
     activeTabId := activeTabId st;
     scrollToBottomOnSync := scrollToBottomOnSync st;
     currentAssistantItem := currentAssistantItem st |}.

Definition clear_current (st : State) : State :=
  {| streaming := streaming st; items := items st; tabs := tabs st;
     activeTabId := activeTabId st;
     scrollToBottomOnSync := scrollToBottomOnSync st;
     currentAssistantItem := None |}.

Definition with_items (f : list ConversationItem → list ConversationItem)
    (st : State) : State :=
  {| streaming := streaming st; items := f (items st); tabs := tabs st;
     activeTabId := activeTabId st;
     scrollToBottomOnSync := scrollToBottomOnSync st;
     currentAssistantItem := currentAssistantItem st |}.

Definition current_blocks (st : State) : option (list Block) :=
  match currentAssistantItem st ≫= (items st !!.) with
  | Some (AssistantItem blocks _) => Some blocks
  | _ => None
  end.

Definition set_output (text : string) (b : Block) : Block :=
  match b with
  | ToolBlock cid n a _ e r x => ToolBlock cid n a text e r x
  | _ => b
  end.

(** The mutation of [tool_execution_end]. *)
Definition finish_tool (text : string) (isError : option bool) (b : Block)
  : Block :=
  match b with
  | ToolBlock cid n a out _ _ expanded =>
      let err := default false isError in
      ToolBlock cid n a (if truthy text then text else out) err false
        (if err then true else expanded)
  | _ => b
  end.

(** The cases of [handleServerEvent] for the events of a response. *)
Definition handleRuntimeEvent (event : RuntimeEvent) (st : State) : State :=
  match event with
  | agent_start => push_current (set_streaming true st)
  | message_update delta =>
      match currentAssistantItem st, delta with
      | Some _, Some d => with_current (on_blocks (apply_delta d)) st
      | _, _ => st
      end
  | message_start =>
      match current_blocks st, currentAssistantItem st with
      | Some (_ :: _), _ => push_current (with_current stop_streaming st)
      | _, None => push_current st
      | _, _ => st
      end
  | tool_execution_update callId partialResult =>
      let text := result_text partialResult in
      if truthy text
      then with_items (findToolBlock callId (set_output text)) st
      else st
  | tool_execution_end callId result isError =>
      with_items
        (findToolBlock callId (finish_tool (result_text result) isError)) st
  | agent_end => clear_current (with_current stop_streaming (set_streaming false st))
  end.

(** The text shown by the text blocks, and the deltas it comes from. *)
Definition shown_text (blocks : list Block) : list string :=
  omap (λ b, match b with TextBlock t => Some t | _ => None end) blocks.

Definition text_deltas (ds : list Delta) : list string :=
  omap (λ d, match d with text_delta delta => Some (default "" delta) | _ => None end) ds.

End ClientStream.

(** ** Browser client: escaping *)
Module ClientUtil.
Import Stdlib.Strings.Ascii.

(** [s.replace(/c/g, by)] for a one-character pattern. *)
Fixpoint replace_char (c : Ascii.ascii) (by_ : string) (s : string) : string :=
  match s with
  | EmptyString => EmptyString
  | String a rest =>
      if Ascii.eqb a c then by_ +:+ replace_char c by_ rest
      else String a (replace_char c by_ rest)
  end.

Definition escHtml (s : string) : string :=
  replace_char ">"%char "&gt;"
    (replace_char "<"%char "&lt;" (replace_char "&"%char "&amp;" s)).

(** Each character escaped on its own. *)
Definition esc_char (a : Ascii.ascii) : string :=
  if Ascii.eqb a "&"%char then "&amp;"
  else if Ascii.eqb a "<"%char then "&lt;"
  else if Ascii.eqb a ">"%char then "&gt;"
  else String a EmptyString.

Fixpoint esc_each (s : string) : string :=
  match s with
  | EmptyString => EmptyString
  | String a rest => esc_char a +:+ esc_each rest
  end.

Fixpoint occurs (c : Ascii.ascii) (s : string) : bool :=
  match s with
  | EmptyString => false
  | String a rest => Ascii.eqb a c || occurs c rest
  end.

End ClientUtil.

(** ** The line bridge of the subprocess server

    The variant of the server that pipes a [pi --mode rpc] process to the
    socket cuts the process output into lines. *)
Module RpcBridge.
Section bridge.
(** [String.prototype.trim] *)
Variable trim : string → string.

Definition newline : Ascii.ascii := Ascii.ascii_of_nat 10.

(** [s.split("\n")]: never empty, the last piece is what follows the last
    newline. *)
Fixpoint split_lines (s : string) : list string :=
  match s with
  | EmptyString => [EmptyString]
  | String a rest =>
      if Ascii.eqb a newline then EmptyString :: split_lines rest
      else match split_lines rest with
           | piece :: pieces => String a piece :: pieces
           | [] => [String a EmptyString]
           end
  end.

(** The [for (const line of lines)] loop. *)
Fixpoint forward (open : bool) (lines : list string) : list string :=
  match lines with
  | [] => []
  | line :: rest =>
      let trimmed := trim line in
      if negb (truthy trimmed) then forward open rest
      else if open then trimmed :: forward open rest
      else forward open rest
  end.

(** [pi.stdout.on("data")]: the lines sent on the socket and the new
    [lineBuffer]; [open] tells whether the socket is OPEN. *)
Definition on_data (open : bool) (lineBuffer chunk : string)
  : list string * string :=
  let lines := split_lines (lineBuffer +:+ chunk) in
  (forward open (removelast lines), List.last lines EmptyString).

(** Chunks arriving one after the other. *)
Fixpoint on_chunks (open : bool) (lineBuffer : string) (chunks : list string)
  : list string * string :=
  match chunks with
  | [] => ([], lineBuffer)
  | chunk :: rest =>
      let '(sent, buffer) := on_data open lineBuffer chunk in
      let '(sent', buffer') := on_chunks open buffer rest in
      (sent ++ sent', buffer')
  end.

End bridge.
End RpcBridge.

(** ** More specification predicates *)

(** Every open client is bound, if at all, to a tab that exists. *)
Definition bindings_valid (wss : list Server.WebSocket)
    (st : Server.ServerState) : Prop :=
  ∀ c t, c ∈ wss → Server.readyState c = Server.OPEN →
         Server.clientActiveTab st !! Server.ws_id c = Some t →
         is_Some (JsMap.get (Server.tabs st) t).

(** The session identifiers held by the open tabs. *)
Definition open_session_ids (st : Server.ServerState) : list string :=
  (λ t, Server.sessionId (Server.session t)) <$> JsMap.values (Server.tabs st).

(** What a client does with the messages it is sent, one after the other;
    a message outside the tab cases leaves the tab fields alone. *)
Definition client_receives (msgs : list ServerMsg) (st : Client.State)
  : Client.State :=
  foldl (λ st' m, default st' (Client.handleServerEvent m st')) st msgs.

(** All the strings of a list, one after the other. *)
Definition joined (l : list string) : string := foldr String.append "" l.

(** The event is neither a reply bearing [id] nor a call that draws the
    UUID [id] again. *)
Definition not_answered {T Response : Type} (id : string)
    (e : Dialog.Event T Response) : Prop :=
  match e with
  | Dialog.ev_ask uuid _ _ _ _ => uuid ≠ id
  | Dialog.ev_response k _ => k ≠ id
  | _ => True
  end.

(** The messages of a sync that become an item of the conversation. *)
Definition adds_item (msg : AgentMessage) : bool :=
  match msg with
  | msg_user _ | msg_assistant _ => true
  | _ => false
  end.

(** Nothing in the item is still in progress. *)
Definition settled_block (b : Client.Block) : Prop :=
  match b with
  | Client.ToolBlock _ _ _ _ _ running _ => running = false
  | _ => True
  end.

Definition settled_item (item : Client.ConversationItem) : Prop :=
  match item with
  | Client.AssistantItem blocks streaming =>
      streaming = false ∧ Forall settled_block blocks
  | Client.UserItem _ => True
  end.

(** No tool block of the items carries the call identifier [callId]. *)
Definition no_tool_block (callId : string) (blocks : list Client.Block) : Prop :=
  ∀ n a o e r x, Client.ToolBlock callId n a o e r x ∉ blocks.

(** ** Lemmas on the JavaScript helpers *)

Lemma filter_all {A} (P : A → Prop) `{!∀ x, Decision (P x)} (l : list A) :
  Forall P l → filter P l = l.
Proof.
  induction 1 as [|x l Hx _ IH]; [done|].
  rewrite filter_cons_True by done. by rewrite IH.
Qed.

Lemma filter_agree {A} (P Q : A → Prop)
    `{!∀ x, Decision (P x)} `{!∀ x, Decision (Q x)} (l : list A) :
  (∀ x, x ∈ l → P x ↔ Q x) → filter P l = filter Q l.
Proof.
  induction l as [|x l IH]; intros Hpq; [done|].
  assert (filter P l = filter Q l) as Hl.
  { apply IH. intros y Hy. apply Hpq. by right. }
  destruct (decide (P x)) as [Hp|Hp].
  - rewrite !filter_cons_True; [by rewrite Hl | by apply Hpq; [left|] | done].
  - rewrite !filter_cons_False; [done | | done].
    intros Hq. apply Hp. apply Hpq; [left | done].
Qed.

Lemma NoDup_fmap_filter {A B} (f : A → B) (P : A → Prop)
    `{!∀ x, Decision (P x)} (l : list A) :
  NoDup (f <$> l) → NoDup (f <$> filter P l).
Proof.
  induction l as [|x l IH]; [done|]. rewrite fmap_cons.
  intros [Hx Hnd]%NoDup_cons. destruct (decide (P x)).
  - rewrite filter_cons_True by done. rewrite fmap_cons. apply NoDup_cons.
    split; [|by apply IH]. intros (y & Hy & [_ Hin]%list_elem_of_filter)%list_elem_of_fmap.
    apply Hx. apply list_elem_of_fmap. by exists y.
  - rewrite filter_cons_False by done. by apply IH.
Qed.

Lemma array_find_Some {A} (p : A → bool) (l : list A) (x : A) :
  array_find p l = Some x → x ∈ l ∧ p x = true.
Proof.
  induction l as [|y l IH]; simpl; [done|].
  destruct (p y) eqn:Hp.
  - intros [= ->]. split; [left | done].
  - intros [Hin Hx]%IH. split; [by right | done].
Qed.

Section js_lemmas.
Context {V : Type}.
Implicit Types (m : JsMap.t V) (k : string) (v : V).

Lemma get_Some_elem m k v : JsMap.get m k = Some v → (k, v) ∈ m.
Proof.
  induction m as [|[k' v'] m IH]; simpl; [done|].
  case_decide; intros Hg.
  - injection Hg as ->. subst. left.
  - right. auto.
Qed.

Lemma get_None_keys m k : JsMap.get m k = None ↔ k ∉ JsMap.keys m.
Proof.
  unfold JsMap.keys. induction m as [|[k' v'] m IH]; simpl.
  - split; [intros _; apply not_elem_of_nil | done].
  - case_decide; subst.
    + split; [done | intros Hn; exfalso; apply Hn; left].
    + rewrite IH, not_elem_of_cons. naive_solver.
Qed.

Lemma has_true_keys m k : JsMap.has m k = true ↔ k ∈ JsMap.keys m.
Proof.
  unfold JsMap.has. destruct (JsMap.get m k) eqn:Hg.
  - split; [intros _ | done]. apply get_Some_elem in Hg.
    unfold JsMap.keys. apply list_elem_of_fmap. by exists (k, v).
  - apply get_None_keys in Hg. split; [done | intros; contradiction].
Qed.

Lemma elem_get_nodup m k v :
  NoDup (JsMap.keys m) → (k, v) ∈ m → JsMap.get m k = Some v.
Proof.
  unfold JsMap.keys. induction m as [|[k' v'] m IH]; simpl; intros Hnd Hin.
  - by apply elem_of_nil in Hin.
  - apply NoDup_cons in Hnd as [Hk Hnd]. apply elem_of_cons in Hin as [Heq|Hin].
    + injection Heq as Hk' Hv'. subst. by rewrite decide_True.
    + case_decide; [|by apply IH]. subst. exfalso. apply Hk.
      apply list_elem_of_fmap. by exists (k, v).
Qed.

Lemma get_delete_ne m k k' :
  k ≠ k' → JsMap.get (JsMap.delete m k) k' = JsMap.get m k'.
Proof.
  intros Hne. induction m as [|[k0 v0] m IH]; simpl; [done|].
  destruct (decide (k0 = k)) as [->|]; simpl.
  - by rewrite decide_False.
  - case_decide; [done | apply IH].
Qed.

Lemma keys_delete m k :
  NoDup (JsMap.keys m) →
  JsMap.keys (JsMap.delete m k) = filter (λ x, x ≠ k) (JsMap.keys m).
Proof.
  unfold JsMap.keys. induction m as [|[k0 v0] m IH]; simpl; intros Hnd; [done|].
  apply NoDup_cons in Hnd as [Hk Hnd].
  destruct (decide (k0 = k)) as [->|Hne].
  - rewrite filter_cons_False by naive_solver.
    symmetry. apply filter_all. apply Forall_forall.
    intros x Hx ->. contradiction.
  - rewrite filter_cons_True by done. simpl. f_equal. by apply IH.
Qed.

Lemma elem_delete m k kv : kv ∈ JsMap.delete m k → kv ∈ m.
Proof.
  induction m as [|[k0 v0] m IH]; simpl; [done|].
  case_decide; [by right|]. rewrite !elem_of_cons. naive_solver.
Qed.

Lemma keys_set_fresh m k v :
  k ∉ JsMap.keys m → JsMap.keys (JsMap.set m k v) = JsMap.keys m ++ [k].
Proof.
  unfold JsMap.keys. induction m as [|[k0 v0] m IH]; simpl; [done|].
  intros Hn. apply not_elem_of_cons in Hn as [Hne Hn].
  rewrite decide_False by done. simpl. f_equal. by apply IH.
Qed.

Lemma elem_set_fresh m k v kv :
  k ∉ JsMap.keys m → kv ∈ JsMap.set m k v ↔ kv ∈ m ∨ kv = (k, v).
Proof.
  unfold JsMap.keys. induction m as [|[k0 v0] m IH]; simpl; intros Hn.
  - rewrite list_elem_of_singleton. split; [by right|].
    intros [H|H]; [by apply elem_of_nil in H | done].
  - apply not_elem_of_cons in Hn as [Hne Hn].
    rewrite decide_False by done. rewrite !elem_of_cons, IH by done.
    naive_solver.
Qed.
End js_lemmas.

Lemma indexOf_app_fresh (pre post : list string) (x : string) :
  x ∉ pre → indexOf (pre ++ x :: post) x = Z.of_nat (length pre).
Proof.
  induction pre as [|y pre IH]; simpl; intros Hn.
  - by rewrite decide_True.
  - apply not_elem_of_cons in Hn as [Hne Hn].
    rewrite decide_False by done. rewrite IH by done.
    destruct (Z.ltb_spec (Z.of_nat (length pre)) 0); lia.
Qed.

(** ** Broadcast scoping *)
Section broadcast.
Import Server.

Lemma broadcastToTabViewers_viewers wss cat tab msg :
  broadcastToTabViewers wss cat tab msg
  = (λ c, ws_send (ws_id c) msg) <$> viewers wss cat tab.
Proof.
  unfold viewers. induction wss as [|c wss IH]; simpl; [done|].
  case_decide.
  - rewrite filter_cons_True by done. simpl. by rewrite IH.
  - by rewrite filter_cons_False.
Qed.

Lemma broadcastAll_open wss msg :
  broadcastAll wss msg = (λ c, ws_send (ws_id c) msg) <$> open_clients wss.
Proof.
  unfold open_clients. induction wss as [|c wss IH]; simpl; [done|].
  case_decide.
  - rewrite filter_cons_True by done. simpl. by rewrite IH.
  - by rewrite filter_cons_False.
Qed.

Lemma delivered_to_app w es1 es2 :
  delivered_to w (es1 ++ es2) = delivered_to w es1 ++ delivered_to w es2.
Proof. unfold delivered_to. apply omap_app. Qed.

Lemma delivered_to_sends_none w (f : WebSocket → ServerMsg) (cs : list WebSocket) :
  (∀ c, c ∈ cs → ws_id c ≠ w) →
  delivered_to w ((λ c, ws_send (ws_id c) (f c)) <$> cs) = [].
Proof.
  induction cs as [|c cs IH]; intros Hne; [done|].
  unfold delivered_to in *. simpl. rewrite decide_False.
  - apply IH. intros c' Hc'. apply Hne. by right.
  - apply Hne. left.
Qed.

Lemma delivered_to_sends_one w (f : WebSocket → ServerMsg) (cs : list WebSocket) c :
  NoDup (ws_id <$> cs) → c ∈ cs → ws_id c = w →
  delivered_to w ((λ c, ws_send (ws_id c) (f c)) <$> cs) = [f c].
Proof.
  induction cs as [|c0 cs IH]; simpl; intros Hnd Hin Hw.
  - by apply elem_of_nil in Hin.
  - apply NoDup_cons in Hnd as [Hc0 Hnd].
    apply elem_of_cons in Hin as [->|Hin].
    + unfold delivered_to. simpl. rewrite decide_True by done. f_equal.
      apply (delivered_to_sends_none w f cs).
      intros c' Hc' Heq. apply Hc0. rewrite Hw, <- Heq.
      apply list_elem_of_fmap. by exists c'.
    + unfold delivered_to. simpl. rewrite decide_False.
      * by apply IH.
      * intros Heq. apply Hc0. rewrite Heq, <- Hw.
        apply list_elem_of_fmap. by exists c.
Qed.

(** C1.  Events of a tab reach its viewers only.  [broadcastToTabViewers]
    sends the message to exactly the open sockets bound to the given tab, in
    the order of [wss.clients]; the listener that [createTab] subscribes for
    tab [T2] emits through it, so a socket bound to another tab [T1], or
    bound to nothing, is sent nothing. *)
Theorem scoped_broadcast_isolation (wss : list WebSocket) (st : ServerState)
    (T1 T2 : string) (w : nat) (event : string) :
  T1 ≠ T2 →
  clientActiveTab st !! w = Some T1 →
  (∀ cat tab msg,
     broadcastToTabViewers wss cat tab msg
     = (λ c, ws_send (ws_id c) msg) <$> viewers wss cat tab)
  ∧ effects (session_listener wss T2 event st)
    = effects st
      ++ broadcastToTabViewers wss (clientActiveTab st) T2 (agent_event event)
  ∧ delivered_to w
      (broadcastToTabViewers wss (clientActiveTab st) T2 (agent_event event)) = []
  ∧ (∀ w' msg, clientActiveTab st !! w' = None →
       delivered_to w' (broadcastToTabViewers wss (clientActiveTab st) T2 msg) = []).
Proof.
  intros Hne Hbound. split; [apply broadcastToTabViewers_viewers|].
  split; [done|]. split.
  - rewrite broadcastToTabViewers_viewers.
    apply (delivered_to_sends_none w (λ _, agent_event event)).
    intros c [[_ Hc] _]%list_elem_of_filter Heq. rewrite Heq in Hc. congruence.
  - intros w' msg Hnone. rewrite broadcastToTabViewers_viewers.
    apply (delivered_to_sends_none w' (λ _, msg)).
    intros c [[_ Hc] _]%list_elem_of_filter Heq. rewrite Heq in Hc. congruence.
Qed.

End broadcast.

Lemma scoped_broadcast_isolation_witness :
  Server.effects (Server.session_listener Demo.wss "A" "token" Demo.st_AB)
  = [Server.ws_send 2 (agent_event "token")]
  ∧ delivered_to 1
      (Server.broadcastToTabViewers Demo.wss Demo.bindings "A"
         (agent_event "token")) = [].
Proof.
  destruct (scoped_broadcast_isolation Demo.wss Demo.st_AB "B" "A" 1 "token")
    as (_ & Heff & Hnone & _).
  - discriminate.
  - reflexivity.
  - split; [|exact Hnone]. rewrite Heff. reflexivity.
Defined.

(** ** Tab registry *)
Section registry.
Import Server.

Lemma registry_wf_get st id e :
  registry_wf st → (id, e) ∈ tabs st → JsMap.get (tabs st) id = Some e.
Proof. intros Hwf. apply elem_get_nodup, Hwf. Qed.

Lemma registry_wf_has st id :
  registry_wf st → id ∈ tabOrder st → JsMap.has (tabs st) id = true.
Proof. intros Hwf Hin. apply has_true_keys. by apply Hwf. Qed.

Lemma registry_wf_length st :
  registry_wf st → length (tabOrder st) = JsMap.size (tabs st).
Proof.
  intros Hwf. unfold JsMap.size.
  rewrite <- (length_fmap fst (tabs st)).
  apply Permutation_length, NoDup_Permutation; [apply Hwf..|].
  intros x. apply Hwf.
Qed.

(** The order once [tab] is taken out. *)
Lemma remainingOrder_split st tab pre post :
  registry_wf st → tabOrder st = pre ++ tab :: post →
  (tab ∉ pre) ∧ (tab ∉ post)
  ∧ filter (λ id, id ≠ tab ∧ JsMap.has (tabs st) id = true) (tabOrder st)
    = pre ++ post.
Proof.
  intros Hwf Hsplit.
  assert (NoDup (pre ++ tab :: post)) as Hnd by (rewrite <- Hsplit; apply Hwf).
  apply NoDup_app in Hnd as (_ & Hpre & Hpost).
  apply NoDup_cons in Hpost as [Hpost _].
  assert (tab ∉ pre) as Hnpre.
  { intros Hin. apply (Hpre _ Hin). left. }
  split; [done|]. split; [done|].
  rewrite (filter_agree _ (λ id, id ≠ tab)).
  - rewrite Hsplit, filter_app, filter_cons_False by (intros H; by apply H).
    rewrite !filter_all; [done|..]; apply Forall_forall; by intros x Hx ->.
  - intros x Hx. split; [by intros [? _]|]. intros Hne. split; [done|].
    by apply registry_wf_has.
Qed.

(** The predecessor if there is one, else the first successor. *)
Lemma neighbour_exists (pre post : list string) :
  (1 ≤ length pre + length post)%nat →
  ∃ r, match last pre with Some p => Some p | None => head post end = Some r
       ∧ r ∈ pre ++ post.
Proof.
  intros Hlen. destruct pre as [|p pre' _] using rev_ind.
  - destruct post as [|q post]; simpl in *; [lia|]. exists q. split; [done|]. left.
  - rewrite last_snoc. exists p. split; [done|].
    apply elem_of_app. left. apply elem_of_app. right. left.
Qed.

Lemma closeTab_unfold st tab pre post entry :
  registry_wf st → tabOrder st = pre ++ tab :: post →
  JsMap.get (tabs st) tab = Some entry →
  (2 ≤ JsMap.size (tabs st))%nat →
  closeTab tab st
  = (match last pre with Some p => Some p | None => head post end,
     {| tabOrder := pre ++ post; tabs := JsMap.delete (tabs st) tab;
        clientActiveTab := clientActiveTab st; tabCounter := tabCounter st;
        effects := effects st ++ [session_dispose entry] |}).
Proof.
  intros Hwf Hsplit Hget Hsize. unfold closeTab. rewrite Hget.
  destruct (Nat.leb_spec (JsMap.size (tabs st)) 1) as [|_]; [lia|].
  destruct (remainingOrder_split st tab pre post Hwf Hsplit) as (Hpre & _ & ->).
  rewrite Hsplit, indexOf_app_fresh by done.
  f_equal.
  - destruct pre as [|p pre' _] using rev_ind.
    + simpl. unfold at_index. simpl. by destruct post.
    + rewrite last_snoc, length_app. simpl.
      replace (Z.max 0 (Z.of_nat (length pre' + 1) - 1))
        with (Z.of_nat (length pre')) by lia.
      unfold at_index.
      destruct (Z.ltb_spec (Z.of_nat (length pre')) 0) as [|_]; [lia|].
      rewrite Nat2Z.id, <- app_assoc. simpl.
      by rewrite list_lookup_middle.
  - f_equal.
    destruct (Z.eqb_spec (Z.of_nat (length pre)) (-1)) as [|_]; [lia|].
    rewrite Nat2Z.id. clear. induction pre as [|x pre IH]; simpl; [done|].
    by rewrite IH.
Qed.

(** C2.  Last-tab protection: on a registry whose only tab is [tab],
    [closeTab] hands back [tab] itself and changes nothing (no disposal, no
    removal), and the [close_tab] command stops before it even calls it. *)
Theorem closeTab_sole_tab_noop (wss : list WebSocket) (st : ServerState)
    (tab : string) (entry : TabEntry) :
  JsMap.get (tabs st) tab = Some entry →
  JsMap.size (tabs st) = 1%nat →
  closeTab tab st = (Some tab, st)
  ∧ handle_close_tab wss (Some tab) st = st.
Proof.
  intros Hget Hsize. split.
  - unfold closeTab. by rewrite Hget, Hsize.
  - unfold handle_close_tab, JsMap.has. by rewrite Hget, Hsize.
Qed.

(** C3.  Replacement on close: in a well-formed registry of at least two
    tabs, closing the tab found at [pre ++ tab :: post] of the creation
    order yields the tab just before it (the last of [pre]) when there is
    one, and otherwise the first remaining tab (the head of [post]); some
    replacement always exists. *)
Theorem closeTab_replacement (st : ServerState) (tab : string)
    (pre post : list string) :
  registry_wf st →
  (2 ≤ JsMap.size (tabs st))%nat →
  tabOrder st = pre ++ tab :: post →
  (closeTab tab st).1
  = match last pre with
    | Some predecessor => Some predecessor
    | None => head post
    end
  ∧ is_Some (closeTab tab st).1
  ∧ tabOrder (closeTab tab st).2 = pre ++ post.
Proof.
  intros Hwf Hsize Hsplit.
  assert (tab ∈ tabOrder st) as Hin.
  { rewrite Hsplit. apply elem_of_app. right. left. }
  assert (JsMap.has (tabs st) tab = true) as Hhas by by apply registry_wf_has.
  unfold JsMap.has in Hhas.
  destruct (JsMap.get (tabs st) tab) as [entry|] eqn:Hget; [|done].
  rewrite (closeTab_unfold st tab pre post entry) by done. simpl.
  split; [done|]. split; [|done].
  pose proof (registry_wf_length st Hwf) as Hlen.
  rewrite Hsplit, length_app in Hlen. simpl in Hlen.
  destruct (neighbour_exists pre post) as (r & -> & _); [lia | by exists r].
Qed.

End registry.

Lemma demo_registry_wf (order : list string) (cat : gmap nat string) :
  NoDup order → Forall (λ id, id ≠ "") order →
  registry_wf (Demo.registry order cat).
Proof.
  intros Hnd Hne.
  assert (JsMap.keys ((λ t, (t, Demo.entry t)) <$> order) = order) as Hkeys.
  { unfold JsMap.keys. rewrite <- list_fmap_compose. apply list_fmap_id. }
  split; simpl.
  - done.
  - by rewrite Hkeys.
  - intros id. by rewrite Hkeys.
  - intros id e (t & Heq & _)%list_elem_of_fmap. by injection Heq as -> ->.
  - intros id Hin. by apply (proj1 (Forall_forall _ _) Hne).
Qed.

Lemma closeTab_sole_tab_noop_witness :
  Server.closeTab "A" Demo.st_A = (Some "A", Demo.st_A)
  ∧ Server.handle_close_tab Demo.wss (Some "A") Demo.st_A = Demo.st_A.
Proof.
  apply (closeTab_sole_tab_noop Demo.wss Demo.st_A "A" (Demo.entry "A"));
    reflexivity.
Defined.

Lemma closeTab_replacement_witness :
  (Server.closeTab "B" Demo.st_ABC).1 = Some "A"
  ∧ (Server.closeTab "A" Demo.st_AB).1 = Some "B".
Proof.
  split.
  - apply (closeTab_replacement Demo.st_ABC "B" ["A"] ["C"]).
    + apply demo_registry_wf; compute_done.
    + simpl. lia.
    + reflexivity.
  - apply (closeTab_replacement Demo.st_AB "A" [] ["B"]).
    + apply demo_registry_wf; compute_done.
    + simpl. lia.
    + reflexivity.
Defined.

(** ** The close-tab flow *)
Section close_flow.
Import Server.

Lemma viewers_rebound wss cat target w r :
  w ∉ ws_id <$> wss →
  viewers wss (<[w := r]> cat) target = viewers wss cat target.
Proof.
  intros Hw. unfold viewers. apply filter_agree. intros c Hc.
  rewrite lookup_insert_ne; [done|].
  intros ->. apply Hw. apply list_elem_of_fmap. by exists c.
Qed.

(** The redirect loop: every open viewer of [target] is bound to the
    replacement and synced, in the order of [wss.clients]; nothing else
    changes. *)
Lemma redirect_viewers_spec wss target r rentry st :
  distinct_clients wss →
  truthy r = true → JsMap.get (tabs st) r = Some rentry →
  tabId rentry = r → r ≠ target →
  tabOrder (redirect_viewers wss target (Some r) st) = tabOrder st
  ∧ tabs (redirect_viewers wss target (Some r) st) = tabs st
  ∧ tabCounter (redirect_viewers wss target (Some r) st) = tabCounter st
  ∧ effects (redirect_viewers wss target (Some r) st)
    = effects st
      ++ ((λ c, ws_send (ws_id c) (sync_msg rentry))
            <$> viewers wss (clientActiveTab st) target)
  ∧ ∀ w, clientActiveTab (redirect_viewers wss target (Some r) st) !! w
         = if decide (w ∈ ws_id <$> viewers wss (clientActiveTab st) target)
           then Some r else clientActiveTab st !! w.
Proof.
  intros Hnd Htruthy Hget Hid Hne. revert st Hget.
  induction wss as [|c wss IH]; intros st Hget.
  { cbn [redirect_viewers]. unfold viewers. rewrite filter_nil, fmap_nil.
    split; [done|]. split; [done|]. split; [done|]. split.
    - by rewrite app_nil_r.
    - intros w. destruct (decide _) as [H|]; [by apply elem_of_nil in H|done]. }
  unfold distinct_clients in *. rewrite fmap_cons in Hnd.
  apply NoDup_cons in Hnd as [Hc Hnd]. specialize (IH Hnd).
  cbn [redirect_viewers].
  destruct (decide (readyState c = OPEN
                    ∧ clientActiveTab st !! ws_id c = Some target)) as [Hv|Hv].
  - unfold fallback_entry. cbn [truthy_opt]. rewrite Htruthy. simpl.
    rewrite Hget, Hid.
    set (st1 := sendStateSync (ws_id c) rentry
                  (set_clientActiveTab (ws_id c) r st)).
    destruct (IH st1 Hget) as (Ho & Ht & Hn & He & Hb).
    rewrite Ho, Ht, Hn, He. subst st1. simpl.
    rewrite viewers_rebound by done.
    assert (viewers (c :: wss) (clientActiveTab st) target
            = c :: viewers wss (clientActiveTab st) target) as ->.
    { unfold viewers. by rewrite filter_cons_True. }
    split; [done|]. split; [done|]. split; [done|]. split.
    + by rewrite <- app_assoc.
    + intros w. rewrite Hb. simpl. rewrite viewers_rebound by done.
      destruct (decide (w = ws_id c)) as [->|Hw].
      * rewrite lookup_insert_eq.
        destruct (decide (ws_id c ∈ ws_id c :: _)) as [_|Hno];
          [by case_decide | exfalso; apply Hno; left].
      * rewrite lookup_insert_ne by done.
        destruct (decide (w ∈ ws_id <$> viewers wss (clientActiveTab st) target))
          as [Hin|Hin];
          destruct (decide (w ∈ ws_id c :: _)) as [Hin'|Hin']; try done.
        -- exfalso. apply Hin'. by right.
        -- apply elem_of_cons in Hin' as [|]; [done | contradiction].
  - destruct (IH st Hget) as (Ho & Ht & Hn & He & Hb).
    assert (viewers (c :: wss) (clientActiveTab st) target
            = viewers wss (clientActiveTab st) target) as ->.
    { unfold viewers. by rewrite filter_cons_False. }
    done.
Qed.

Lemma getTabsList_registry st st' :
  tabOrder st' = tabOrder st → tabs st' = tabs st →
  getTabsList st' = getTabsList st.
Proof. intros Ho Ht. unfold getTabsList. by rewrite Ho, Ht. Qed.

(** What the shared body of [close_tab] and [delete_session] does on a
    well-formed registry with a second tab. *)
Lemma close_flow_spec wss st target pre post entry :
  registry_wf st → distinct_clients wss →
  tabOrder st = pre ++ target :: post →
  JsMap.get (tabs st) target = Some entry →
  (2 ≤ JsMap.size (tabs st))%nat →
  ∃ r rentry,
    (closeTab target st).1 = Some r ∧ r ≠ target
    ∧ JsMap.get (tabs st) r = Some rentry ∧ tabId rentry = r
    ∧ JsMap.get (tabs (close_flow wss target st)) r = Some rentry
    ∧ tabOrder (close_flow wss target st) = pre ++ post
    ∧ tabs (close_flow wss target st) = JsMap.delete (tabs st) target
    ∧ tabCounter (close_flow wss target st) = tabCounter st
    ∧ effects (close_flow wss target st)
      = effects st
        ++ [session_dispose entry]
        ++ broadcastAll wss (tabs_update (getTabsList (close_flow wss target st)))
        ++ ((λ c, ws_send (ws_id c) (sync_msg rentry))
              <$> viewers wss (clientActiveTab st) target)
    ∧ ∀ w, clientActiveTab (close_flow wss target st) !! w
           = if decide (w ∈ ws_id <$> viewers wss (clientActiveTab st) target)
             then Some r else clientActiveTab st !! w.
Proof.
  intros Hwf Hnd Hsplit Hget Hsize.
  pose proof (registry_wf_length st Hwf) as Hlen.
  rewrite Hsplit, length_app in Hlen. simpl in Hlen.
  destruct (neighbour_exists pre post) as (r & Hr & Hrin); [lia|].
  destruct (remainingOrder_split st target pre post Hwf Hsplit)
    as (Hpre & Hpost & _).
  assert (r ≠ target) as Hne.
  { intros ->. apply elem_of_app in Hrin as [|]; contradiction. }
  assert (r ∈ tabOrder st) as Hrord.
  { rewrite Hsplit. apply elem_of_app in Hrin as [|]; apply elem_of_app;
      [by left | right; by right]. }
  pose proof (registry_wf_has st r Hwf Hrord) as Hhas. unfold JsMap.has in Hhas.
  destruct (JsMap.get (tabs st) r) as [rentry|] eqn:Hgr; [clear Hhas|done].
  assert (tabId rentry = r) as Hid.
  { apply (wf_own_id st Hwf). by apply get_Some_elem. }
  assert (truthy r = true) as Htr.
  { unfold truthy. apply negb_true_iff, String.eqb_neq.
    by apply (wf_ids_nonempty st Hwf). }
  exists r, rentry. unfold close_flow.
  rewrite (closeTab_unfold st target pre post entry) by done.
  cbn [fst]. rewrite Hr.
  set (st1 := {| tabOrder := pre ++ post |}).
  assert (JsMap.get (tabs (broadcastTabsList wss st1)) r = Some rentry) as Hg1.
  { simpl. by rewrite get_delete_ne. }
  destruct (redirect_viewers_spec wss target r rentry
              (broadcastTabsList wss st1) Hnd Htr Hg1 Hid Hne)
    as (Ho & Ht & Hn & He & Hb).
  rewrite (getTabsList_registry st1 (redirect_viewers _ _ _ _)) by done.
  rewrite Ho, Ht, Hn, He.
  split; [done|]. split; [done|]. split; [done|]. split; [done|].
  split; [done|]. split; [done|]. split; [done|]. split; [done|].
  split; [|done].
  simpl. by rewrite <- !app_assoc.
Qed.

End close_flow.

(** ** Commands that close or fail to create a tab *)
Section commands.
Import Server.

Lemma has_true_split st target :
  registry_wf st → JsMap.has (tabs st) target = true →
  ∃ entry pre post,
    JsMap.get (tabs st) target = Some entry
    ∧ tabOrder st = pre ++ target :: post.
Proof.
  intros Hwf Hhas.
  assert (target ∈ tabOrder st) as Hin.
  { apply Hwf. by apply has_true_keys. }
  apply list_elem_of_split in Hin as (pre & post & Hsplit).
  unfold JsMap.has in Hhas. destruct (JsMap.get (tabs st) target) eqn:Hg; [|done].
  by eexists _, pre, post.
Qed.

Lemma handle_close_tab_flow wss st target :
  JsMap.has (tabs st) target = true → (2 ≤ JsMap.size (tabs st))%nat →
  handle_close_tab wss (Some target) st = close_flow wss target st.
Proof.
  intros Hhas Hsize. unfold handle_close_tab. rewrite Hhas. simpl.
  destruct (Nat.leb_spec (JsMap.size (tabs st)) 1); [lia | done].
Qed.

End commands.

Section delete_session.
Import Server.

Lemma find_open_tab_registered st id openTab :
  registry_wf st → find_open_tab id st = Some openTab →
  JsMap.get (tabs st) (tabId openTab) = Some openTab
  ∧ sessionId (session openTab) = id.
Proof.
  intros Hwf [Hin Hp]%array_find_Some. split.
  - unfold JsMap.values in Hin.
    apply list_elem_of_fmap in Hin as ([k e] & -> & Hin). simpl.
    rewrite (wf_own_id st Hwf k e Hin). by apply registry_wf_get.
  - by apply String.eqb_eq.
Qed.

Lemma handle_delete_session_unfold wss ws path listAll unlink after st :
  truthy path = true →
  handle_delete_session wss ws (Some path) listAll unlink after st
  = let st1 :=
      match find_info path (list_or_empty listAll) with
      | None => st
      | Some deleteInfo =>
          match find_open_tab (info_id deleteInfo) st with
          | Some openTab =>
              if (1 <? JsMap.size (tabs st))%nat
              then close_flow wss (tabId openTab) st
              else st
          | None => st
          end
      end in
    emit (unlink_tail ws path unlink after (tabs st1)) st1.
Proof. intros Htruthy. unfold handle_delete_session. by rewrite Htruthy. Qed.


End delete_session.



Section create_failure.
Import Server.

(** C7.  When [createAgentSession] throws, [createTab] throws: the order,
    the mapping and the bindings are what they were, so the identifier it
    drew is registered nowhere.  The [new_session] command that called it
    ends in the handler's [catch]: the only trace it leaves is the logged
    error, no socket is sent anything, and the state it returns serves the
    next command. *)
Theorem createTab_failure_registers_nothing (wss : list WebSocket) (ws : nat)
    (env : Env) (name sessionPath : option string) (st : ServerState)
    (err : string) :
  createAgentSession (create env) = Throw err →
  (∃ e, (createTab (create env) name sessionPath st).1 = Throw e)
  ∧ tabOrder (createTab (create env) name sessionPath st).2 = tabOrder st
  ∧ tabs (createTab (create env) name sessionPath st).2 = tabs st
  ∧ tabOrder (handleCommand wss ws new_session env st) = tabOrder st
  ∧ tabs (handleCommand wss ws new_session env st) = tabs st
  ∧ clientActiveTab (handleCommand wss ws new_session env st) = clientActiveTab st
  ∧ effects (handleCommand wss ws new_session env st)
    = effects st ++ [console_error "cmd error"]
  ∧ ∀ w, delivered_to w (effects (handleCommand wss ws new_session env st))
         = delivered_to w (effects st).
Proof.
  intros Hthrow.
  assert (∃ e, createTab (create env) name sessionPath st
               = (Throw e, createTab_begin st)) as [e He].
  { unfold createTab. rewrite Hthrow.
    destruct (sessionManager (create env)); by eexists. }
  assert (handleCommand wss ws new_session env st
          = cmd_error (createTab_begin st)) as ->.
  { cbn [handleCommand]. unfold handle_new_session, createTab. rewrite Hthrow.
    by destruct (sessionManager (create env)). }
  rewrite He. split; [by exists e|].
  split; [done|]. split; [done|]. split; [done|]. split; [done|].
  split; [done|]. split; [done|].
  intros w. unfold cmd_error, emit. cbn [effects createTab_begin].
  by rewrite delivered_to_app, app_nil_r.
Qed.

End create_failure.

Lemma createTab_failure_registers_nothing_witness :
  Server.tabOrder
    (Server.handleCommand Demo.wss 1 Server.new_session
       {| Server.create := Demo.failing_env; Server.listAll := Ok [];
          Server.unlink := Ok (); Server.listAllAfter := Ok [] |} Demo.st_AB)
  = ["A"; "B"]
  ∧ Server.effects
      (Server.handleCommand Demo.wss 1 Server.new_session
         {| Server.create := Demo.failing_env; Server.listAll := Ok [];
            Server.unlink := Ok (); Server.listAllAfter := Ok [] |} Demo.st_AB)
    = [Server.console_error "cmd error"].
Proof.
  destruct (createTab_failure_registers_nothing Demo.wss 1
              {| Server.create := Demo.failing_env; Server.listAll := Ok [];
                 Server.unlink := Ok (); Server.listAllAfter := Ok [] |}
              None None Demo.st_AB "no model available")
    as (_ & _ & _ & Hord & _ & _ & Heff & _).
  - reflexivity.
  - split; [exact Hord | exact Heff].
Defined.

(** ** Dialog requests *)
Section dialog_frame.
Context {T Response : Type}.
Import Dialog.
Implicit Types (st : State T Response) (d : DialogEnv T Response).

Lemma same_at_refl id st : same_at id st st.
Proof. by unfold same_at. Qed.

Lemma same_at_trans id st1 st2 st3 :
  same_at id st1 st2 → same_at id st2 st3 → same_at id st1 st3.
Proof.
  intros (Hd & Hp & Hq & Hk & Ht & Hl) (Hd' & Hp' & Hq' & Hk' & Ht' & Hl').
  unfold same_at. rewrite Hd', Hp', Hq', Ht'.
  split; [done|]. split; [done|]. split; [done|]. split; [auto|].
  split; [done|]. intros s. by rewrite Hl'.
Qed.

Lemma outstanding_same_at id d st st' :
  outstanding id d st → same_at id st st' → outstanding id d st'.
Proof.
  intros (Hd & Hp & Hu & Hpr & Ht & Hl) (Hd' & Hp' & Hq' & Hk' & Ht' & Hl').
  unfold outstanding. rewrite Hd', Hp', Hq', Ht'.
  split; [done|]. split; [done|]. split; [auto|]. split; [done|].
  split; [done|]. intros s. by rewrite Hl'.
Qed.

Lemma resolved_once_same_at id v st st' :
  resolved_once id v st → same_at id st st' → resolved_once id v st'.
Proof.
  intros (Hpr & Hp & Hu & Ht & Hl) (Hd' & Hp' & Hq' & Hk' & Ht' & Hl').
  unfold resolved_once. rewrite Hp', Hq', Ht'.
  split; [done|]. split; [done|]. split.
  - intros k Hk. by apply (Hu k), Hk'.
  - split; [done|]. intros s. by rewrite Hl'.
Qed.

Lemma promise_resolve_other id owner v st :
  owner ≠ id → same_at id st (promise_resolve owner v st).
Proof.
  intros Hne. unfold same_at, promise_resolve. simpl.
  by rewrite lookup_alter_ne.
Qed.

Lemma delete_pending_other id k st :
  k ≠ id → same_at id st (with_pending (delete k) st).
Proof.
  intros Hne. unfold same_at. simpl. rewrite lookup_delete_ne by done.
  split; [done|]. split; [done|]. split; [done|]. split; [|done].
  intros k' Hk'. apply lookup_delete_Some in Hk'. tauto.
Qed.

Lemma clear_timer_other id k st :
  k ≠ id → same_at id st (with_timers (λ t, t ∖ {[k]}) st).
Proof.
  intros Hne. unfold same_at. simpl.
  split; [done|]. split; [done|]. split; [done|]. split; [done|].
  split; [set_solver | done].
Qed.

Lemma remove_listener_other id s k st :
  k ≠ id → same_at id st (with_listeners (removeEventListener s k) st).
Proof.
  intros Hne. unfold same_at, removeEventListener. simpl.
  split; [done|]. split; [done|]. split; [done|]. split; [done|].
  split; [done|]. intros s'. rewrite list_elem_of_filter.
  split; [tauto|]. intros Hin. split; [congruence | done].
Qed.

Lemma cleanup_other id owner d st :
  owner ≠ id → same_at id st (cleanup owner d st).
Proof.
  intros Hne. unfold cleanup.
  eapply same_at_trans; [|by apply delete_pending_other].
  eapply same_at_trans.
  - instantiate (1 := if d_timeoutId d
                      then with_timers (λ t, t ∖ {[owner]}) st else st).
    destruct (d_timeoutId d); [by apply clear_timer_other | apply same_at_refl].
  - destruct (d_signal d); [by apply remove_listener_other | apply same_at_refl].
Qed.

Lemma onAbort_other id owner st :
  owner ≠ id → same_at id st (onAbort owner st).
Proof.
  intros Hne. unfold onAbort. destruct (dialogs st !! owner) as [d|].
  - eapply same_at_trans; [by apply (cleanup_other id owner d)|].
    by apply promise_resolve_other.
  - apply same_at_refl.
Qed.

Lemma entry_resolve_other id owner cmd st :
  owner ≠ id → same_at id st (entry_resolve owner cmd st).
Proof.
  intros Hne. unfold entry_resolve. destruct (dialogs st !! owner) as [d|].
  - eapply same_at_trans; [by apply (cleanup_other id owner d)|].
    by apply promise_resolve_other.
  - apply same_at_refl.
Qed.

Lemma response_other id k cmd st :
  k ≠ id →
  pendingExtensionRequests st !! k ≠ Some (pending_entry id) →
  same_at id st (handle_extension_ui_response k cmd st).
Proof.
  intros Hk Howner. unfold handle_extension_ui_response.
  destruct (pendingExtensionRequests st !! k) as [[owner]|]; [|apply same_at_refl].
  eapply same_at_trans; [by apply delete_pending_other|].
  apply entry_resolve_other. congruence.
Qed.

Lemma timer_other id k st :
  k ≠ id → same_at id st (timer_fires k st).
Proof.
  intros Hk. unfold timer_fires, onTimeout. case_decide; [|apply same_at_refl].
  eapply same_at_trans; [by apply clear_timer_other|]. by apply onAbort_other.
Qed.

Lemma ask_other id wss opts dv m parse uuid st :
  uuid ≠ id →
  same_at id st (createDialogPromise wss opts dv m parse uuid st).2.
Proof.
  intros Hne. unfold createDialogPromise.
  destruct (signal_aborted opts st); [apply same_at_refl|].
  unfold same_at. simpl. rewrite !lookup_insert_ne by done.
  split; [done|]. split; [done|]. split; [done|]. split.
  - intros k Hk. apply lookup_insert_Some in Hk as [[_ Hk]|[_ Hk]]; [|done].
    congruence.
  - split.
    + destruct (timeout_set opts); set_solver.
    + intros s. destruct (opts ≫= signal); [|done].
      rewrite elem_of_app, list_elem_of_singleton. split; [|tauto].
      intros [|]; [done | congruence].
Qed.

(** The listeners of an aborting signal, when none of them belongs to [id]. *)
Lemma abort_loop_other id s (ls : list (nat * string)) st :
  Forall (λ l, l.1 = s) ls →
  (s, id) ∉ abortListeners st →
  same_at id st
    (foldl (λ st' l,
              if decide (l ∈ abortListeners st')
              then onAbort l.2 (with_listeners (removeEventListener l.1 l.2) st')
              else st') st ls).
Proof.
  intros Hls. revert st. induction Hls as [|[s' k] ls Hs _ IH]; intros st Hno.
  { apply same_at_refl. }
  simpl in Hs. subst s'. cbn [foldl]. case_decide as Hin; [|by apply IH].
  assert (k ≠ id) as Hne by (intros ->; contradiction).
  assert (same_at id st
            (onAbort k (with_listeners (removeEventListener s k) st))) as Hsame.
  { eapply same_at_trans; [by apply remove_listener_other|].
    by apply onAbort_other. }
  eapply same_at_trans; [exact Hsame|]. apply IH.
  destruct Hsame as (_ & _ & _ & _ & _ & Hl). by rewrite Hl.
Qed.

Lemma abort_other id s st :
  (s, id) ∉ abortListeners st → same_at id st (signal_aborts s st).
Proof.
  intros Hno. unfold signal_aborts. case_decide; [apply same_at_refl|].
  eapply same_at_trans; [|apply (abort_loop_other id s)].
  - by unfold same_at.
  - apply Forall_forall. by intros l [? _]%list_elem_of_filter.
  - done.
Qed.

End dialog_frame.

Section dialog_resolution.
Context {T Response : Type}.
Import Dialog.
Implicit Types (st : State T Response) (d : DialogEnv T Response).

Lemma outstanding_resolving id d st : outstanding id d st → resolving id d st.
Proof.
  intros (Hd & Hp & Hu & Hpr & Ht & Hl). unfold resolving.
  split; [done|]. split; [done|]. split; [done|]. split; [apply Ht|].
  intros s. apply Hl.
Qed.

Lemma resolving_delete_pending id d st :
  resolving id d st → resolving id d (with_pending (delete id) st).
Proof.
  intros (Hd & Hpr & Hu & Ht & Hl). unfold resolving. simpl.
  split; [done|]. split; [done|]. split; [|done].
  intros k Hk. apply lookup_delete_Some in Hk as [_ Hk]. auto.
Qed.

Lemma resolving_clear_timer id d st :
  resolving id d st → resolving id d (with_timers (λ t, t ∖ {[id]}) st).
Proof.
  intros (Hd & Hpr & Hu & Ht & Hl). unfold resolving. simpl.
  split; [done|]. split; [done|]. split; [done|]. split; [|done].
  intros Hin. apply Ht. set_solver.
Qed.

Lemma resolving_remove_listener id d s st :
  resolving id d st →
  resolving id d (with_listeners (removeEventListener s id) st).
Proof.
  intros (Hd & Hpr & Hu & Ht & Hl). unfold resolving. simpl.
  split; [done|]. split; [done|]. split; [done|]. split; [done|].
  intros s' [_ Hin]%list_elem_of_filter. auto.
Qed.

(** [cleanup] followed by [resolve]: the common end of the three callbacks. *)
Lemma cleanup_resolve id d v st :
  resolving id d st →
  resolved_once id v (promise_resolve id v (cleanup id d st)).
Proof.
  intros (Hd & Hpr & Hu & Ht & Hl). unfold resolved_once, promise_resolve, cleanup.
  split; [|split; [|split; [|split]]].
  - simpl. rewrite lookup_alter_eq.
    assert (promises (if d_timeoutId d
                      then with_timers (λ t, t ∖ {[id]}) st else st) = promises st)
      as Hsame by by destruct (d_timeoutId d).
    destruct (d_signal d); simpl; rewrite Hsame, Hpr; done.
  - simpl. apply lookup_delete_eq.
  - simpl. intros k Hk. apply lookup_delete_Some in Hk as [Hne Hk].
    apply Hne. symmetry. apply Hu.
    destruct (d_signal d), (d_timeoutId d); exact Hk.
  - simpl. destruct (d_timeoutId d) eqn:Htid.
    + destruct (d_signal d); simpl; set_solver.
    + destruct (d_signal d); simpl; intros Hin; by specialize (Ht Hin).
  - simpl. intros s Hin.
    destruct (d_signal d) as [s0|] eqn:Hsig.
    + assert ((s, id) ∈ removeEventListener s0 id (abortListeners st)) as Hin'.
      { by destruct (d_timeoutId d). }
      apply list_elem_of_filter in Hin' as [Hne Hin'].
      apply Hl in Hin'. congruence.
    + assert ((s, id) ∈ abortListeners st) as Hin'.
      { by destruct (d_timeoutId d). }
      apply Hl in Hin'. congruence.
Qed.

Lemma onAbort_resolves id d st :
  resolving id d st → resolved_once id (d_default d) (onAbort id st).
Proof.
  intros Hres. unfold onAbort. destruct Hres as (Hd & Hrest). rewrite Hd.
  by apply cleanup_resolve.
Qed.

Lemma response_resolves id d cmd st :
  outstanding id d st →
  resolved_once id (d_parse d cmd) (handle_extension_ui_response id cmd st).
Proof.
  intros Hout. unfold handle_extension_ui_response.
  pose proof Hout as (Hd & Hp & Hrest). rewrite Hp.
  unfold entry_resolve. simpl. rewrite Hd.
  by apply cleanup_resolve, resolving_delete_pending, outstanding_resolving.
Qed.

Lemma timer_resolves id d st :
  outstanding id d st → d_timeoutId d = true →
  resolved_once id (d_default d) (timer_fires id st).
Proof.
  intros Hout Htid. unfold timer_fires, onTimeout.
  rewrite decide_True by by apply Hout.
  by apply onAbort_resolves, resolving_clear_timer, outstanding_resolving.
Qed.

Lemma abort_loop_resolves id d s (ls : list (nat * string)) st :
  Forall (λ l, l.1 = s) ls → (s, id) ∈ ls →
  d_signal d = Some s →
  outstanding id d st →
  resolved_once id (d_default d)
    (foldl (λ st' l,
              if decide (l ∈ abortListeners st')
              then onAbort l.2 (with_listeners (removeEventListener l.1 l.2) st')
              else st') st ls).
Proof.
  intros Hls Hin Hsig. revert st Hin.
  induction Hls as [|[s' k] ls Hs Hls IH]; intros st Hin Hout.
  { by apply elem_of_nil in Hin. }
  simpl in Hs. subst s'. cbn [foldl].
  destruct (decide (k = id)) as [->|Hne].
  - assert ((s, id) ∈ abortListeners st) as Hreg by by apply Hout.
    rewrite decide_True by done. cbn [fst snd].
    assert (resolved_once id (d_default d)
              (onAbort id (with_listeners (removeEventListener s id) st)))
      as Hdone.
    { by apply onAbort_resolves, resolving_remove_listener, outstanding_resolving. }
    eapply resolved_once_same_at; [exact Hdone|].
    apply (abort_loop_other id s); [done|]. apply Hdone.
  - apply elem_of_cons in Hin as [Heq|Hin]; [congruence|].
    apply IH; [done|]. case_decide; [|done].
    eapply outstanding_same_at; [exact Hout|]. cbn [fst snd].
    eapply same_at_trans; [by apply remove_listener_other|].
    by apply onAbort_other.
Qed.

Lemma abort_resolves id d s st :
  outstanding id d st → d_signal d = Some s → s ∉ aborted st →
  resolved_once id (d_default d) (signal_aborts s st).
Proof.
  intros Hout Hsig Hna. unfold signal_aborts. rewrite decide_False by done.
  apply (abort_loop_resolves id d s); [| |done|done].
  - apply Forall_forall. by intros l [? _]%list_elem_of_filter.
  - apply list_elem_of_filter. split; [done|]. by apply Hout.
Qed.

End dialog_resolution.

Section dialog_runs.
Context {T Response : Type}.
Import Dialog.
Implicit Types (st : State T Response) (d : DialogEnv T Response).

Lemma onAbort_aborted k st : aborted (onAbort k st) = aborted st.
Proof.
  unfold onAbort. destruct (dialogs st !! k) as [d|]; [|done].
  unfold cleanup. by destruct (d_timeoutId d), (d_signal d).
Qed.

Lemma entry_resolve_aborted k cmd st :
  aborted (entry_resolve k cmd st) = aborted st.
Proof.
  unfold entry_resolve. destruct (dialogs st !! k) as [d|]; [|done].
  unfold cleanup. by destruct (d_timeoutId d), (d_signal d).
Qed.

Lemma abort_loop_aborted (ls : list (nat * string)) st :
  aborted
    (foldl (λ st' l,
              if decide (l ∈ abortListeners st')
              then onAbort l.2 (with_listeners (removeEventListener l.1 l.2) st')
              else st') st ls)
  = aborted st.
Proof.
  revert st. induction ls as [|l ls IH]; intros st; [done|].
  cbn [foldl]. rewrite IH. case_decide; [|done]. by rewrite onAbort_aborted.
Qed.

Lemma step_keeps_unaborted wss st e s :
  s ∉ aborted st → e ≠ ev_abort s → s ∉ aborted (step wss st e).
Proof.
  intros Hs He. destruct e as [uuid opts dv m parse|k cmd|k|s']; cbn [step].
  - unfold createDialogPromise. by destruct (signal_aborted opts st).
  - unfold handle_extension_ui_response.
    destruct (pendingExtensionRequests st !! k) as [[owner]|]; [|done].
    by rewrite entry_resolve_aborted.
  - unfold timer_fires, onTimeout. case_decide; [|done].
    by rewrite onAbort_aborted.
  - unfold signal_aborts. case_decide; [done|].
    rewrite abort_loop_aborted. simpl.
    assert (s ≠ s') by congruence. set_solver.
Qed.

Lemma ask_outstanding wss opts dv m parse id st :
  signal_aborted opts st = false → unused id st →
  (createDialogPromise wss opts dv m parse id st).1 = promise_of id
  ∧ outstanding id
      {| d_signal := opts ≫= signal; d_timeoutId := timeout_set opts;
         d_default := dv; d_parse := parse |}
      (createDialogPromise wss opts dv m parse id st).2
  ∧ aborted (createDialogPromise wss opts dv m parse id st).2 = aborted st.
Proof.
  intros Hna (Hu & Ht & Hl). unfold createDialogPromise. rewrite Hna.
  split; [done|]. split; [|done]. unfold outstanding. simpl.
  rewrite !lookup_insert_eq.
  split; [done|]. split; [done|]. split.
  { intros k Hk. apply lookup_insert_Some in Hk as [[? _]|[_ Hk]]; [done|].
    by apply Hu in Hk. }
  split; [done|]. split.
  - destruct (timeout_set opts); set_solver.
  - intros s. destruct (opts ≫= signal) as [s0|].
    + rewrite elem_of_app, list_elem_of_singleton. split.
      * intros [Hin|Heq]; [by apply Hl in Hin | congruence].
      * intros [= ->]. by right.
    + split; [intros Hin; by apply Hl in Hin | done].
Qed.

Lemma step_unrelated wss id opts d st e :
  d_signal d = opts ≫= signal →
  outstanding id d st → unrelated id opts e →
  same_at id st (step wss st e).
Proof.
  intros Hsig Hout Hun.
  destruct e as [uuid opts' dv m parse|k cmd|k|s]; cbn [step]; simpl in Hun.
  - by apply ask_other.
  - apply response_other; [done|]. intros Hk.
    destruct Hout as (_ & _ & Huniq & _). by apply Huniq in Hk.
  - by apply timer_other.
  - apply abort_other. intros Hin.
    destruct Hout as (_ & _ & _ & _ & _ & Hl). apply Hl in Hin. congruence.
Qed.

Lemma run_unrelated wss id opts d es st :
  d_signal d = opts ≫= signal →
  Forall (unrelated id opts) es →
  outstanding id d st →
  (∀ s, d_signal d = Some s → s ∉ aborted st) →
  outstanding id d (run wss st es)
  ∧ ∀ s, d_signal d = Some s → s ∉ aborted (run wss st es).
Proof.
  intros Hsig Hes. revert st. induction Hes as [|e es He _ IH]; intros st Hout Hna.
  { done. }
  unfold run. cbn [foldl]. apply IH.
  - eapply outstanding_same_at; [exact Hout|]. by eapply step_unrelated.
  - intros s Hs. apply step_keeps_unaborted; [by apply Hna|].
    intros ->. simpl in He. congruence.
Qed.

Lemma step_resolves wss id opts d st e :
  d_signal d = opts ≫= signal →
  d_timeoutId d = timeout_set opts →
  outstanding id d st →
  (∀ s, d_signal d = Some s → s ∉ aborted st) →
  resolves id opts e →
  resolved_once id (resolution (d_default d) (d_parse d) e) (step wss st e).
Proof.
  intros Hsig Htid Hout Hna Hres.
  destruct e as [uuid opts' dv m parse|k cmd|k|s]; cbn [step resolution];
    simpl in Hres.
  - done.
  - subst k. by apply response_resolves.
  - destruct Hres as [-> Hset]. apply timer_resolves; [done | congruence].
  - apply abort_resolves; [done | congruence |]. apply Hna. congruence.
Qed.

Lemma step_resolved wss id v st e :
  resolved_once id v st → not_redrawn id e →
  same_at id st (step wss st e).
Proof.
  intros (Hpr & Hp & Hu & Ht & Hl) Hnr.
  destruct e as [uuid opts' dv m parse|k cmd|k|s]; cbn [step]; simpl in Hnr.
  - by apply ask_other.
  - destruct (decide (k = id)) as [->|Hne].
    + unfold handle_extension_ui_response. rewrite Hp. apply same_at_refl.
    + apply response_other; [done | apply Hu].
  - destruct (decide (k = id)) as [->|Hne].
    + unfold timer_fires. rewrite decide_False by done. apply same_at_refl.
    + by apply timer_other.
  - apply abort_other, Hl.
Qed.

Lemma run_resolved wss id v es st :
  Forall (not_redrawn id) es →
  resolved_once id v st → resolved_once id v (run wss st es).
Proof.
  intros Hes. revert st. induction Hes as [|e es He _ IH]; intros st Hdone.
  { done. }
  unfold run. cbn [foldl]. apply IH.
  eapply resolved_once_same_at; [exact Hdone|]. by apply (step_resolved wss id v).
Qed.

(** C4.  A request asked with a signal that is not already aborted, under
    a UUID in use nowhere else, is outstanding (promise pending, entry in
    the pending map) as long as only unrelated events happen.  The first of
    its three resolution sources -- a reply bearing its identifier, its
    timer, its signal -- settles the promise by the one call of [resolve]
    ever made for it (to the parsed reply, or to the default), clears the
    timer, removes the abort listener and deletes the pending entry.  That
    holds after any further events whatever: the outcome and the number of
    [resolve] calls never change again, a duplicate reply and a late timer
    leave the whole state as it is. *)
Theorem dialog_resolves_exactly_once (wss : list Server.WebSocket)
    (st0 : State T Response) (uuid : string) (opts : option Opts)
    (defaultValue : T) (method : string) (parseResponse : Response → T)
    (es1 : list (Event T Response)) (e : Event T Response)
    (es2 : list (Event T Response)) :
  signal_aborted opts st0 = false →
  unused uuid st0 →
  Forall (unrelated uuid opts) es1 →
  resolves uuid opts e →
  Forall (not_redrawn uuid) es2 →
  let st1 := (createDialogPromise wss opts defaultValue method parseResponse uuid st0).2 in
  let waiting := run wss st1 es1 in
  let st2 := step wss waiting e in
  let st3 := run wss st2 es2 in
  (createDialogPromise wss opts defaultValue method parseResponse uuid st0).1
  = promise_of uuid
  ∧ outcome waiting uuid = None
  ∧ pendingExtensionRequests waiting !! uuid = Some (pending_entry uuid)
  ∧ resolved_once uuid (resolution defaultValue parseResponse e) st2
  ∧ resolved_once uuid (resolution defaultValue parseResponse e) st3
  ∧ outcome st3 uuid = Some (resolution defaultValue parseResponse e)
  ∧ (∀ cmd, step wss st3 (ev_response uuid cmd) = st3)
  ∧ step wss st3 (ev_timer uuid) = st3.
Proof.
  intros Hna Hunused Hes1 Hres Hes2 st1 waiting st2 st3.
  set (d := {| d_signal := opts ≫= signal; d_timeoutId := timeout_set opts;
               d_default := defaultValue; d_parse := parseResponse |}).
  destruct (ask_outstanding wss opts defaultValue method parseResponse uuid st0
              Hna Hunused) as (Href & Hout1 & Hab1).
  fold d in Hout1. fold st1 in Hout1, Hab1.
  assert (∀ s, d_signal d = Some s → s ∉ aborted st1) as Hna1.
  { intros s Hs. rewrite Hab1. unfold signal_aborted in Hna. simpl in Hs.
    rewrite Hs in Hna. by apply bool_decide_eq_false in Hna. }
  destruct (run_unrelated wss uuid opts d es1 st1 eq_refl Hes1 Hout1 Hna1)
    as [Hwait Hnaw].
  fold waiting in Hwait, Hnaw.
  assert (resolved_once uuid (resolution defaultValue parseResponse e) st2) as H2.
  { apply (step_resolves wss uuid opts d waiting e); done. }
  assert (resolved_once uuid (resolution defaultValue parseResponse e) st3) as H3.
  { by apply run_resolved. }
  split; [done|]. split.
  { unfold outcome. destruct Hwait as (_ & _ & _ & Hpr & _). by rewrite Hpr. }
  split; [apply Hwait|]. split; [done|]. split; [done|].
  destruct H3 as (Hpr & Hp & Hu & Ht & Hl). split.
  { unfold outcome. by rewrite Hpr. }
  split.
  - intros cmd. cbn [step]. unfold handle_extension_ui_response. by rewrite Hp.
  - cbn [step]. unfold timer_fires. by rewrite decide_False.
Qed.

(** C8.  A call made with a signal that is already aborted returns at once
    a promise resolved to the default: the state is untouched, so no pending
    entry is registered and nothing is broadcast. *)
Theorem createDialogPromise_aborted_signal (wss : list Server.WebSocket)
    (st : State T Response) (opts : option Opts) (s : nat) (defaultValue : T)
    (method : string) (parseResponse : Response → T) (uuid : string) :
  opts ≫= signal = Some s →
  s ∈ aborted st →
  createDialogPromise wss opts defaultValue method parseResponse uuid st
  = (promise_resolved defaultValue, st)
  ∧ pendingExtensionRequests
      (createDialogPromise wss opts defaultValue method parseResponse uuid st).2
    = pendingExtensionRequests st
  ∧ sent (createDialogPromise wss opts defaultValue method parseResponse uuid st).2
    = sent st.
Proof.
  intros Hsig Hab.
  assert (createDialogPromise wss opts defaultValue method parseResponse uuid st
          = (promise_resolved defaultValue, st)) as ->; [|done].
  unfold createDialogPromise, signal_aborted. rewrite Hsig.
  by rewrite bool_decide_eq_true_2.
Qed.

End dialog_runs.

Lemma initial_unused {T Response : Type} (id : string) :
  unused id (Dialog.initial (T := T) (Response := Response)).
Proof.
  unfold unused, Dialog.initial. cbn. split; [|split].
  - intros k. by rewrite lookup_empty.
  - apply not_elem_of_empty.
  - intros s. apply not_elem_of_nil.
Qed.

Lemma dialog_resolves_exactly_once_witness :
  Dialog.outcome
    (Dialog.run Demo.wss
       (Dialog.step Demo.wss
          (Dialog.run Demo.wss
             (Dialog.createDialogPromise Demo.wss
                (Some {| Dialog.signal := Some 7; Dialog.timeout := Some 50 |})
                false "confirm" (λ confirmed : bool, confirmed) "req-1"
                Dialog.initial).2
             [Dialog.ev_ask "req-2" None true "confirm" negb;
              Dialog.ev_timer "req-2"])
          (Dialog.ev_timer "req-1"))
       [Dialog.ev_response "req-1" true; Dialog.ev_abort 7;
        Dialog.ev_response "req-2" true])
    "req-1"
  = Some false.
Proof.
  refine (proj1 (proj2 (proj2 (proj2 (proj2 (proj2
    (dialog_resolves_exactly_once (T := bool) (Response := bool) Demo.wss
       Dialog.initial "req-1"
       (Some {| Dialog.signal := Some 7; Dialog.timeout := Some 50 |})
       false "confirm" (λ confirmed : bool, confirmed)
       [Dialog.ev_ask "req-2" None true "confirm" negb; Dialog.ev_timer "req-2"]
       (Dialog.ev_timer "req-1")
       [Dialog.ev_response "req-1" true; Dialog.ev_abort 7;
        Dialog.ev_response "req-2" true]
       _ _ _ _ _))))))).
  - reflexivity.
  - apply initial_unused.
  - repeat constructor; simpl; discriminate.
  - split; reflexivity.
  - repeat constructor; simpl; discriminate.
Defined.

Lemma createDialogPromise_aborted_signal_witness :
  Dialog.createDialogPromise Demo.wss
    (Some {| Dialog.signal := Some 7; Dialog.timeout := Some 50 |})
    false "confirm" (λ confirmed : bool, confirmed) "req-1"
    (Dialog.signal_aborts 7 Dialog.initial)
  = (Dialog.promise_resolved false, Dialog.signal_aborts 7 Dialog.initial).
Proof.
  refine (proj1
    (createDialogPromise_aborted_signal (T := bool) (Response := bool) Demo.wss
       (Dialog.signal_aborts 7 Dialog.initial)
       (Some {| Dialog.signal := Some 7; Dialog.timeout := Some 50 |}) 7
       false "confirm" (λ confirmed : bool, confirmed) "req-1" _ _)).
  - reflexivity.
  - compute_done.
Defined.

(** ** The client and stale syncs *)
Section client_sync.
Import Client.

(** On its own, [handleStateSync] does drop a sync for another tab. *)
Lemma handleStateSync_discards_other_tab (st : State) (t : string)
    (messages : option (list AgentMessage)) (data_streaming : option bool) :
  truthy t = true → activeTabId st ≠ Some t →
  handleStateSync (Some t) messages data_streaming st = st.
Proof.
  intros Ht Hne. unfold handleStateSync. cbn [truthy_opt]. rewrite Ht.
  rewrite bool_decide_eq_false_2 by congruence. done.
Qed.

(** But [handleServerEvent] adopts the tab of the sync before it calls it:
    a sync that carries a tab identifier is always applied. *)
Lemma state_sync_always_applied (st : State) (t : string)
    (messages : option (list AgentMessage)) (data_streaming : option bool)
    (model : option string) (sid : string) :
  truthy t = true →
  handleServerEvent (state_sync (Some t) messages data_streaming model sid) st
  = Some {| streaming := default false data_streaming;
            items := foldl sync_message [] (default [] messages);
            tabs := tabs st;
            activeTabId := Some t;
            scrollToBottomOnSync := false;
            currentAssistantItem := None |}.
Proof.
  intros Ht. cbn [handleServerEvent truthy_opt]. rewrite Ht.
  unfold handleStateSync. cbn [truthy_opt activeTabId tabs]. rewrite Ht.
  by rewrite bool_decide_eq_true_2.
Qed.

(** C5 (not met by the code).  The client views A, the user
    clicks B and at once A again, so the client intends to view A when the
    sync for B, sent for the first click, arrives.  The sync is not
    discarded: the active tab becomes B and the conversation is rebuilt from
    B's messages.  The guard of [handleStateSync] cannot fire, because
    [handleServerEvent] has just overwritten [activeTabId] with the tab of
    the sync. *)
Theorem stale_sync_is_applied :
  activeTabId ClientDemo.back_on_A = Some "A"
  ∧ items ClientDemo.back_on_A = [UserItem "question asked in A"]
  ∧ (activeTabId <$> handleServerEvent ClientDemo.sync_of_B ClientDemo.back_on_A)
    = Some (Some "B")
  ∧ (items <$> handleServerEvent ClientDemo.sync_of_B ClientDemo.back_on_A)
    = Some [UserItem "question asked in B"]
  ∧ handleStateSync (Some "B")
      (Some [msg_user (content_string "question asked in B")]) (Some false)
      ClientDemo.back_on_A
    = ClientDemo.back_on_A.
Proof. repeat split; reflexivity. Qed.

End client_sync.

(** ** Opening a saved session *)
Section open_session.
Import Server.

(** The case run in one go is the three resumptions back to back. *)
Lemma open_session_uninterrupted_eq wss ws sessionPath listAll env st :
  open_session_uninterrupted wss ws sessionPath listAll env st
  = handle_open_session wss ws sessionPath listAll env st.
Proof.
  unfold open_session_uninterrupted, handle_open_session, open_session_start.
  destruct sessionPath as [path|]; [|done].
  destruct (truthy path); cbn [negb]; [|done].
  cbn [resume]. destruct listAll as [allSessions|e]; [|done].
  destruct (open_session_listed ws path allSessions st) as [st'|st']; [done|].
  unfold createTab. destruct (sessionManager env) as [sessionName|e]; [|done].
  cbn [resume]. destruct (createAgentSession env) as [s|e]; [|done].
  cbn [resume]. destruct (bindExtensions env) as [u|e]; [|done].
  cbn [createTab_begin tabCounter].
  by destruct (createTab_register _ _ _ _).
Qed.

(** An [open_session] for a session that a tab already holds when the
    listing answers: no tab is created, the registry is as it was, the
    requester is bound to that tab and synced. *)
Lemma open_session_already_open wss ws path allSessions env st info alreadyOpen :
  truthy path = true →
  find_info path allSessions = Some info →
  find_open_tab (info_id info) st = Some alreadyOpen →
  handle_open_session wss ws (Some path) (Ok allSessions) env st
  = sendStateSync ws alreadyOpen
      (set_clientActiveTab ws (tabId alreadyOpen) st)
  ∧ tabOrder (handle_open_session wss ws (Some path) (Ok allSessions) env st)
    = tabOrder st
  ∧ tabs (handle_open_session wss ws (Some path) (Ok allSessions) env st)
    = tabs st.
Proof.
  intros Ht Hinfo Hopen.
  assert (handle_open_session wss ws (Some path) (Ok allSessions) env st
          = sendStateSync ws alreadyOpen
              (set_clientActiveTab ws (tabId alreadyOpen) st)) as ->; [|done].
  unfold handle_open_session, open_session_listed.
  by rewrite Ht, Hinfo, Hopen.
Qed.

(** C10 (not met by the code).  Two [open_session] commands for
    the saved session S arrive back to back while no tab holds S.  When the
    second handler is resumed from [listAll] before the first has registered
    its tab, it finds no tab for S either: both create one, and two tabs
    hold the same session.  Handled one after the other, the second command
    finds the tab of the first and only rebinds its socket. *)
Theorem open_session_race_duplicates_tab :
  one_tab_per_session Demo.st_A
  ∧ tabOrder (run_schedule Demo.wss Demo.overlapping Demo.two_openers Demo.st_A).1
    = ["A"; "U1"; "U2"]
  ∧ (λ t, sessionId (session t))
      <$> JsMap.values
            (tabs (run_schedule Demo.wss Demo.overlapping Demo.two_openers Demo.st_A).1)
    = ["sess-A"; "sess-S"; "sess-S"]
  ∧ ¬ one_tab_per_session
        (run_schedule Demo.wss Demo.overlapping Demo.two_openers Demo.st_A).1
  ∧ tabOrder
      (run_schedule Demo.wss Demo.one_after_the_other Demo.two_openers Demo.st_A).1
    = ["A"; "U1"]
  ∧ clientActiveTab
      (run_schedule Demo.wss Demo.one_after_the_other Demo.two_openers Demo.st_A).1
    !! 2 = Some "U1".
Proof.
  split; [compute_done|]. split; [reflexivity|].
  assert ((λ t, sessionId (session t))
            <$> JsMap.values
                  (tabs (run_schedule Demo.wss Demo.overlapping Demo.two_openers
                           Demo.st_A).1)
          = ["sess-A"; "sess-S"; "sess-S"]) as Hids by reflexivity.
  split; [exact Hids|]. split.
  - unfold one_tab_per_session. rewrite Hids.
    intros Hnd. apply NoDup_cons in Hnd as [_ Hnd].
    apply NoDup_cons in Hnd as [Hin _]. apply Hin. left.
  - split; [reflexivity | compute_done].
Qed.

End open_session.

(** ** The registry invariant holds in every state the server reaches *)
Section registry_invariant.
Import Server.

Lemma registry_wf_ext st st' :
  tabOrder st' = tabOrder st → tabs st' = tabs st →
  registry_wf st → registry_wf st'.
Proof.
  intros Ho Ht [H1 H2 H3 H4 H5]. split; rewrite ?Ho, ?Ht; done.
Qed.

Lemma registry_wf_empty cat n es :
  registry_wf {| tabOrder := []; tabs := []; clientActiveTab := cat;
                 tabCounter := n; effects := es |}.
Proof.
  split; simpl; try apply NoDup_nil_2; try done.
  - intros id e H. by apply elem_of_nil in H.
  - intros id H. by apply elem_of_nil in H.
Qed.

Lemma registry_wf_createTab_register tab display s st :
  registry_wf st → tab ∉ tabOrder st → tab ≠ "" →
  registry_wf (createTab_register tab display s st).2.
Proof.
  intros Hwf Hfresh Hne.
  assert (tab ∉ JsMap.keys (tabs st)) as Hfresh'.
  { intros Hin. by apply Hfresh, Hwf. }
  split; simpl.
  - apply NoDup_app. split; [apply Hwf|]. split; [|apply NoDup_singleton].
    intros x Hx ->%list_elem_of_singleton. contradiction.
  - rewrite keys_set_fresh by done.
    apply NoDup_app. split; [apply Hwf|]. split; [|apply NoDup_singleton].
    intros x Hx ->%list_elem_of_singleton. contradiction.
  - intros id. rewrite keys_set_fresh by done. rewrite !elem_of_app.
    by rewrite (wf_same_ids st Hwf).
  - intros id e Hin.
    apply (elem_set_fresh _ _ _ _ Hfresh') in Hin as [Hin|Heq].
    + by apply (wf_own_id st Hwf).
    + by injection Heq as -> ->.
  - intros id [Hin|Hin]%elem_of_app.
    + by apply (wf_ids_nonempty st Hwf).
    + apply list_elem_of_singleton in Hin. by subst.
Qed.

Lemma registry_wf_createTab env name sessionPath st :
  registry_wf st → randomUUID env ∉ tabOrder st → randomUUID env ≠ "" →
  registry_wf (createTab env name sessionPath st).2.
Proof.
  intros Hwf Hfresh Hne. unfold createTab.
  assert (registry_wf (createTab_begin st)) as Hwf'
    by by apply (registry_wf_ext st).
  destruct (sessionManager env); [|done].
  destruct (createAgentSession env); [|done].
  destruct (bindExtensions env); [|done].
  by apply (registry_wf_createTab_register _ _ _ (createTab_begin st)).
Qed.

Lemma registry_wf_closeTab tab st :
  registry_wf st → registry_wf (closeTab tab st).2.
Proof.
  intros Hwf.
  destruct (JsMap.get (tabs st) tab) as [entry|] eqn:Hget;
    [|unfold closeTab; by rewrite Hget].
  destruct (Nat.leb_spec (JsMap.size (tabs st)) 1) as [Hle|Hgt].
  { unfold closeTab. rewrite Hget.
    by rewrite (proj2 (Nat.leb_le _ _) Hle). }
  assert (JsMap.has (tabs st) tab = true) as Hhas.
  { unfold JsMap.has. by rewrite Hget. }
  destruct (has_true_split st tab Hwf Hhas) as (e' & pre & post & _ & Hsplit).
  rewrite (closeTab_unfold st tab pre post entry) by (done || lia).
  destruct (remainingOrder_split st tab pre post Hwf Hsplit) as (Hpre & Hpost & _).
  assert (NoDup (pre ++ tab :: post)) as Hnd by (rewrite <- Hsplit; apply Hwf).
  assert (∀ id, id ∈ pre ++ post ↔ id ∈ tabOrder st ∧ id ≠ tab) as Hmem.
  { intros id. rewrite Hsplit, !elem_of_app, elem_of_cons. split.
    - intros [Hin|Hin]; (split; [tauto|]); intros ->; contradiction.
    - intros [[Hin|[->|Hin]] Hne]; tauto. }
  split; simpl.
  - apply NoDup_app in Hnd as (Hp & Hdisj & Hq%NoDup_cons).
    apply NoDup_app. split; [done|]. split; [|apply Hq].
    intros x Hx Hx'. apply (Hdisj x Hx). by right.
  - rewrite keys_delete by apply Hwf. apply NoDup_filter, Hwf.
  - intros id. rewrite keys_delete by apply Hwf.
    rewrite Hmem, list_elem_of_filter, (wf_same_ids st Hwf). tauto.
  - intros id e Hin. apply (wf_own_id st Hwf). by eapply elem_delete.
  - intros id Hin. apply (wf_ids_nonempty st Hwf). by apply Hmem.
Qed.

Lemma redirect_viewers_registry wss target r st :
  tabOrder (redirect_viewers wss target r st) = tabOrder st
  ∧ tabs (redirect_viewers wss target r st) = tabs st.
Proof.
  revert st. induction wss as [|c wss IH]; intros st; [done|].
  cbn [redirect_viewers]. case_decide; [|apply IH].
  destruct (fallback_entry r st); [|apply IH].
  destruct (IH (sendStateSync (ws_id c) t
                  (set_clientActiveTab (ws_id c) (tabId t) st))) as [-> ->].
  done.
Qed.

Lemma registry_wf_close_flow wss target st :
  registry_wf st → registry_wf (close_flow wss target st).
Proof.
  intros Hwf. unfold close_flow.
  pose proof (registry_wf_closeTab target st Hwf) as Hwf'.
  destruct (closeTab target st) as [r st1]. simpl in Hwf'.
  destruct (redirect_viewers_registry wss target r (broadcastTabsList wss st1))
    as [Ho Ht].
  by apply (registry_wf_ext st1).
Qed.

(** Every command keeps the invariant, provided the UUID drawn for a new
    tab is non-empty and not already a tab identifier. *)
Lemma registry_wf_handleCommand wss ws cmd env st :
  registry_wf st →
  randomUUID (create env) ∉ tabOrder st → randomUUID (create env) ≠ "" →
  registry_wf (handleCommand wss ws cmd env st).
Proof.
  intros Hwf Hfresh Hne.
  pose proof (registry_wf_createTab (create env)) as Hcreate.
  destruct cmd as [|target|target|path|path|]; cbn [handleCommand].
  - unfold handle_new_session.
    specialize (Hcreate None None st Hwf Hfresh Hne).
    destruct (createTab (create env) None None st) as [[newEntry|e] st1];
      by apply (registry_wf_ext st1).
  - unfold handle_switch_session. destruct target as [t|]; [|done].
    destruct (JsMap.get (tabs st) t); [|done].
    by apply (registry_wf_ext st).
  - unfold handle_close_tab. destruct target as [t|]; [|done].
    destruct (negb (JsMap.has (tabs st) t)); [done|].
    destruct (JsMap.size (tabs st) <=? 1)%nat; [done|].
    by apply registry_wf_close_flow.
  - unfold handle_open_session. destruct path as [p|]; [|done].
    destruct (negb (truthy p)); [done|].
    destruct (listAll env) as [allSessions|e]; [|by apply (registry_wf_ext st)].
    unfold open_session_listed.
    destruct (find_info p allSessions) as [info|]; [|done].
    destruct (find_open_tab (info_id info) st); [by apply (registry_wf_ext st)|].
    specialize (Hcreate None (Some p) st Hwf Hfresh Hne).
    destruct (createTab (create env) None (Some p) st) as [[newEntry|e] st1];
      by apply (registry_wf_ext st1).
  - unfold handle_delete_session. destruct path as [p|]; [|done].
    destruct (negb (truthy p)); [done|].
    match goal with
    | |- registry_wf (emit _ ?st1) =>
        assert (registry_wf st1) as Hwf1; [|by apply (registry_wf_ext st1)]
    end.
    destruct (find_info p (list_or_empty (listAll env))) as [info|]; [|done].
    destruct (find_open_tab (info_id info) st) as [openTab|]; [|done].
    destruct (1 <? JsMap.size (tabs st))%nat; [|done].
    by apply registry_wf_close_flow.
  - done.
Qed.

End registry_invariant.

(** ** Further properties of the tab registry *)
Section more_js_lemmas.
Context {V : Type}.
Implicit Types (m : JsMap.t V) (k : string) (v : V).

Lemma get_set_eq m k v : JsMap.get (JsMap.set m k v) k = Some v.
Proof.
  induction m as [|[k0 v0] m IH]; simpl.
  - by rewrite decide_True.
  - destruct (decide (k0 = k)) as [->|Hne]; simpl.
    + by rewrite decide_True.
    + by rewrite decide_False.
Qed.

Lemma get_set_ne m k k' v :
  k ≠ k' → JsMap.get (JsMap.set m k v) k' = JsMap.get m k'.
Proof.
  intros Hne. induction m as [|[k0 v0] m IH]; simpl.
  - by rewrite decide_False.
  - destruct (decide (k0 = k)) as [->|Hne0]; simpl.
    + by rewrite !decide_False.
    + case_decide; [done | apply IH].
Qed.

Lemma set_fresh_snoc m k v :
  k ∉ JsMap.keys m → JsMap.set m k v = m ++ [(k, v)].
Proof.
  unfold JsMap.keys. induction m as [|[k0 v0] m IH]; simpl; [done|].
  intros [Hne Hn]%not_elem_of_cons. rewrite decide_False by done.
  f_equal. by apply IH.
Qed.

Lemma delete_set_fresh m k v :
  k ∉ JsMap.keys m → JsMap.delete (JsMap.set m k v) k = m.
Proof.
  unfold JsMap.keys. induction m as [|[k0 v0] m IH]; simpl.
  - intros _. by rewrite decide_True.
  - intros [Hne Hn]%not_elem_of_cons. rewrite decide_False by done. simpl.
    rewrite decide_False by done. f_equal. by apply IH.
Qed.

Lemma size_delete_present m k :
  k ∈ JsMap.keys m → S (JsMap.size (JsMap.delete m k)) = JsMap.size m.
Proof.
  unfold JsMap.keys, JsMap.size. induction m as [|[k0 v0] m IH]; simpl.
  - intros H. by apply elem_of_nil in H.
  - intros Hin. case_decide; [done|]. simpl. f_equal. apply IH.
    apply elem_of_cons in Hin as [->|]; [contradiction | done].
Qed.
End more_js_lemmas.

Section more_registry.
Import Server.

Lemma tab_ids_of_lookup (tbs : JsMap.t TabEntry) (l : list string) :
  (∀ id, id ∈ l → ∃ t, JsMap.get tbs id = Some t ∧ tabId t = id) →
  ti_tabId
    <$> ((λ id, match JsMap.get tbs id with
                | Some t => {| ti_tabId := tabId t; ti_name := name t |}
                | None => {| ti_tabId := id; ti_name := "" |}
                end) <$> l)
  = l.
Proof.
  induction l as [|id l IH]; intros Hall; [done|].
  rewrite !fmap_cons. f_equal.
  - destruct (Hall id) as (t & -> & Hid); [left | done].
  - apply IH. intros id' Hin. apply Hall. by right.
Qed.

Lemma registry_wf_entry st id :
  registry_wf st → id ∈ tabOrder st →
  ∃ t, JsMap.get (tabs st) id = Some t ∧ tabId t = id.
Proof.
  intros Hwf Hin. pose proof (registry_wf_has st id Hwf Hin) as Hhas.
  unfold JsMap.has in Hhas.
  destruct (JsMap.get (tabs st) id) as [t|] eqn:Hget; [|done].
  exists t. split; [done|]. apply (wf_own_id st Hwf). by apply get_Some_elem.
Qed.

Lemma getTabsList_ids st :
  registry_wf st → ti_tabId <$> getTabsList st = tabOrder st.
Proof.
  intros Hwf. unfold getTabsList. rewrite filter_all.
  - apply tab_ids_of_lookup. intros id. by apply registry_wf_entry.
  - apply Forall_forall. intros id. by apply registry_wf_has.
Qed.

(** X1.  On a well-formed registry the tab list sent to clients has one
    entry per tab, in creation order: its identifiers are exactly
    [tabOrder], and each entry carries the name stored for its tab. *)
Theorem getTabsList_lists_every_tab (st : ServerState) :
  registry_wf st →
  ti_tabId <$> getTabsList st = tabOrder st
  ∧ length (getTabsList st) = JsMap.size (tabs st)
  ∧ ∀ id e, JsMap.get (tabs st) id = Some e →
            {| ti_tabId := id; ti_name := name e |} ∈ getTabsList st.
Proof.
  intros Hwf.
  assert (filter (λ id, JsMap.has (tabs st) id = true) (tabOrder st)
          = tabOrder st) as Hall.
  { apply filter_all, Forall_forall. intros id. by apply registry_wf_has. }
  pose proof (getTabsList_ids st Hwf) as Hids.
  split; [done|]. split.
  - rewrite <- (length_fmap ti_tabId), Hids. by apply registry_wf_length.
  - intros id e Hget. unfold getTabsList. rewrite Hall.
    apply list_elem_of_fmap. exists id. rewrite Hget. split.
    + f_equal. symmetry. apply (wf_own_id st Hwf). by apply get_Some_elem.
    + apply Hwf. apply has_true_keys. unfold JsMap.has. by rewrite Hget.
Qed.

(** X2.  [broadcastAll] over distinct sockets: an open socket is sent the
    message exactly once, a socket that is not open (or not connected) is
    sent nothing. *)
Theorem broadcastAll_once_per_open_socket (wss : list WebSocket)
    (msg : ServerMsg) :
  distinct_clients wss →
  (∀ c, c ∈ wss → readyState c = OPEN →
        delivered_to (ws_id c) (broadcastAll wss msg) = [msg])
  ∧ (∀ w, (∀ c, c ∈ wss → ws_id c = w → readyState c ≠ OPEN) →
          delivered_to w (broadcastAll wss msg) = []).
Proof.
  intros Hnd. split.
  - intros c Hin Hopen. rewrite broadcastAll_open.
    apply (delivered_to_sends_one (ws_id c) (λ _, msg) (open_clients wss) c).
    + by apply NoDup_fmap_filter.
    + by apply list_elem_of_filter.
    + done.
  - intros w Hw. rewrite broadcastAll_open.
    apply (delivered_to_sends_none w (λ _, msg)).
    intros c [Hopen Hin]%list_elem_of_filter Heq. by apply (Hw c).
Qed.

(** X3.  A [createTab] whose collaborators all succeed, with a UUID that is
    not yet a key: the new entry goes last in the order and under its
    identifier in the mapping, every other lookup is unchanged, the registry
    has one tab more, and neither a binding nor the trace is touched. *)
Theorem createTab_registers_last (env : CreateEnv)
    (name sessionPath sessionName : option string) (s : AgentSession)
    (st : ServerState) :
  sessionManager env = Ok sessionName →
  createAgentSession env = Ok s →
  bindExtensions env = Ok () →
  randomUUID env ∉ JsMap.keys (tabs st) →
  ∃ entry,
    (createTab env name sessionPath st).1 = Ok entry
    ∧ tabId entry = randomUUID env ∧ session entry = s
    ∧ tabOrder (createTab env name sessionPath st).2
      = tabOrder st ++ [randomUUID env]
    ∧ JsMap.get (tabs (createTab env name sessionPath st).2) (randomUUID env)
      = Some entry
    ∧ (∀ id, id ≠ randomUUID env →
         JsMap.get (tabs (createTab env name sessionPath st).2) id
         = JsMap.get (tabs st) id)
    ∧ JsMap.size (tabs (createTab env name sessionPath st).2)
      = S (JsMap.size (tabs st))
    ∧ clientActiveTab (createTab env name sessionPath st).2 = clientActiveTab st
    ∧ effects (createTab env name sessionPath st).2 = effects st.
Proof.
  intros Hsm Hs Hb Hfresh. unfold createTab. rewrite Hsm, Hs, Hb.
  eexists. cbn [fst snd createTab_register createTab_begin tabOrder tabs
                clientActiveTab effects tabCounter tabId session].
  split; [reflexivity|]. split; [done|]. split; [done|]. split; [done|].
  split; [apply get_set_eq|]. split.
  - intros id Hne. by apply get_set_ne.
  - split; [|done]. rewrite set_fresh_snoc by done.
    unfold JsMap.size. rewrite length_app. simpl. lia.
Qed.

(** X4.  Opening a tab and closing it again gives the registry back: on a
    well-formed registry with at least one tab, [closeTab] of the tab that
    [createTab] has just added restores the order and the mapping, disposes
    the session that was created, and names the previously last tab as the
    replacement. *)
Theorem createTab_closeTab_roundtrip (env : CreateEnv)
    (name sessionPath sessionName : option string) (s : AgentSession)
    (st : ServerState) (lastTab : string) :
  registry_wf st →
  last (tabOrder st) = Some lastTab →
  sessionManager env = Ok sessionName →
  createAgentSession env = Ok s →
  bindExtensions env = Ok () →
  randomUUID env ∉ tabOrder st →
  randomUUID env ≠ "" →
  (closeTab (randomUUID env) (createTab env name sessionPath st).2).1
  = Some lastTab
  ∧ tabOrder (closeTab (randomUUID env) (createTab env name sessionPath st).2).2
    = tabOrder st
  ∧ tabs (closeTab (randomUUID env) (createTab env name sessionPath st).2).2
    = tabs st
  ∧ ∃ entry,
      (createTab env name sessionPath st).1 = Ok entry
      ∧ effects (closeTab (randomUUID env) (createTab env name sessionPath st).2).2
        = effects st ++ [session_dispose entry].
Proof.
  intros Hwf Hlast Hsm Hs Hb Hfresh Hne.
  assert (randomUUID env ∉ JsMap.keys (tabs st)) as Hfresh'.
  { intros Hin. by apply Hfresh, Hwf. }
  pose proof (registry_wf_createTab env name sessionPath st Hwf Hfresh Hne) as Hwf'.
  revert Hwf'. unfold createTab. rewrite Hsm, Hs, Hb.
  cbn [fst snd createTab_register]. intros Hwf'.
  set (entry := {| tabId := randomUUID env |}).
  set (st' := {| tabOrder := tabOrder (createTab_begin st) ++ [randomUUID env] |}) in *.
  assert (tabOrder st' = tabOrder st ++ randomUUID env :: []) as Hsplit by done.
  assert (JsMap.get (tabs st') (randomUUID env) = Some entry) as Hget.
  { apply get_set_eq. }
  assert (2 ≤ JsMap.size (tabs st'))%nat as Hsize.
  { rewrite <- (registry_wf_length st' Hwf'), Hsplit, length_app. simpl.
    destruct (tabOrder st); [done | simpl; lia]. }
  rewrite (closeTab_unfold st' _ (tabOrder st) [] entry Hwf' Hsplit Hget Hsize).
  cbn [fst snd tabOrder tabs effects]. rewrite Hlast, app_nil_r.
  split; [done|]. split; [done|]. split.
  - subst st'. cbn [tabs createTab_begin]. by apply delete_set_fresh.
  - by exists entry.
Qed.

(** X5.  Closing one of several tabs removes that tab and nothing else: the
    mapping loses exactly its key, the order loses exactly its identifier,
    every other tab is looked up as before, the one session disposed is the
    closed tab's, and no binding is changed by [closeTab] itself. *)
Theorem closeTab_removes_only_that_tab (st : ServerState) (tab : string)
    (entry : TabEntry) :
  registry_wf st →
  JsMap.get (tabs st) tab = Some entry →
  (2 ≤ JsMap.size (tabs st))%nat →
  JsMap.get (tabs (closeTab tab st).2) tab = None
  ∧ (tab ∉ tabOrder (closeTab tab st).2)
  ∧ S (JsMap.size (tabs (closeTab tab st).2)) = JsMap.size (tabs st)
  ∧ (∀ id, id ≠ tab →
       JsMap.get (tabs (closeTab tab st).2) id = JsMap.get (tabs st) id
       ∧ (id ∈ tabOrder (closeTab tab st).2 ↔ id ∈ tabOrder st))
  ∧ effects (closeTab tab st).2 = effects st ++ [session_dispose entry]
  ∧ clientActiveTab (closeTab tab st).2 = clientActiveTab st.
Proof.
  intros Hwf Hget Hsize.
  assert (JsMap.has (tabs st) tab = true) as Hhas.
  { unfold JsMap.has. by rewrite Hget. }
  destruct (has_true_split st tab Hwf Hhas) as (e' & pre & post & _ & Hsplit).
  destruct (remainingOrder_split st tab pre post Hwf Hsplit) as (Hpre & Hpost & _).
  rewrite (closeTab_unfold st tab pre post entry) by done.
  cbn [snd tabs tabOrder effects clientActiveTab].
  split.
  { apply get_None_keys. rewrite keys_delete by apply Hwf.
    intros [Hne _]%list_elem_of_filter. by apply Hne. }
  split.
  { intros [|]%elem_of_app; contradiction. }
  split.
  { apply size_delete_present. by apply has_true_keys. }
  split; [|done].
  intros id Hne. split; [by apply get_delete_ne|].
  rewrite Hsplit, !elem_of_app, elem_of_cons. naive_solver.
Qed.

End more_registry.

(** ** The [close_tab] command *)
Section close_tab_command.
Import Server.

Lemma filter_out_middle (target : string) (pre post : list string) :
  target ∉ pre → target ∉ post →
  filter (λ id, id ≠ target) (pre ++ target :: post) = pre ++ post.
Proof.
  intros Hpre Hpost. rewrite filter_app, filter_cons.
  rewrite decide_False by (intros Hne; by apply Hne).
  rewrite !filter_all; [done|..]; apply Forall_forall; intros id Hin ->; contradiction.
Qed.

(** C6.  The [close_tab] command on an existing tab that is not the only
    one.  The session is disposed and the tab leaves the mapping and the
    order, where every other tab stays as it was.  The new tab list goes to
    every open socket: it lists the remaining tabs, in order, each with the
    name of its entry, and no longer the closed tab.  Every open socket that
    was viewing the closed tab is bound to the replacement computed by
    [closeTab] and is sent, after the list, one [state_sync] that carries the
    identifier of the replacement and the messages, streaming flag, model and
    session identifier of the session the replacement holds.  A socket that
    was not viewing the closed tab keeps its binding and is sent nothing but
    the list. *)
Theorem close_tab_rebinds_viewers (wss : list WebSocket) (st : ServerState)
    (target : string) :
  registry_wf st →
  distinct_clients wss →
  JsMap.has (tabs st) target = true →
  (2 ≤ JsMap.size (tabs st))%nat →
  ∃ entry replacement rentry,
    JsMap.get (tabs st) target = Some entry
    ∧ (closeTab target st).1 = Some replacement
    ∧ replacement ≠ target
    ∧ JsMap.get (tabs st) replacement = Some rentry
    ∧ JsMap.get (tabs (handle_close_tab wss (Some target) st)) replacement
      = Some rentry
    ∧ tabId rentry = replacement
    ∧ JsMap.get (tabs (handle_close_tab wss (Some target) st)) target = None
    ∧ (target ∉ tabOrder (handle_close_tab wss (Some target) st))
    ∧ tabOrder (handle_close_tab wss (Some target) st)
      = filter (λ id, id ≠ target) (tabOrder st)
    ∧ (∀ id, id ≠ target →
         JsMap.get (tabs (handle_close_tab wss (Some target) st)) id
         = JsMap.get (tabs st) id)
    ∧ ti_tabId <$> getTabsList (handle_close_tab wss (Some target) st)
      = filter (λ id, id ≠ target) (tabOrder st)
    ∧ (∀ info, info ∈ getTabsList (handle_close_tab wss (Some target) st) →
         ∃ e, JsMap.get (tabs st) (ti_tabId info) = Some e
              ∧ ti_name info = name e)
    ∧ sync_msg rentry
      = state_sync (Some replacement) (Some (messages (session rentry)))
          (Some (isStreaming (session rentry))) (model (session rentry))
          (sessionId (session rentry))
    ∧ effects (handle_close_tab wss (Some target) st)
      = effects st
        ++ [session_dispose entry]
        ++ ((λ c, ws_send (ws_id c)
                    (tabs_update (getTabsList (handle_close_tab wss (Some target) st))))
              <$> open_clients wss)
        ++ ((λ c, ws_send (ws_id c) (sync_msg rentry))
              <$> viewers wss (clientActiveTab st) target)
    ∧ (∀ c, c ∈ viewers wss (clientActiveTab st) target →
         clientActiveTab (handle_close_tab wss (Some target) st) !! ws_id c
         = Some replacement
         ∧ delivered_to (ws_id c) (effects (handle_close_tab wss (Some target) st))
           = delivered_to (ws_id c) (effects st)
             ++ [tabs_update (getTabsList (handle_close_tab wss (Some target) st));
                 sync_msg rentry])
    ∧ (∀ w, clientActiveTab st !! w ≠ Some target →
         clientActiveTab (handle_close_tab wss (Some target) st) !! w
         = clientActiveTab st !! w
         ∧ delivered_to w (effects (handle_close_tab wss (Some target) st))
           = delivered_to w (effects st)
             ++ delivered_to w
                  (broadcastAll wss
                     (tabs_update (getTabsList (handle_close_tab wss (Some target) st))))).
Proof.
  intros Hwf Hnd Hhas Hsize.
  destruct (has_true_split st target Hwf Hhas) as (entry & pre & post & Hget & Hsplit).
  destruct (close_flow_spec wss st target pre post entry Hwf Hnd Hsplit Hget Hsize)
    as (r & rentry & Hr & Hne & Hgr0 & Hid & Hgr & Hord & Htabs & _ & Heff & Hbind).
  destruct (remainingOrder_split st target pre post Hwf Hsplit) as (Hpre & Hpost & _).
  pose proof (registry_wf_close_flow wss target st Hwf) as Hwf'.
  rewrite handle_close_tab_flow by done.
  set (st' := close_flow wss target st) in *.
  assert (JsMap.get (tabs st') target = None) as Hgone.
  { rewrite Htabs. apply get_None_keys. rewrite keys_delete by apply Hwf.
    intros [Hx _]%list_elem_of_filter. by apply Hx. }
  assert (tabOrder st' = filter (λ id, id ≠ target) (tabOrder st)) as Hfilter.
  { by rewrite Hord, Hsplit, filter_out_middle. }
  assert (∀ id, id ≠ target → JsMap.get (tabs st') id = JsMap.get (tabs st) id)
    as Hkept.
  { intros id Hid'. rewrite Htabs. by apply get_delete_ne. }
  exists entry, r, rentry.
  split; [done|]. split; [done|]. split; [done|]. split; [done|].
  split; [done|]. split; [done|]. split; [done|]. split.
  { rewrite Hord. intros [|]%elem_of_app; contradiction. }
  split; [done|]. split; [done|]. split.
  { by rewrite (getTabsList_ids st' Hwf'). }
  split.
  { intros info (id & -> & Hin)%list_elem_of_fmap.
    apply list_elem_of_filter in Hin as [Hhas' Hin].
    unfold JsMap.has in Hhas'.
    destruct (JsMap.get (tabs st') id) as [t|] eqn:Hgt; [|done].
    assert (tabId t = id) as Htid.
    { apply (wf_own_id st' Hwf'). by apply get_Some_elem. }
    exists t. cbn [ti_tabId ti_name]. split; [|done].
    rewrite Htid, <- Hkept; [done|]. intros ->. congruence. }
  split; [unfold sync_msg; by rewrite Hid|].
  rewrite broadcastAll_open in Heff.
  split; [done|]. split.
  - intros c Hc. split.
    + rewrite Hbind. rewrite decide_True; [done|].
      apply list_elem_of_fmap. by exists c.
    + rewrite Heff, !delivered_to_app. f_equal.
      assert (c ∈ open_clients wss) as Hopen.
      { apply list_elem_of_filter in Hc as [[Ho _] Hin].
        by apply list_elem_of_filter. }
      rewrite (delivered_to_sends_one (ws_id c) (λ _, tabs_update (getTabsList st'))
                 (open_clients wss) c); [|by apply NoDup_fmap_filter|done..].
      rewrite (delivered_to_sends_one (ws_id c) (λ _, sync_msg rentry)
                 (viewers wss (clientActiveTab st) target) c);
        [done|by apply NoDup_fmap_filter|done..].
  - intros w Hw.
    assert (∀ c, c ∈ viewers wss (clientActiveTab st) target → ws_id c ≠ w) as Hnv.
    { intros c [[_ Hc] _]%list_elem_of_filter Heq. rewrite Heq in Hc. congruence. }
    split.
    + rewrite Hbind. rewrite decide_False; [done|].
      intros (c & Heq & Hc)%list_elem_of_fmap. by apply (Hnv c).
    + rewrite Heff, !delivered_to_app.
      rewrite (delivered_to_sends_none w (λ _, sync_msg rentry)) by done.
      rewrite app_nil_r, broadcastAll_open. done.
Qed.

End close_tab_command.

Lemma close_tab_rebinds_viewers_witness :
  Server.tabOrder (Server.handle_close_tab Demo.wss (Some "B") Demo.st_ABC)
  = ["A"; "C"]
  ∧ Server.clientActiveTab
      (Server.handle_close_tab Demo.wss (Some "B") Demo.st_ABC) !! 1
    = Some "A"
  ∧ delivered_to 1
      (Server.effects (Server.handle_close_tab Demo.wss (Some "B") Demo.st_ABC))
    = [tabs_update [ {| ti_tabId := "A"; ti_name := "Session A" |};
                     {| ti_tabId := "C"; ti_name := "Session C" |} ];
       state_sync (Some "A") (Some []) (Some false) None "sess-A"].
Proof.
  destruct (close_tab_rebinds_viewers Demo.wss Demo.st_ABC "B")
    as (entry & r & rentry & _ & Hr & _ & Hgr & _ & _ & _ & _ & Hord & _ & _
        & _ & _ & _ & Hv & _).
  - apply demo_registry_wf; compute_done.
  - compute_done.
  - reflexivity.
  - simpl. lia.
  - vm_compute in Hr. injection Hr as <-.
    vm_compute in Hgr. injection Hgr as <-.
    destruct (Hv {| Server.ws_id := 1; Server.readyState := Server.OPEN |})
      as [Hbound Hsent].
    { apply list_elem_of_filter. split; [split; reflexivity | left]. }
    split; [rewrite Hord; reflexivity|].
    split; [exact Hbound|].
    exact (eq_trans Hsent eq_refl).
Defined.

(** ** The binding table stays valid *)
Section binding_invariant.
Import Server.

Lemma bindings_valid_same wss st st' :
  tabs st' = tabs st → clientActiveTab st' = clientActiveTab st →
  bindings_valid wss st → bindings_valid wss st'.
Proof. unfold bindings_valid. intros -> ->. done. Qed.

Lemma bindings_valid_bind wss ws t st st' :
  tabs st' = tabs st →
  clientActiveTab st' = <[ws := t]> (clientActiveTab st) →
  is_Some (JsMap.get (tabs st) t) →
  bindings_valid wss st → bindings_valid wss st'.
Proof.
  unfold bindings_valid. intros -> -> Ht Hbv c t' Hc Hopen Hb.
  destruct (decide (ws = ws_id c)) as [->|Hne].
  - rewrite lookup_insert_eq in Hb. by injection Hb as <-.
  - rewrite lookup_insert_ne in Hb by done. by eapply Hbv.
Qed.

Lemma bindings_valid_grow wss k e st st' :
  tabs st' = JsMap.set (tabs st) k e → k ∉ JsMap.keys (tabs st) →
  clientActiveTab st' = clientActiveTab st →
  bindings_valid wss st → bindings_valid wss st'.
Proof.
  unfold bindings_valid. intros -> Hfresh -> Hbv c t Hc Hopen Hb.
  destruct (decide (k = t)) as [->|Hne].
  - rewrite get_set_eq. by eexists.
  - rewrite get_set_ne by done. by eapply Hbv.
Qed.

Lemma createTab_result env name sessionPath st :
  (∃ e, createTab env name sessionPath st = (Throw e, createTab_begin st))
  ∨ (∃ display s,
       createAgentSession env = Ok s
       ∧ createTab env name sessionPath st
         = (Ok {| tabId := randomUUID env; name := display; session := s |},
            {| tabOrder := tabOrder st ++ [randomUUID env];
               tabs := JsMap.set (tabs st) (randomUUID env)
                         {| tabId := randomUUID env; name := display;
                            session := s |};
               clientActiveTab := clientActiveTab st;
               tabCounter := S (tabCounter st);
               effects := effects st |})).
Proof.
  unfold createTab.
  destruct (sessionManager env) as [sn|e]; [|left; by eexists].
  destruct (createAgentSession env) as [s|e]; [|left; by eexists].
  destruct (bindExtensions env) as [u|e]; [|left; by eexists].
  right. by eexists _, s.
Qed.

Lemma closeTab_size st tab e :
  JsMap.get (tabs st) tab = Some e → (2 ≤ JsMap.size (tabs st))%nat →
  S (JsMap.size (tabs (closeTab tab st).2)) = JsMap.size (tabs st).
Proof.
  intros Hget Hsize. unfold closeTab. rewrite Hget.
  destruct (Nat.leb_spec (JsMap.size (tabs st)) 1); [lia|]. simpl.
  apply size_delete_present, has_true_keys. unfold JsMap.has. by rewrite Hget.
Qed.

Lemma bindings_valid_adopt wss ws env name sessionPath st :
  randomUUID env ∉ JsMap.keys (tabs st) →
  bindings_valid wss st →
  bindings_valid wss
    (match createTab env name sessionPath st with
     | (Throw _, st1) => cmd_error st1
     | (Ok newEntry, st1) => adopt_new_tab wss ws newEntry st1
     end).
Proof.
  intros Hfresh Hbv.
  destruct (createTab_result env name sessionPath st)
    as [[e ->]|(display & s & _ & ->)].
  - by apply (bindings_valid_same wss st).
  - cbn. eapply (bindings_valid_bind wss ws (randomUUID env)
                   {| tabOrder := tabOrder st ++ [randomUUID env];
                      tabs := JsMap.set (tabs st) (randomUUID env)
                                {| tabId := randomUUID env; name := display;
                                   session := s |};
                      clientActiveTab := clientActiveTab st;
                      tabCounter := S (tabCounter st);
                      effects := effects st |}); try done.
    + simpl. rewrite get_set_eq. by eexists.
    + by eapply (bindings_valid_grow wss _ _ st).
Qed.

Lemma bindings_valid_close_flow wss target st :
  registry_wf st → distinct_clients wss →
  JsMap.has (tabs st) target = true → (2 ≤ JsMap.size (tabs st))%nat →
  bindings_valid wss st → bindings_valid wss (close_flow wss target st).
Proof.
  intros Hwf Hnd Hhas Hsize Hbv.
  destruct (has_true_split st target Hwf Hhas) as (entry & pre & post & Hget & Hsplit).
  destruct (close_flow_spec wss st target pre post entry Hwf Hnd Hsplit Hget Hsize)
    as (r & rentry & _ & _ & _ & _ & Hgr & _ & Htabs & _ & _ & Hbind).
  intros c t Hc Hopen Hb. rewrite Hbind in Hb.
  destruct (decide (ws_id c ∈ ws_id <$> viewers wss (clientActiveTab st) target))
    as [Hin|Hnin].
  - injection Hb as <-. rewrite Hgr. by eexists.
  - assert (t ≠ target) as Hne.
    { intros ->. apply Hnin. apply list_elem_of_fmap. exists c. split; [done|].
      by apply list_elem_of_filter. }
    rewrite Htabs, get_delete_ne by done. by eapply Hbv.
Qed.

(** X6.  Every command keeps the registry invariant, provided the UUID
    drawn for a new tab is non-empty and not already a tab identifier: in
    every state the server reaches, the order has no repetition and lists
    exactly the keys of the mapping. *)
Theorem handleCommand_keeps_registry (wss : list WebSocket) (ws : nat)
    (cmd : Command) (env : Env) (st : ServerState) :
  registry_wf st →
  randomUUID (create env) ∉ tabOrder st →
  randomUUID (create env) ≠ "" →
  registry_wf (handleCommand wss ws cmd env st)
  ∧ (JsMap.size (tabs st) ≠ 0 →
     JsMap.size (tabs (handleCommand wss ws cmd env st)) ≠ 0)%nat.
Proof.
  intros Hwf Hfresh Hne. split; [by apply registry_wf_handleCommand|].
  intros Hsize.
  assert (∀ target, JsMap.has (tabs st) target = true →
                    (2 ≤ JsMap.size (tabs st))%nat →
                    JsMap.size (tabs (close_flow wss target st)) ≠ 0%nat) as Hclose.
  { intros target Hhas H2. unfold close_flow.
    destruct (closeTab target st) as [r st1] eqn:Hct.
    rewrite (proj2 (redirect_viewers_registry wss target r (broadcastTabsList wss st1))).
    simpl. assert (st1 = (closeTab target st).2) as -> by by rewrite Hct.
    unfold JsMap.has in Hhas.
    destruct (JsMap.get (tabs st) target) as [e|] eqn:Hget; [|done].
    pose proof (closeTab_size st target e Hget H2) as Hs. lia. }
  assert (∀ name p, JsMap.size
                      (tabs (match createTab (create env) name p st with
                             | (Throw _, st1) => cmd_error st1
                             | (Ok newEntry, st1) => adopt_new_tab wss ws newEntry st1
                             end)) ≠ 0%nat) as Hcreate.
  { intros name p.
    destruct (createTab_result (create env) name p st)
      as [[e ->]|(display & s & _ & ->)]; [done|].
    cbn. rewrite set_fresh_snoc by (intros Hin; by apply Hfresh, Hwf).
    unfold JsMap.size. rewrite length_app. simpl. lia. }
  destruct cmd as [|target|target|path|path|]; cbn [handleCommand].
  - apply Hcreate.
  - unfold handle_switch_session. destruct target as [t|]; [|done].
    by destruct (JsMap.get (tabs st) t).
  - unfold handle_close_tab. destruct target as [t|]; [|done].
    destruct (JsMap.has (tabs st) t) eqn:Hhas; [|done]. cbn [negb].
    destruct (Nat.leb_spec (JsMap.size (tabs st)) 1); [done|].
    apply Hclose; [done | lia].
  - unfold handle_open_session. destruct path as [p|]; [|done].
    destruct (negb (truthy p)); [done|].
    destruct (listAll env) as [allSessions|e]; [|done].
    unfold open_session_listed.
    destruct (find_info p allSessions) as [info|]; [|done].
    destruct (find_open_tab (info_id info) st); [done|]. apply Hcreate.
  - unfold handle_delete_session. destruct path as [p|]; [|done].
    destruct (negb (truthy p)); [done|]. cbn [emit tabs].
    destruct (find_info p (list_or_empty (listAll env))) as [info|]; [|done].
    destruct (find_open_tab (info_id info) st) as [openTab|] eqn:Hopen; [|done].
    destruct (Nat.ltb_spec 1 (JsMap.size (tabs st))); [|done].
    apply Hclose; [|lia].
    destruct (find_open_tab_registered st _ openTab Hwf Hopen) as [Hget _].
    unfold JsMap.has. by rewrite Hget.
  - done.
Qed.

End binding_invariant.

Section binding_invariant_commands.
Import Server.

(** X7.  No open client is ever left bound to a tab that is gone: if every
    open socket of [wss.clients] that has a binding is bound to an existing
    tab, the same holds after any command (on a well-formed registry, with
    distinct sockets and a fresh UUID). *)
Theorem handleCommand_keeps_bindings_valid (wss : list WebSocket) (ws : nat)
    (cmd : Command) (env : Env) (st : ServerState) :
  registry_wf st →
  distinct_clients wss →
  randomUUID (create env) ∉ tabOrder st →
  bindings_valid wss st →
  bindings_valid wss (handleCommand wss ws cmd env st).
Proof.
  intros Hwf Hnd Hfresh Hbv.
  assert (randomUUID (create env) ∉ JsMap.keys (tabs st)) as Hfresh'.
  { intros Hin. by apply Hfresh, Hwf. }
  destruct cmd as [|target|target|path|path|]; cbn [handleCommand].
  - unfold handle_new_session. by apply bindings_valid_adopt.
  - unfold handle_switch_session. destruct target as [t|]; [|done].
    destruct (JsMap.get (tabs st) t) as [e|] eqn:Hget; [|done].
    eapply (bindings_valid_bind wss ws t st); first [done | by eexists].
  - unfold handle_close_tab. destruct target as [t|]; [|done].
    destruct (JsMap.has (tabs st) t) eqn:Hhas; [|done]. cbn [negb].
    destruct (Nat.leb_spec (JsMap.size (tabs st)) 1); [done|].
    apply bindings_valid_close_flow; (done || lia).
  - unfold handle_open_session. destruct path as [p|]; [|done].
    destruct (negb (truthy p)); [done|].
    destruct (listAll env) as [allSessions|e];
      [|by apply (bindings_valid_same wss st)].
    unfold open_session_listed.
    destruct (find_info p allSessions) as [info|]; [|done].
    destruct (find_open_tab (info_id info) st) as [alreadyOpen|] eqn:Hopen.
    + destruct (find_open_tab_registered st _ alreadyOpen Hwf Hopen) as [Hget _].
      eapply (bindings_valid_bind wss ws (tabId alreadyOpen) st);
        first [done | by eexists].
    + by apply bindings_valid_adopt.
  - unfold handle_delete_session. destruct path as [p|]; [|done].
    destruct (negb (truthy p)); [done|].
    match goal with
    | |- bindings_valid wss (emit _ ?st1) =>
        assert (bindings_valid wss st1) as Hbv1;
          [|by apply (bindings_valid_same wss st1)]
    end.
    destruct (find_info p (list_or_empty (listAll env))) as [info|]; [|done].
    destruct (find_open_tab (info_id info) st) as [openTab|] eqn:Hopen; [|done].
    destruct (Nat.ltb_spec 1 (JsMap.size (tabs st))); [|done].
    destruct (find_open_tab_registered st _ openTab Hwf Hopen) as [Hget _].
    apply bindings_valid_close_flow; try (done || lia).
    unfold JsMap.has. by rewrite Hget.
  - done.
Qed.

End binding_invariant_commands.

(** ** Connecting, switching, listing, prompting *)
Section session_handlers.
Import Server Session.

(** What a scoped broadcast puts on a socket depends on that socket's
    binding only. *)
Lemma delivered_to_send w w' m es :
  delivered_to w (ws_send w' m :: es)
  = (if decide (w' = w) then [m] else []) ++ delivered_to w es.
Proof. unfold delivered_to. simpl. by case_decide. Qed.

Lemma delivered_scoped_binding wss cat cat' tab msg w :
  cat !! w = cat' !! w →
  delivered_to w (broadcastToTabViewers wss cat tab msg)
  = delivered_to w (broadcastToTabViewers wss cat' tab msg).
Proof.
  intros Heq. induction wss as [|c wss IH]; [done|]. cbn [broadcastToTabViewers].
  destruct (decide (ws_id c = w)) as [Hw|Hne].
  - destruct (decide (readyState c = OPEN ∧ cat !! ws_id c = Some tab)) as [H1|H1];
      destruct (decide (readyState c = OPEN ∧ cat' !! ws_id c = Some tab)) as [H2|H2];
      rewrite ?delivered_to_send, ?IH; try done; exfalso; rewrite Hw in *.
    + apply H2. by rewrite <- Heq.
    + apply H1. by rewrite Heq.
  - repeat case_decide; rewrite ?delivered_to_send, ?decide_False by done; done.
Qed.

Lemma delivered_scoped_viewer wss cat tab msg c :
  distinct_clients wss → c ∈ wss → readyState c = OPEN →
  cat !! ws_id c = Some tab →
  delivered_to (ws_id c) (broadcastToTabViewers wss cat tab msg) = [msg].
Proof.
  intros Hnd Hin Hopen Hb. rewrite broadcastToTabViewers_viewers.
  apply (delivered_to_sends_one (ws_id c) (λ _, msg) (viewers wss cat tab) c).
  - by apply NoDup_fmap_filter.
  - by apply list_elem_of_filter.
  - done.
Qed.

Lemma delivered_scoped_other wss cat tab msg w :
  cat !! w ≠ Some tab →
  delivered_to w (broadcastToTabViewers wss cat tab msg) = [].
Proof.
  intros Hb. rewrite broadcastToTabViewers_viewers.
  apply (delivered_to_sends_none w (λ _, msg)).
  intros c [[_ Hc] _]%list_elem_of_filter Heq. rewrite Heq in Hc. congruence.
Qed.

(** A sync is adopted by the client that receives it. *)
Lemma client_adopts_sync (entry : TabEntry) (cst : Client.State) :
  tabId entry ≠ "" →
  Client.activeTabId (client_receives [sync_msg entry] cst) = Some (tabId entry)
  ∧ Client.tabs (client_receives [sync_msg entry] cst) = Client.tabs cst
  ∧ Client.streaming (client_receives [sync_msg entry] cst)
    = isStreaming (session entry).
Proof.
  intros Hne. unfold client_receives, sync_msg. cbn [foldl].
  rewrite state_sync_always_applied; [done|].
  unfold truthy. apply negb_true_iff. by apply String.eqb_neq.
Qed.

(** X8.  The handshake: on a well-formed registry whose first tab is
    [first], a connecting socket is bound to [first] and is sent the tab list
    and then the state of [first], nobody else is sent anything, and the
    registry is untouched.  A client that handles those two messages views
    [first] and knows the tab list: it agrees with the server's binding. *)
Theorem connection_handshake (ws : nat) (st : ServerState) (first : string)
    (rest : list string) (cst : Client.State) :
  registry_wf st →
  tabOrder st = first :: rest →
  ∃ firstEntry,
    JsMap.get (tabs st) first = Some firstEntry
    ∧ (handle_connection ws st).1 = Ok ()
    ∧ clientActiveTab (handle_connection ws st).2 !! ws = Some first
    ∧ (∀ w, w ≠ ws →
         clientActiveTab (handle_connection ws st).2 !! w = clientActiveTab st !! w
         ∧ delivered_to w (effects (handle_connection ws st).2)
           = delivered_to w (effects st))
    ∧ delivered_to ws (effects (handle_connection ws st).2)
      = delivered_to ws (effects st)
        ++ [tabs_update (getTabsList st); sync_msg firstEntry]
    ∧ tabOrder (handle_connection ws st).2 = tabOrder st
    ∧ tabs (handle_connection ws st).2 = tabs st
    ∧ Client.activeTabId
        (client_receives [tabs_update (getTabsList st); sync_msg firstEntry] cst)
      = Some first
    ∧ Client.tabs
        (client_receives [tabs_update (getTabsList st); sync_msg firstEntry] cst)
      = getTabsList st.
Proof.
  intros Hwf Horder.
  destruct (registry_wf_entry st first Hwf) as (e & Hget & Hid).
  { rewrite Horder. left. }
  exists e.
  assert (handle_connection ws st
          = (Ok (), sendStateSync ws e
                      (emit [ws_send ws (tabs_update (getTabsList st))]
                         (set_clientActiveTab ws first st)))) as ->.
  { unfold handle_connection, at_index. rewrite Horder.
    change ((first :: rest) !! Z.to_nat 0) with (Some first).
    cbn [Z.ltb Z.compare]. by rewrite Hget. }
  cbn [fst snd].
  split; [done|]. split; [done|]. split.
  { simpl. apply lookup_insert_eq. }
  split.
  { intros w Hne. split.
    - simpl. by rewrite lookup_insert_ne.
    - simpl. rewrite <- app_assoc, delivered_to_app. unfold delivered_to at 2.
      simpl. rewrite !decide_False by done. by rewrite app_nil_r. }
  split.
  { simpl. rewrite <- app_assoc, delivered_to_app. unfold delivered_to at 2.
    simpl. by rewrite !decide_True. }
  split; [done|]. split; [done|].
  assert (first ≠ "") as Hne.
  { apply (wf_ids_nonempty st Hwf). rewrite Horder. left. }
  change (client_receives [tabs_update (getTabsList st); sync_msg e] cst)
    with (client_receives [sync_msg e]
            (client_receives [tabs_update (getTabsList st)] cst)).
  destruct (client_adopts_sync e (client_receives [tabs_update (getTabsList st)] cst))
    as (Ha & Ht & _); [by rewrite Hid|].
  rewrite Ha, Ht, Hid. done.
Qed.

(** X9.  Disconnecting: once [ws.on("close")] has run, no tab-scoped
    broadcast reaches the socket, whatever the tab and even while the socket
    is still listed as open, and every other socket is sent what it would
    have been sent. *)
Theorem closed_socket_gets_no_scoped_event (wss : list WebSocket) (ws : nat)
    (st : ServerState) (tab : string) (msg : ServerMsg) :
  delivered_to ws
    (broadcastToTabViewers wss (clientActiveTab (handle_close ws st)) tab msg)
  = []
  ∧ ∀ w, w ≠ ws →
      delivered_to w
        (broadcastToTabViewers wss (clientActiveTab (handle_close ws st)) tab msg)
      = delivered_to w (broadcastToTabViewers wss (clientActiveTab st) tab msg).
Proof.
  split.
  - apply delivered_scoped_other. simpl. by rewrite lookup_delete_eq.
  - intros w Hne. apply delivered_scoped_binding. simpl.
    by rewrite lookup_delete_ne.
Qed.

(** X10.  Switching: when an open socket switches to an existing tab, only
    that socket is sent anything (the state of the tab); from then on it is
    sent the events of that tab, once each, and the events of no other tab,
    while every other socket is sent what it would have been sent.  The
    client that handles the sync views the tab the server bound it to.  A
    switch to a tab that does not exist changes nothing. *)
Theorem switch_session_moves_the_viewer (wss : list WebSocket)
    (c : WebSocket) (target : string) (entry : TabEntry) (st : ServerState)
    (cst : Client.State) :
  registry_wf st →
  distinct_clients wss →
  c ∈ wss → readyState c = OPEN →
  JsMap.get (tabs st) target = Some entry →
  effects (handle_switch_session (ws_id c) (Some target) st)
  = effects st ++ [ws_send (ws_id c) (sync_msg entry)]
  ∧ (∀ msg,
       delivered_to (ws_id c)
         (broadcastToTabViewers wss
            (clientActiveTab (handle_switch_session (ws_id c) (Some target) st))
            target msg) = [msg])
  ∧ (∀ other msg, other ≠ target →
       delivered_to (ws_id c)
         (broadcastToTabViewers wss
            (clientActiveTab (handle_switch_session (ws_id c) (Some target) st))
            other msg) = [])
  ∧ (∀ w tab msg, w ≠ ws_id c →
       delivered_to w
         (broadcastToTabViewers wss
            (clientActiveTab (handle_switch_session (ws_id c) (Some target) st))
            tab msg)
       = delivered_to w (broadcastToTabViewers wss (clientActiveTab st) tab msg))
  ∧ Client.activeTabId (client_receives [sync_msg entry] cst)
    = clientActiveTab (handle_switch_session (ws_id c) (Some target) st) !! ws_id c
  ∧ (∀ missing, JsMap.get (tabs st) missing = None →
       handle_switch_session (ws_id c) (Some missing) st = st).
Proof.
  intros Hwf Hnd Hin Hopen Hget.
  assert (tabId entry = target) as Hid.
  { apply (wf_own_id st Hwf). by apply get_Some_elem. }
  assert (target ≠ "") as Hne.
  { apply (wf_ids_nonempty st Hwf), Hwf, has_true_keys.
    unfold JsMap.has. by rewrite Hget. }
  unfold handle_switch_session. rewrite Hget.
  cbn [sendStateSync emit set_clientActiveTab effects clientActiveTab].
  split; [done|]. split.
  { intros msg. apply delivered_scoped_viewer; try done. apply lookup_insert_eq. }
  split.
  { intros other msg Hother. apply delivered_scoped_other.
    rewrite lookup_insert_eq. congruence. }
  split.
  { intros w tab msg Hw. apply delivered_scoped_binding.
    by rewrite lookup_insert_ne. }
  split.
  { rewrite lookup_insert_eq.
    destruct (client_adopts_sync entry cst) as (-> & _); [by rewrite Hid|].
    by rewrite Hid. }
  intros missing Hmiss. by rewrite Hmiss.
Qed.

End session_handlers.

Section more_commands.
Import Server Session.

(** X11.  A [new_session] handled without interruption (no other handler
    runs between the [await]s of its [createTab]) whose runtime starts: the
    tab is appended and named ["Session N"] after the bumped counter, the
    requester is bound to it, every open socket is sent the tab list, which
    now ends with the new tab, and the requester alone is then sent the state
    of the new tab. *)
Theorem new_session_opens_and_binds (wss : list WebSocket) (ws : nat)
    (env : CreateEnv) (sessionName : option string) (s : AgentSession)
    (st : ServerState) :
  registry_wf st →
  sessionManager env = Ok sessionName →
  createAgentSession env = Ok s →
  bindExtensions env = Ok () →
  randomUUID env ∉ tabOrder st →
  randomUUID env ≠ "" →
  ∃ entry,
    entry = {| tabId := randomUUID env;
               name := "Session " +:+ pretty (S (tabCounter st));
               session := s |}
    ∧ JsMap.get (tabs (handle_new_session wss ws env st)) (randomUUID env)
      = Some entry
    ∧ tabOrder (handle_new_session wss ws env st)
      = tabOrder st ++ [randomUUID env]
    ∧ ti_tabId <$> getTabsList (handle_new_session wss ws env st)
      = tabOrder st ++ [randomUUID env]
    ∧ clientActiveTab (handle_new_session wss ws env st)
      = <[ws := randomUUID env]> (clientActiveTab st)
    ∧ effects (handle_new_session wss ws env st)
      = effects st
        ++ broadcastAll wss
             (tabs_update (getTabsList (handle_new_session wss ws env st)))
        ++ [ws_send ws (sync_msg entry)].
Proof.
  intros Hwf Hsm Hs Hb Hfresh Hne.
  pose proof (registry_wf_createTab env None None st Hwf Hfresh Hne) as Hwf'.
  set (entry := {| tabId := randomUUID env;
                   name := "Session " +:+ pretty (S (tabCounter st));
                   session := s |}).
  set (st1 := {| tabOrder := tabOrder st ++ [randomUUID env];
                 tabs := JsMap.set (tabs st) (randomUUID env) entry;
                 clientActiveTab := clientActiveTab st;
                 tabCounter := S (tabCounter st);
                 effects := effects st |}).
  assert (createTab env None None st = (Ok entry, st1)) as Hct.
  { unfold createTab. by rewrite Hsm, Hs, Hb. }
  rewrite Hct in Hwf'. cbn [snd] in Hwf'.
  unfold handle_new_session. rewrite Hct.
  assert (getTabsList (adopt_new_tab wss ws entry st1) = getTabsList st1) as Hl
    by by apply getTabsList_registry.
  exists entry. split; [done|]. rewrite Hl.
  split; [apply get_set_eq|]. split; [done|].
  split; [by apply (getTabsList_ids st1)|]. split; [done|].
  cbn [adopt_new_tab sendStateSync broadcastTabsList emit effects].
  rewrite <- app_assoc. do 2 f_equal.
Qed.

Lemma sort_insert_perm (x : SessionInfo) (l : list SessionInfo) :
  sort_insert newest_first x l ≡ₚ x :: l.
Proof.
  induction l as [|y l IH]; [done|]. cbn [sort_insert].
  destruct (decide (newest_first x y)); [done|].
  rewrite IH. apply Permutation_swap.
Qed.

Lemma array_sort_perm (l : list SessionInfo) : array_sort newest_first l ≡ₚ l.
Proof.
  induction l as [|x l IH]; [done|].
  unfold array_sort in *. cbn [foldr]. by rewrite sort_insert_perm, IH.
Qed.

Lemma sort_insert_sorted (x : SessionInfo) (l : list SessionInfo) :
  Sorted newest_first l → Sorted newest_first (sort_insert newest_first x l).
Proof.
  induction 1 as [|y l Hsorted IH Hhd]; cbn [sort_insert].
  { by repeat constructor. }
  destruct (decide (newest_first x y)) as [Hxy|Hxy].
  - by repeat constructor.
  - constructor; [done|].
    assert (newest_first y x) as Hyx by (unfold newest_first in *; lia).
    destruct Hhd as [|z l Hyz]; cbn [sort_insert]; [by constructor|].
    destruct (decide (newest_first x z)); by constructor.
Qed.

Lemma array_sort_sorted (l : list SessionInfo) :
  Sorted newest_first (array_sort newest_first l).
Proof.
  induction l as [|x l IH]; [constructor|].
  unfold array_sort in *. cbn [foldr]. by apply sort_insert_sorted.
Qed.

(** Sorting does not reorder the sessions that were modified at the same
    time. *)
Lemma sort_insert_stable (m : Z) (x : SessionInfo) (l : list SessionInfo) :
  filter (λ s, info_modified s = m) (sort_insert newest_first x l)
  = filter (λ s, info_modified s = m) (x :: l).
Proof.
  induction l as [|y l IH]; [done|]. cbn [sort_insert].
  destruct (decide (newest_first x y)) as [Hxy|Hxy]; [done|].
  rewrite filter_cons, IH, !filter_cons.
  destruct (decide (info_modified y = m)) as [Hy|Hy];
    destruct (decide (info_modified x = m)) as [Hx|Hx]; try done.
  unfold newest_first in Hxy. lia.
Qed.

Lemma array_sort_stable (m : Z) (l : list SessionInfo) :
  filter (λ s, info_modified s = m) (array_sort newest_first l)
  = filter (λ s, info_modified s = m) l.
Proof.
  induction l as [|x l IH]; [done|].
  unfold array_sort in *. cbn [foldr].
  by rewrite sort_insert_stable, !filter_cons, IH.
Qed.

(** X12.  The sessions offered by [list_sessions] are the saved sessions
    that no tab holds, each as often as the listing reports it, ordered from
    the most recently modified on, and sessions modified at the same time
    stay in the order of the listing (the sort is stable), which determines
    the list that is sent; a listing that fails is logged and answered with
    the empty list. *)
Theorem list_sessions_offers_closed_sessions (ws : nat)
    (allSessions : list SessionInfo) (err : string) (st : ServerState) :
  effects (handle_list_sessions ws (Ok allSessions) st)
  = effects st
    ++ [ws_send ws (sessions_list (available_sessions allSessions (tabs st)))]
  ∧ Sorted newest_first (available_sessions allSessions (tabs st))
  ∧ available_sessions allSessions (tabs st)
    ≡ₚ filter (λ s, info_id s ∉ open_session_ids st) allSessions
  ∧ (∀ m, filter (λ s, info_modified s = m)
            (available_sessions allSessions (tabs st))
          = filter (λ s, info_modified s = m)
              (filter (λ s, info_id s ∉ open_session_ids st) allSessions))
  ∧ (∀ s, s ∈ available_sessions allSessions (tabs st)
          ↔ s ∈ allSessions ∧ info_id s ∉ open_session_ids st)
  ∧ effects (handle_list_sessions ws (Throw err) st)
    = effects st
      ++ [console_error "list_sessions error"; ws_send ws (sessions_list [])].
Proof.
  assert (available_sessions allSessions (tabs st)
          ≡ₚ filter (λ s, info_id s ∉ open_session_ids st) allSessions) as Hperm.
  { unfold available_sessions. apply array_sort_perm. }
  split; [done|]. split.
  { unfold available_sessions. apply array_sort_sorted. }
  split; [done|]. split.
  { intros m. unfold available_sessions. apply array_sort_stable. }
  split; [|done].
  intros s. rewrite Hperm, list_elem_of_filter. tauto.
Qed.

Lemma truthy_nonempty (s : string) : s ≠ "" → truthy s = true.
Proof. intros Hne. unfold truthy. by apply negb_true_iff, String.eqb_neq. Qed.

(** X13.  A prompt goes to the tab its sender views: for an open socket
    bound to [t], on a well-formed registry with valid bindings, a non-empty
    prompt is handed to the runtime of [t] (as a follow-up by default when
    that runtime is streaming) and an abort reaches the same runtime; an
    empty prompt reaches no runtime. *)
Theorem prompt_reaches_viewed_tab (wss : list WebSocket) (c : WebSocket)
    (t text : string) (streamingBehavior : option string) (st : ServerState) :
  registry_wf st →
  bindings_valid wss st →
  c ∈ wss → readyState c = OPEN →
  clientActiveTab st !! ws_id c = Some t →
  text ≠ "" →
  ∃ entry,
    JsMap.get (tabs st) t = Some entry ∧ tabId entry = t
    ∧ handle_prompt (ws_id c) (Some text) streamingBehavior st
      = Some (session_prompt entry text
                (if isStreaming (session entry)
                 then Some (default "followUp" streamingBehavior) else None))
    ∧ handle_abort (ws_id c) st = Some (session_abort entry)
    ∧ handle_prompt (ws_id c) (Some "") streamingBehavior st = None.
Proof.
  intros Hwf Hbv Hin Hopen Hb Htext.
  destruct (Hbv c t Hin Hopen Hb) as [entry Hget].
  exists entry. split; [done|]. split.
  { apply (wf_own_id st Hwf). by apply get_Some_elem. }
  assert (activeEntry (ws_id c) st = Some entry) as Hact.
  { unfold activeEntry. rewrite Hb. simpl. exact Hget. }
  unfold handle_prompt, handle_abort. rewrite Hact.
  rewrite (truthy_nonempty text Htext). cbn [negb].
  split; [by destruct (isStreaming (session entry))|]. done.
Qed.

Lemma array_find_None {A} (p : A → bool) (l : list A) :
  array_find p l = None → ∀ x, x ∈ l → p x = false.
Proof.
  induction l as [|y l IH]; simpl; intros Hnone x Hx.
  - by apply elem_of_nil in Hx.
  - destruct (p y) eqn:Hy; [done|].
    apply elem_of_cons in Hx as [->|Hx]; [done | by apply IH].
Qed.

(** X14.  Handled without interruption, [open_session] never gives a
    session a second tab: if no two tabs hold the same session and the
    runtime resumed from the path reports the identifier the listing gives
    for that path, no two tabs hold the same session afterwards. *)
Theorem open_session_keeps_one_tab_per_session (wss : list WebSocket)
    (ws : nat) (path : string) (allSessions : list SessionInfo)
    (env : CreateEnv) (st : ServerState) :
  registry_wf st →
  one_tab_per_session st →
  randomUUID env ∉ tabOrder st →
  (∀ info s, find_info path allSessions = Some info →
             createAgentSession env = Ok s → sessionId s = info_id info) →
  one_tab_per_session
    (handle_open_session wss ws (Some path) (Ok allSessions) env st).
Proof.
  intros Hwf Hone Hfresh Hid. unfold handle_open_session.
  destruct (negb (truthy path)); [done|]. unfold open_session_listed.
  destruct (find_info path allSessions) as [info|] eqn:Hinfo; [|done].
  destruct (find_open_tab (info_id info) st) as [alreadyOpen|] eqn:Hopen; [done|].
  destruct (createTab_result env None (Some path) st)
    as [[e ->]|(display & s & Hs & ->)]; [done|].
  unfold one_tab_per_session in *.
  cbn [adopt_new_tab sendStateSync broadcastTabsList emit set_clientActiveTab tabs].
  rewrite set_fresh_snoc by (intros Hin; by apply Hfresh, Hwf).
  unfold JsMap.values. rewrite !fmap_app. cbn [fmap list_fmap snd session sessionId].
  apply NoDup_app. split; [exact Hone|]. split; [|apply NoDup_singleton].
  intros id Hin ->%list_elem_of_singleton.
  apply list_elem_of_fmap in Hin as (t & Heq & Ht).
  pose proof (array_find_None _ _ Hopen t Ht) as Hp. simpl in Hp.
  apply String.eqb_neq in Hp. apply Hp.
  rewrite <- Heq. by apply Hid.
Qed.

(** X15.  After a [close_tab], the client of every redirected viewer
    agrees with the server: handling the two messages it was sent (the tab
    list, then the sync of the replacement), whatever it showed before, it
    knows the new tab list and views the tab the server has bound its socket
    to, which is a tab of that list. *)
Theorem close_tab_redirected_client_agrees (wss : list WebSocket)
    (st : ServerState) (target : string) (c : WebSocket) (cst : Client.State) :
  registry_wf st →
  distinct_clients wss →
  JsMap.has (tabs st) target = true →
  (2 ≤ JsMap.size (tabs st))%nat →
  c ∈ viewers wss (clientActiveTab st) target →
  ∃ msgs replacement,
    delivered_to (ws_id c) (effects (handle_close_tab wss (Some target) st))
    = delivered_to (ws_id c) (effects st) ++ msgs
    ∧ clientActiveTab (handle_close_tab wss (Some target) st) !! ws_id c
      = Some replacement
    ∧ Client.activeTabId (client_receives msgs cst) = Some replacement
    ∧ Client.tabs (client_receives msgs cst)
      = getTabsList (handle_close_tab wss (Some target) st)
    ∧ replacement ∈ ti_tabId <$> Client.tabs (client_receives msgs cst).
Proof.
  intros Hwf Hnd Hhas Hsize Hc.
  destruct (has_true_split st target Hwf Hhas) as (entry & pre & post & Hget & Hsplit).
  destruct (close_flow_spec wss st target pre post entry Hwf Hnd Hsplit Hget Hsize)
    as (r & rentry & _ & Hne & Hgr0 & Hid & Hgr & _ & _ & _ & Heff & Hbind).
  pose proof (registry_wf_close_flow wss target st Hwf) as Hwf'.
  rewrite handle_close_tab_flow by done.
  set (st' := close_flow wss target st) in *.
  exists [tabs_update (getTabsList st'); sync_msg rentry], r.
  assert (r ≠ "") as Hrne.
  { apply (wf_ids_nonempty st Hwf), Hwf, has_true_keys.
    unfold JsMap.has. by rewrite Hgr0. }
  split.
  { rewrite Heff, broadcastAll_open, !delivered_to_app. f_equal.
    assert (c ∈ open_clients wss) as Hopen.
    { apply list_elem_of_filter in Hc as [[Ho _] Hin].
      by apply list_elem_of_filter. }
    rewrite (delivered_to_sends_one (ws_id c) (λ _, tabs_update (getTabsList st'))
               (open_clients wss) c); [|by apply NoDup_fmap_filter|done..].
    rewrite (delivered_to_sends_one (ws_id c) (λ _, sync_msg rentry)
               (viewers wss (clientActiveTab st) target) c);
      [done|by apply NoDup_fmap_filter|done..]. }
  split.
  { rewrite Hbind. rewrite decide_True; [done|].
    apply list_elem_of_fmap. by exists c. }
  change (client_receives [tabs_update (getTabsList st'); sync_msg rentry] cst)
    with (client_receives [sync_msg rentry]
            (client_receives [tabs_update (getTabsList st')] cst)).
  destruct (client_adopts_sync rentry
              (client_receives [tabs_update (getTabsList st')] cst))
    as (Ha & Ht & _); [by rewrite Hid|].
  rewrite Ha, Ht, Hid. split; [done|]. split; [done|].
  change (Client.tabs (client_receives [tabs_update (getTabsList st')] cst))
    with (getTabsList st').
  rewrite (getTabsList_ids st' Hwf'). apply Hwf', has_true_keys.
  unfold JsMap.has. by rewrite Hgr.
Qed.

End more_commands.

(** ** Dialogs: the client's answer, and requests without a deadline *)
Section dialog_ui.
Import Dialog DialogUI.

Lemma respond_id (id method : string) (c : Click) (v : gmap string JsValue) :
  click_value method c = Some v → respond id v !! "id" = Some (JString id).
Proof.
  unfold respond. intros Hv.
  assert (v !! "id" = None) as Hnone.
  { destruct c; simpl in Hv;
      repeat match type of Hv with
             | (if ?b then _ else _) = _ => destruct b
             end; simplify_eq; by vm_compute. }
  rewrite lookup_union_r by done. by vm_compute.
Qed.

Lemma respond_lookup (id key : string) (v : gmap string JsValue) :
  key ≠ "id" → key ≠ "type" → respond id v !! key = v !! key.
Proof.
  intros Hid Htype. unfold respond.
  destruct (v !! key) as [x|] eqn:Hv.
  - by apply lookup_union_Some_l.
  - rewrite lookup_union_r by done.
    rewrite lookup_insert_ne by done. by rewrite lookup_singleton_ne.
Qed.

(** X16.  The answer of the user reaches the asker.  For each of the
    three dialogs the server opens, and each control the client offers for
    it, the reply the client sends is parsed to what the control means: the
    option picked, the text typed (an empty text too), true for Yes, false
    for No; Cancel and a click on the backdrop give the default
    ([undefined], or [false] for a confirmation).  Sent to a server where the
    request is outstanding, that reply settles its promise to that value by
    the one call of [resolve] and removes the pending entry. *)
Theorem click_reaches_the_asker (id : string) (c : Click)
    (v : gmap string JsValue) (method : string)
    (d : DialogEnv JsValue (gmap string JsValue))
    (st : State JsValue (gmap string JsValue)) :
  click_value method c = Some v →
  outstanding id d st →
  (method = "select" ∨ method = "input" → parse_value (respond id v) = meaning c)
  ∧ (method = "confirm" →
       parse_confirmed (respond id v)
       = JBool (match c with click_yes => true | _ => false end))
  ∧ resolved_once id (d_parse d (respond id v))
      (on_extension_ui_response (respond id v) st).
Proof.
  intros Hv Hout.
  assert (∀ key, key ≠ "id" → key ≠ "type" → respond id v !! key = v !! key)
    as Hlook by (intros; by apply respond_lookup).
  split; [|split].
  - intros Hm. unfold parse_value, cancelled.
    rewrite !Hlook by done.
    destruct Hm as [-> | ->]; destruct c; simpl in Hv; simplify_eq;
      by vm_compute.
  - intros ->. unfold parse_confirmed, cancelled.
    rewrite !Hlook by done.
    destruct c; simpl in Hv; simplify_eq; by vm_compute.
  - unfold on_extension_ui_response. rewrite (respond_id id method c v Hv).
    by apply response_resolves.
Qed.

End dialog_ui.

Section dialog_no_deadline.
Context {T Response : Type}.
Import Dialog.
Implicit Types (st : State T Response) (d : DialogEnv T Response).

Lemma step_not_answered wss id d st e :
  d_signal d = None → d_timeoutId d = false →
  outstanding id d st → not_answered id e →
  same_at id st (step wss st e).
Proof.
  intros Hsig Htid Hout Hna.
  destruct e as [uuid opts' dv m parse|k cmd|k|s]; cbn [step]; simpl in Hna.
  - by apply ask_other.
  - apply response_other; [done|]. intros Hk.
    destruct Hout as (_ & _ & Huniq & _). by apply Huniq in Hk.
  - destruct (decide (k = id)) as [->|Hne]; [|by apply timer_other].
    unfold timer_fires. rewrite decide_False; [apply same_at_refl|].
    intros Hin. destruct Hout as (_ & _ & _ & _ & Ht & _).
    apply Ht in Hin. congruence.
  - apply abort_other. intros Hin.
    destruct Hout as (_ & _ & _ & _ & _ & Hl). apply Hl in Hin. congruence.
Qed.

(** X17.  A request asked without a signal and without a timeout (a
    timeout of 0 counts as none) can only be settled by a reply bearing its
    identifier: whatever timers fire, signals abort, other requests are
    asked or answered, its promise stays pending and its entry stays in the
    pending map. *)
Theorem request_without_deadline_waits_for_reply (wss : list Server.WebSocket)
    (st0 : State T Response) (uuid : string) (opts : option Opts)
    (defaultValue : T) (method : string) (parseResponse : Response → T)
    (es : list (Event T Response)) :
  unused uuid st0 →
  opts ≫= signal = None →
  timeout_set opts = false →
  Forall (not_answered uuid) es →
  outcome
    (run wss (createDialogPromise wss opts defaultValue method parseResponse uuid st0).2 es)
    uuid = None
  ∧ pendingExtensionRequests
      (run wss (createDialogPromise wss opts defaultValue method parseResponse uuid st0).2 es)
    !! uuid = Some (pending_entry uuid).
Proof.
  intros Hunused Hsig Htid Hes.
  assert (signal_aborted opts st0 = false) as Hna.
  { unfold signal_aborted. by rewrite Hsig. }
  destruct (ask_outstanding wss opts defaultValue method parseResponse uuid st0
              Hna Hunused) as (_ & Hout & _).
  set (d := {| d_signal := opts ≫= signal |}) in Hout.
  assert (outstanding uuid d
            (run wss (createDialogPromise wss opts defaultValue method
                        parseResponse uuid st0).2 es)) as Hfin.
  { revert Hout.
    generalize (createDialogPromise wss opts defaultValue method parseResponse
                  uuid st0).2.
    induction Hes as [|e es He _ IH]; intros st Hout; [done|].
    unfold run. cbn [foldl]. apply IH.
    eapply outstanding_same_at; [exact Hout|].
    by apply (step_not_answered wss uuid d). }
  destruct Hfin as (_ & Hp & _ & Hpr & _). split; [|done].
  unfold outcome. by rewrite Hpr.
Qed.

End dialog_no_deadline.

(** ** The conversation a sync rebuilds *)
Section client_rebuild.
Import Client.

Lemma mutate_tool_length callId f blocks blocks' :
  mutate_tool callId f blocks = Some blocks' → length blocks' = length blocks.
Proof.
  revert blocks'. induction blocks as [|b blocks IH]; intros blocks'; [done|].
  cbn [mutate_tool].
  assert (cons b <$> mutate_tool callId f blocks = Some blocks' →
          length blocks' = length (b :: blocks)) as Hrest.
  { destruct (mutate_tool callId f blocks) as [bs|]; [|done].
    intros [= <-]. simpl. f_equal. by apply IH. }
  destruct b as [| |cid n a o e r x]; try exact Hrest.
  destruct (String.eqb cid callId); [|exact Hrest]. by intros [= <-].
Qed.

Lemma findToolBlock_from_last_length callId f its :
  length (findToolBlock_from_last callId f its) = length its.
Proof.
  induction its as [|item its IH]; [done|]. cbn [findToolBlock_from_last].
  destruct item as [t|blocks s]; [simpl; by rewrite IH|].
  destruct (mutate_tool callId f blocks); simpl; [done | by rewrite IH].
Qed.

Lemma findToolBlock_length callId f its :
  length (findToolBlock callId f its) = length its.
Proof.
  unfold findToolBlock.
  by rewrite length_rev, findToolBlock_from_last_length, length_rev.
Qed.

Lemma mutate_tool_settled callId f blocks blocks' :
  (∀ b, settled_block (f b)) →
  mutate_tool callId f blocks = Some blocks' →
  Forall settled_block blocks → Forall settled_block blocks'.
Proof.
  intros Hf. revert blocks'.
  induction blocks as [|b blocks IH]; intros blocks'; [done|].
  cbn [mutate_tool]. intros Hm Hall. apply Forall_cons in Hall as [Hb Hall].
  assert (cons b <$> mutate_tool callId f blocks = Some blocks' →
          Forall settled_block blocks') as Hrest.
  { destruct (mutate_tool callId f blocks) as [bs|]; [|done].
    intros [= <-]. apply Forall_cons. split; [done | by apply IH]. }
  destruct b as [| |cid n a o e r x]; try by apply Hrest.
  destruct (String.eqb cid callId); [|by apply Hrest].
  injection Hm as <-. apply Forall_cons. split; [apply Hf | done].
Qed.

Lemma findToolBlock_settled callId f its :
  (∀ b, settled_block (f b)) →
  Forall settled_item its → Forall settled_item (findToolBlock callId f its).
Proof.
  intros Hf Hall. unfold findToolBlock. apply List.Forall_rev.
  apply List.Forall_rev in Hall. revert Hall. generalize (rev its). clear its.
  intros its. induction 1 as [|item its Hitem Hall IH]; [done|].
  cbn [findToolBlock_from_last]. destruct item as [t|blocks s].
  - apply Forall_cons. by split.
  - destruct (mutate_tool callId f blocks) as [blocks'|] eqn:Hm.
    + apply Forall_cons. split; [|done]. destruct Hitem as [Hs Hb].
      split; [done|]. by eapply mutate_tool_settled.
    + apply Forall_cons. by split.
Qed.

Lemma blocks_of_settled contentArr : Forall settled_block (blocks_of contentArr).
Proof.
  induction contentArr as [|c rest IH]; [done|].
  destruct c; cbn [blocks_of]; try (apply Forall_cons; split); done.
Qed.

Lemma attach_result_settled text isError b :
  settled_block (attach_result text isError b).
Proof. by destruct b. Qed.

Lemma rebuild_length its msgs :
  length (foldl sync_message its msgs)
  = length its + length (filter (λ m, adds_item m = true) msgs).
Proof.
  revert its. induction msgs as [|m msgs IH]; intros its; [simpl; lia|].
  cbn [foldl]. rewrite IH. destruct m as [c|c|cid c e|r]; cbn [sync_message].
  - rewrite filter_cons_True by done. rewrite length_app. simpl. lia.
  - rewrite filter_cons_True by done. rewrite length_app. simpl. lia.
  - rewrite filter_cons_False by done. by rewrite findToolBlock_length.
  - by rewrite filter_cons_False.
Qed.

Lemma rebuild_settled its msgs :
  Forall settled_item its → Forall settled_item (foldl sync_message its msgs).
Proof.
  revert its. induction msgs as [|m msgs IH]; intros its Hall; [done|].
  cbn [foldl]. apply IH. destruct m as [c|c|cid c e|r]; cbn [sync_message].
  - apply Forall_app. split; [done|]. by apply Forall_singleton.
  - apply Forall_app. split; [done|]. apply Forall_singleton.
    split; [done | apply blocks_of_settled].
  - apply findToolBlock_settled; [|done]. apply attach_result_settled.
  - done.
Qed.

(** X18.  The conversation rebuilt from a sync has one item per user or
    assistant message, in order of arrival: tool results and messages of any
    other role add none (a tool result only fills in a block). *)
Theorem sync_rebuilds_one_item_per_message (t : string)
    (messages : list AgentMessage) (data_streaming : option bool)
    (model : option string) (sid : string) (st : State) :
  t ≠ "" →
  ∃ st',
    handleServerEvent (state_sync (Some t) (Some messages) data_streaming model sid) st
    = Some st'
    ∧ length (items st') = length (filter (λ m, adds_item m = true) messages)
    ∧ tabs st' = tabs st.
Proof.
  intros Ht. eexists. split.
  - apply state_sync_always_applied. unfold truthy.
    by apply negb_true_iff, String.eqb_neq.
  - cbn [items tabs]. split; [|done]. by rewrite rebuild_length.
Qed.

(** X19.  After a sync nothing is shown as in progress: no rebuilt
    assistant item is marked streaming, no tool block is marked running, and
    no item is the current one any more, whatever the messages of the sync
    and whatever [streaming] flag it carries. *)
Theorem sync_leaves_nothing_in_progress (t : string)
    (messages : option (list AgentMessage)) (data_streaming : option bool)
    (model : option string) (sid : string) (st : State) :
  t ≠ "" →
  ∃ st',
    handleServerEvent (state_sync (Some t) messages data_streaming model sid) st
    = Some st'
    ∧ Forall settled_item (items st')
    ∧ currentAssistantItem st' = None
    ∧ streaming st' = default false data_streaming.
Proof.
  intros Ht. eexists. split.
  - apply state_sync_always_applied. unfold truthy.
    by apply negb_true_iff, String.eqb_neq.
  - cbn [items currentAssistantItem streaming]. split; [|done].
    by apply rebuild_settled.
Qed.

Lemma mutate_tool_found callId f pre post n a o e r x :
  no_tool_block callId pre →
  mutate_tool callId f (pre ++ ToolBlock callId n a o e r x :: post)
  = Some (pre ++ f (ToolBlock callId n a o e r x) :: post).
Proof.
  induction pre as [|b pre IH]; intros Hno.
  - simpl. by rewrite String.eqb_refl.
  - assert (no_tool_block callId pre) as Hno'.
    { intros n' a' o' e' r' x' Hin. apply (Hno n' a' o' e' r' x'). by right. }
    cbn [app mutate_tool]. rewrite (IH Hno').
    destruct b as [| |cid n' a' o' e' r' x']; try done.
    destruct (String.eqb_spec cid callId) as [->|]; [|done].
    exfalso. apply (Hno n' a' o' e' r' x'). left.
Qed.

Lemma mutate_tool_missing callId f blocks :
  no_tool_block callId blocks → mutate_tool callId f blocks = None.
Proof.
  induction blocks as [|b blocks IH]; intros Hno; [done|].
  assert (no_tool_block callId blocks) as Hno'.
  { intros n a o e r x Hin. apply (Hno n a o e r x). by right. }
  cbn [mutate_tool]. rewrite (IH Hno').
  destruct b as [| |cid n a o e r x]; try done.
  destruct (String.eqb_spec cid callId) as [->|]; [|done].
  exfalso. apply (Hno n a o e r x). left.
Qed.


(** X21.  A tool result whose call identifier matches no block changes
    nothing: the conversation is exactly what it was. *)
Theorem tool_result_for_unknown_call_is_ignored (its : list ConversationItem)
    (callId : string) (content : option (list ContentPart))
    (isError : option bool) :
  (∀ blocks s, AssistantItem blocks s ∈ its → no_tool_block callId blocks) →
  sync_message its (msg_toolResult callId content isError) = its.
Proof.
  intros Hno. cbn [sync_message]. unfold findToolBlock.
  assert (∀ l, (∀ blocks s, AssistantItem blocks s ∈ l → no_tool_block callId blocks) →
               findToolBlock_from_last callId
                 (attach_result (result_text content) isError) l = l) as Hsame.
  { induction l as [|item l IH]; intros Hl; [done|].
    cbn [findToolBlock_from_last].
    assert (findToolBlock_from_last callId
              (attach_result (result_text content) isError) l = l) as ->.
    { apply IH. intros blocks s Hin. apply (Hl blocks s). by right. }
    destruct item as [t|blocks s]; [done|].
    rewrite mutate_tool_missing; [done|]. apply (Hl blocks s). left. }
  rewrite Hsame; [apply rev_involutive|].
  intros blocks s Hin. apply (Hno blocks s).
  apply list_elem_of_In. apply in_rev. by apply list_elem_of_In.
Qed.

End client_rebuild.

(** ** [new_session] between its awaits *)
Section new_session_awaits.
Import Server.

Lemma new_session_uninterrupted_eq wss ws env st :
  new_session_uninterrupted wss ws env st = handle_new_session wss ws env st.
Proof.
  unfold new_session_uninterrupted, handle_new_session, new_session_start, createTab.
  destruct (sessionManager env) as [sessionName|e]; [|done].
  cbn [new_session_resume]. destruct (createAgentSession env) as [s|e]; [|done].
  cbn [new_session_resume]. destruct (bindExtensions env) as [u|e]; [|done].
  done.
Qed.


End new_session_awaits.

(** ** Strings *)
Lemma append_assoc (a b c : string) : (a +:+ b) +:+ c = a +:+ (b +:+ c).
Proof. induction a as [|x a IH]; [done|]. change (String x ((a +:+ b) +:+ c) = String x (a +:+ (b +:+ c))). by f_equal. Qed.

Lemma append_empty_r (a : string) : a +:+ "" = a.
Proof. induction a as [|x a IH]; [done|]. change (String x (a +:+ "") = String x a). by f_equal. Qed.

(** ** The text of a streamed response *)
Section client_stream.
Import Client ClientStream.

Lemma shown_text_append_text d blocks :
  shown_text (append_text d blocks)
  = match shown_text blocks with
    | [] => [d]
    | t :: rest => (t +:+ d) :: rest
    end.
Proof.
  induction blocks as [|b blocks IH]; [done|].
  destruct b; cbn [append_text]; first [done | exact IH].
Qed.

Lemma shown_text_append_thinking d blocks :
  shown_text (append_thinking d blocks) = shown_text blocks.
Proof.
  induction blocks as [|b blocks IH]; [done|].
  destruct b; cbn [append_thinking]; first [done | exact IH | by apply (f_equal (cons _))].
Qed.

Lemma shown_text_apply_delta d blocks :
  shown_text (apply_delta d blocks)
  = match d with
    | text_delta delta =>
        match shown_text blocks with
        | [] => [default "" delta]
        | t :: rest => (t +:+ default "" delta) :: rest
        end
    | _ => shown_text blocks
    end.
Proof.
  destruct d as [delta|delta|[[[id name] args]|]|]; cbn [apply_delta].
  - apply shown_text_append_text.
  - apply shown_text_append_thinking.
  - unfold shown_text. rewrite omap_app. simpl. by rewrite app_nil_r.
  - done.
  - done.
Qed.

Lemma message_update_current base blocks d st :
  items st = base ++ [AssistantItem blocks true] →
  currentAssistantItem st = Some (length base) →
  items (handleRuntimeEvent (message_update (Some d)) st)
  = base ++ [AssistantItem (apply_delta d blocks) true]
  ∧ currentAssistantItem (handleRuntimeEvent (message_update (Some d)) st)
    = Some (length base)
  ∧ streaming (handleRuntimeEvent (message_update (Some d)) st) = streaming st.
Proof.
  intros Hitems Hcur. cbn [handleRuntimeEvent]. rewrite Hcur.
  unfold with_current. rewrite Hcur. cbn [items currentAssistantItem streaming].
  split; [|done]. rewrite Hitems.
  replace (length base) with (length base + 0) by lia.
  by rewrite alter_app_r.
Qed.

Lemma text_deltas_fold base ds : ∀ blocks st,
  items st = base ++ [AssistantItem blocks true] →
  currentAssistantItem st = Some (length base) →
  ∃ blocks',
    items (foldl (λ s d, handleRuntimeEvent (message_update (Some d)) s) st ds)
    = base ++ [AssistantItem blocks' true]
    ∧ streaming (foldl (λ s d, handleRuntimeEvent (message_update (Some d)) s) st ds)
      = streaming st
    ∧ shown_text blocks'
      = match text_deltas ds, shown_text blocks with
        | [], shown => shown
        | tds, [] => [joined tds]
        | tds, t :: rest => (t +:+ joined tds) :: rest
        end.
Proof.
  induction ds as [|d ds IH]; intros blocks st Hitems Hcur.
  { exists blocks. cbn [foldl text_deltas omap]. by destruct (shown_text blocks). }
  cbn [foldl].
  destruct (message_update_current base blocks d st Hitems Hcur) as (Hi & Hc & Hs).
  destruct (IH _ _ Hi Hc) as (blocks' & Hi' & Hs' & Hshown).
  exists blocks'. split; [done|]. split; [congruence|].
  rewrite Hshown, shown_text_apply_delta.
  destruct d as [delta|delta|tc|]; try done.
  change (text_deltas (text_delta delta :: ds))
    with (default "" delta :: text_deltas ds).
  destruct (text_deltas ds) as [|d' tds] eqn:Htds.
  - destruct (shown_text blocks); cbn [joined foldr]; by rewrite append_empty_r.
  - destruct (shown_text blocks); cbn [joined foldr]; [done|].
    by rewrite append_assoc.
Qed.

(** X22.  The text of a response is the concatenation of its text deltas.
    After [agent_start], whatever deltas follow (text, thinking, finished
    tool calls, in any interleaving), the item being streamed shows at most
    one text block, and its text is all the text deltas, in order, joined
    together: text that arrives after a tool call is appended to the text
    block that precedes the call.  The items that were there before are
    untouched. *)
Theorem text_deltas_accumulate (st : State) (ds : list Delta) :
  ∃ blocks,
    items (foldl (λ s d, handleRuntimeEvent (message_update (Some d)) s)
             (handleRuntimeEvent agent_start st) ds)
    = items st ++ [AssistantItem blocks true]
    ∧ streaming (foldl (λ s d, handleRuntimeEvent (message_update (Some d)) s)
                   (handleRuntimeEvent agent_start st) ds) = true
    ∧ shown_text blocks
      = match text_deltas ds with
        | [] => []
        | tds => [joined tds]
        end.
Proof.
  destruct (text_deltas_fold (items st) ds [] (handleRuntimeEvent agent_start st))
    as (blocks & Hi & Hs & Hshown); [done..|].
  exists blocks. split; [done|]. split; [done|].
  rewrite Hshown. by destruct (text_deltas ds).
Qed.

End client_stream.

(** ** Escaping *)
Section escaping.
Import Stdlib.Strings.Ascii ClientUtil.

Lemma occurs_append c s1 s2 :
  occurs c (s1 +:+ s2) = occurs c s1 || occurs c s2.
Proof.
  induction s1 as [|a s1 IH]; simpl; [done|]. rewrite IH.
  by destruct (Ascii.eqb a c).
Qed.

Lemma escHtml_cons a rest : escHtml (String a rest) = esc_char a +:+ escHtml rest.
Proof.
  unfold escHtml, esc_char. cbn [replace_char].
  destruct (Ascii.eqb_spec a "&"%char) as [->|Hamp]; [done|].
  cbn [replace_char].
  destruct (Ascii.eqb_spec a "<"%char) as [->|Hlt]; [done|].
  cbn [replace_char].
  destruct (Ascii.eqb_spec a ">"%char) as [->|Hgt]; done.
Qed.

Lemma esc_char_clean a :
  occurs "<"%char (esc_char a) = false ∧ occurs ">"%char (esc_char a) = false.
Proof.
  unfold esc_char.
  destruct (Ascii.eqb_spec a "&"%char) as [->|Hamp]; [done|].
  destruct (Ascii.eqb_spec a "<"%char) as [->|Hlt]; [done|].
  destruct (Ascii.eqb_spec a ">"%char) as [->|Hgt]; [done|].
  simpl. split; rewrite orb_false_r; by apply Ascii.eqb_neq.
Qed.

Lemma esc_each_inj s1 : ∀ s2, esc_each s1 = esc_each s2 → s1 = s2.
Proof.
  induction s1 as [|a1 s1 IH]; intros [|a2 s2]; cbn [esc_each]; unfold esc_char.
  - done.
  - destruct (Ascii.eqb a2 "&"%char); [done|].
    destruct (Ascii.eqb a2 "<"%char); [done|].
    by destruct (Ascii.eqb a2 ">"%char).
  - destruct (Ascii.eqb a1 "&"%char); [done|].
    destruct (Ascii.eqb a1 "<"%char); [done|].
    by destruct (Ascii.eqb a1 ">"%char).
  - destruct (Ascii.eqb_spec a1 "&"%char) as [->|H1a];
      [|destruct (Ascii.eqb_spec a1 "<"%char) as [->|H1l];
        [|destruct (Ascii.eqb_spec a1 ">"%char) as [->|H1g]]];
    (destruct (Ascii.eqb_spec a2 "&"%char) as [->|H2a];
      [|destruct (Ascii.eqb_spec a2 "<"%char) as [->|H2l];
        [|destruct (Ascii.eqb_spec a2 ">"%char) as [->|H2g]]]);
    simpl; intros Heq; simplify_eq; try (f_equal; by apply IH).
Qed.

(** X23.  [escHtml] escapes each character on its own: the three
    replacements in a row give the same string as mapping [&], [<] and [>]
    to their entities character by character (the [&] of an entity is never
    escaped again).  The result contains neither [<] nor [>], and nothing is
    lost: two strings with the same escaped form are the same string. *)
Theorem escHtml_escapes_each_character (s s' : string) :
  escHtml s = esc_each s
  ∧ occurs "<"%char (escHtml s) = false
  ∧ occurs ">"%char (escHtml s) = false
  ∧ (escHtml s = escHtml s' ↔ s = s').
Proof.
  assert (∀ u, escHtml u = esc_each u) as Heach.
  { induction u as [|a u IH]; [done|]. by rewrite escHtml_cons, IH. }
  assert (∀ u, occurs "<"%char (esc_each u) = false
               ∧ occurs ">"%char (esc_each u) = false) as Hclean.
  { induction u as [|a u [IH1 IH2]]; [done|]. cbn [esc_each].
    rewrite !occurs_append, IH1, IH2.
    destruct (esc_char_clean a) as [-> ->]. done. }
  split; [done|]. rewrite !Heach. destruct (Hclean s) as [H1 H2].
  split; [done|]. split; [done|]. split; [apply esc_each_inj | by intros ->].
Qed.

End escaping.

(** ** Line buffering of the subprocess bridge *)
Section rpc_bridge.
Import RpcBridge.
Variable trim : string → string.

Lemma split_lines_nonempty s : split_lines s ≠ [].
Proof.
  destruct s as [|a s]; [done|]. cbn [split_lines].
  destruct (Ascii.eqb a newline); [done|]. by destruct (split_lines s).
Qed.

Lemma split_lines_piece s : ∀ p, p ∈ split_lines s → split_lines p = [p].
Proof.
  induction s as [|a s IH]; intros p Hin.
  { apply list_elem_of_singleton in Hin. by subst. }
  cbn [split_lines] in Hin. destruct (Ascii.eqb a newline) eqn:Ha.
  - apply elem_of_cons in Hin as [->|Hin]; [done | by apply IH].
  - destruct (split_lines s) as [|q qs] eqn:Hs; [by destruct (split_lines_nonempty s)|].
    apply elem_of_cons in Hin as [->|Hin].
    + cbn [split_lines]. rewrite Ha, (IH q); [done | left].
    + apply IH. by right.
Qed.

Lemma last_nonempty {A} (l : list A) (x d : A) :
  l ≠ [] → List.last (x :: l) d = List.last l d.
Proof. by destruct l. Qed.

Lemma removelast_nonempty {A} (l : list A) (x : A) :
  l ≠ [] → removelast (x :: l) = x :: removelast l.
Proof. by destruct l. Qed.

Lemma last_elem_of {A} (l : list A) (d : A) : l ≠ [] → List.last l d ∈ l.
Proof.
  induction l as [|x l IH]; [done|]. intros _.
  destruct l as [|y l]; [left|]. right. by apply IH.
Qed.

Lemma last_app_nonempty {A} (l1 l2 : list A) (d : A) :
  l2 ≠ [] → List.last (l1 ++ l2) d = List.last l2 d.
Proof.
  intros Hne. induction l1 as [|x l1 IH]; [done|].
  rewrite <- app_comm_cons, last_nonempty; [done|].
  destruct l1; [done | simpl; done].
Qed.

Lemma split_lines_append a : ∀ b,
  split_lines (a +:+ b)
  = removelast (split_lines a)
    ++ split_lines (List.last (split_lines a) EmptyString +:+ b).
Proof.
  induction a as [|x a IH]; intros b; [done|].
  change (String x a +:+ b) with (String x (a +:+ b)).
  cbn [split_lines]. destruct (Ascii.eqb x newline) eqn:Hx.
  - rewrite removelast_nonempty, last_nonempty by apply split_lines_nonempty.
    by rewrite IH.
  - rewrite IH.
    destruct (split_lines a) as [|p ps] eqn:Hs; [by destruct (split_lines_nonempty a)|].
    destruct ps as [|q qs].
    + cbn [removelast List.last app].
      change (String x p +:+ b) with (String x (p +:+ b)).
      cbn [split_lines]. by rewrite Hx.
    + rewrite (removelast_nonempty (q :: qs) p) by done.
      rewrite (removelast_nonempty (q :: qs) (String x p)) by done.
      rewrite (last_nonempty (q :: qs) p) by done.
      by rewrite (last_nonempty (q :: qs) (String x p)) by done.
Qed.

Lemma forward_app open l1 l2 :
  forward trim open (l1 ++ l2) = forward trim open l1 ++ forward trim open l2.
Proof.
  induction l1 as [|line l1 IH]; [done|]. cbn [app forward].
  destruct (negb (truthy (trim line))); [done|].
  destruct open; [|done]. by rewrite IH.
Qed.

Lemma on_chunks_joined open chunks : ∀ lineBuffer,
  split_lines lineBuffer = [lineBuffer] →
  on_chunks trim open lineBuffer chunks
  = on_data trim open lineBuffer (joined chunks).
Proof.
  induction chunks as [|chunk chunks IH]; intros lineBuffer Hbuf.
  { unfold on_data. cbn [on_chunks joined foldr].
    by rewrite append_empty_r, Hbuf. }
  cbn [on_chunks]. unfold on_data at 1.
  rewrite IH.
  2:{ apply (split_lines_piece (lineBuffer +:+ chunk)), last_elem_of,
        split_lines_nonempty. }
  unfold on_data. cbn [joined foldr].
  rewrite <- (append_assoc lineBuffer chunk), (split_lines_append (lineBuffer +:+ chunk)).
  rewrite removelast_app by apply split_lines_nonempty.
  rewrite last_app_nonempty by apply split_lines_nonempty.
  by rewrite forward_app.
Qed.

(** X24.  What the bridge forwards does not depend on how the subprocess
    output is cut into chunks.  Starting from the empty line buffer, feeding
    the decoded chunks one after the other sends the same lines, in the same
    order, and leaves the same buffer as feeding their concatenation in one
    piece; and the buffer that is left never contains a line break. *)
Theorem line_buffer_chunking_irrelevant (open : bool) (chunks : list string) :
  on_chunks trim open EmptyString chunks
  = on_data trim open EmptyString (joined chunks)
  ∧ split_lines (on_chunks trim open EmptyString chunks).2
    = [(on_chunks trim open EmptyString chunks).2].
Proof.
  split; [by apply on_chunks_joined|].
  rewrite on_chunks_joined by done. unfold on_data. cbn [snd].
  apply (split_lines_piece (EmptyString +:+ joined chunks)), last_elem_of,
    split_lines_nonempty.
Qed.

End rpc_bridge.

(** ** The properties above on the example registry *)

Lemma demo_bindings_valid (order : list string) :
  registry_wf (Demo.registry order Demo.bindings) →
  "A" ∈ order → "B" ∈ order →
  bindings_valid Demo.wss (Demo.registry order Demo.bindings).
Proof.
  intros Hwf HA HB c t Hc Hopen Hbound.
  assert (t ∈ order) as Ht.
  { repeat (apply elem_of_cons in Hc as [->|Hc]);
      [vm_compute in Hbound; by simplify_eq..|by apply elem_of_nil in Hc]. }
  destruct (registry_wf_entry _ t Hwf Ht) as (e & He & _). by exists e.
Qed.

Lemma getTabsList_lists_every_tab_witness :
  ti_tabId <$> Server.getTabsList Demo.st_ABC = ["A"; "B"; "C"].
Proof.
  refine (proj1 (getTabsList_lists_every_tab Demo.st_ABC _)).
  apply demo_registry_wf; compute_done.
Defined.

Lemma broadcastAll_once_per_open_socket_witness :
  delivered_to 2 (Server.broadcastAll Demo.wss (tabs_update []))
  = [tabs_update []].
Proof.
  refine (proj1 (broadcastAll_once_per_open_socket Demo.wss (tabs_update []) _)
            {| Server.ws_id := 2; Server.readyState := Server.OPEN |} _ _).
  - compute_done.
  - right. left.
  - reflexivity.
Defined.

Lemma createTab_registers_last_witness :
  ∃ entry,
    (Server.createTab (Demo.working_env "N" "sess-N") None None Demo.st_AB).1
    = Ok entry
    ∧ Server.tabOrder
        (Server.createTab (Demo.working_env "N" "sess-N") None None Demo.st_AB).2
      = ["A"; "B"; "N"].
Proof.
  destruct (createTab_registers_last (Demo.working_env "N" "sess-N") None None
              None (Demo.sess "sess-N") Demo.st_AB)
    as (entry & Hok & _ & _ & Horder & _).
  - reflexivity.
  - reflexivity.
  - reflexivity.
  - compute_done.
  - exists entry. split; [exact Hok | exact Horder].
Defined.

Lemma createTab_closeTab_roundtrip_witness :
  Server.tabs
    (Server.closeTab "N"
       (Server.createTab (Demo.working_env "N" "sess-N") None None Demo.st_AB).2).2
  = Server.tabs Demo.st_AB.
Proof.
  refine (proj1 (proj2 (proj2
    (createTab_closeTab_roundtrip (Demo.working_env "N" "sess-N") None None
       None (Demo.sess "sess-N") Demo.st_AB "B" _ _ _ _ _ _ _)))).
  - apply demo_registry_wf; compute_done.
  - reflexivity.
  - reflexivity.
  - reflexivity.
  - reflexivity.
  - compute_done.
  - compute_done.
Defined.

Lemma closeTab_removes_only_that_tab_witness :
  JsMap.get (Server.tabs (Server.closeTab "B" Demo.st_ABC).2) "B" = None
  ∧ JsMap.get (Server.tabs (Server.closeTab "B" Demo.st_ABC).2) "C"
    = JsMap.get (Server.tabs Demo.st_ABC) "C".
Proof.
  destruct (closeTab_removes_only_that_tab Demo.st_ABC "B" (Demo.entry "B"))
    as (Hgone & _ & _ & Hrest & _).
  - apply demo_registry_wf; compute_done.
  - reflexivity.
  - simpl. lia.
  - split; [exact Hgone|]. apply (Hrest "C"). compute_done.
Defined.

Lemma handleCommand_keeps_registry_witness :
  registry_wf
    (Server.handleCommand Demo.wss 1 (Server.close_tab (Some "B"))
       {| Server.create := Demo.working_env "N" "sess-N";
          Server.listAll := Ok []; Server.unlink := Ok ();
          Server.listAllAfter := Ok [] |}
       Demo.st_ABC).
Proof.
  refine (proj1 (handleCommand_keeps_registry Demo.wss 1
    (Server.close_tab (Some "B"))
    {| Server.create := Demo.working_env "N" "sess-N";
       Server.listAll := Ok []; Server.unlink := Ok ();
       Server.listAllAfter := Ok [] |}
    Demo.st_ABC _ _ _)).
  - apply demo_registry_wf; compute_done.
  - compute_done.
  - compute_done.
Defined.

Lemma handleCommand_keeps_bindings_valid_witness :
  bindings_valid Demo.wss
    (Server.handleCommand Demo.wss 1 (Server.close_tab (Some "B"))
       {| Server.create := Demo.working_env "N" "sess-N";
          Server.listAll := Ok []; Server.unlink := Ok ();
          Server.listAllAfter := Ok [] |}
       Demo.st_ABC).
Proof.
  refine (handleCommand_keeps_bindings_valid Demo.wss 1
    (Server.close_tab (Some "B"))
    {| Server.create := Demo.working_env "N" "sess-N";
       Server.listAll := Ok []; Server.unlink := Ok ();
       Server.listAllAfter := Ok [] |}
    Demo.st_ABC _ _ _ _).
  - apply demo_registry_wf; compute_done.
  - compute_done.
  - compute_done.
  - apply demo_bindings_valid;
      [apply demo_registry_wf; compute_done | compute_done..].
Defined.

Lemma connection_handshake_witness :
  Server.clientActiveTab (Session.handle_connection 4 Demo.st_AB).2 !! 4
  = Some "A"
  ∧ Server.tabOrder (Session.handle_connection 4 Demo.st_AB).2 = ["A"; "B"].
Proof.
  destruct (connection_handshake 4 Demo.st_AB "A" ["B"] ClientDemo.viewing_A)
    as (firstEntry & _ & _ & Hbound & _ & _ & Horder & _).
  - apply demo_registry_wf; compute_done.
  - reflexivity.
  - split; [exact Hbound | exact Horder].
Defined.

Lemma switch_session_moves_the_viewer_witness :
  Server.effects (Server.handle_switch_session 1 (Some "A") Demo.st_AB)
  = [Server.ws_send 1 (Server.sync_msg (Demo.entry "A"))].
Proof.
  refine (proj1 (switch_session_moves_the_viewer Demo.wss
    {| Server.ws_id := 1; Server.readyState := Server.OPEN |} "A"
    (Demo.entry "A") Demo.st_AB ClientDemo.viewing_A _ _ _ _ _)).
  - apply demo_registry_wf; compute_done.
  - compute_done.
  - left.
  - reflexivity.
  - reflexivity.
Defined.

Lemma new_session_opens_and_binds_witness :
  Server.tabOrder
    (Server.handle_new_session Demo.wss 1 (Demo.working_env "N" "sess-N") Demo.st_AB)
  = ["A"; "B"; "N"]
  ∧ Server.clientActiveTab
      (Server.handle_new_session Demo.wss 1 (Demo.working_env "N" "sess-N") Demo.st_AB)
    = <[1 := "N"]> Demo.bindings.
Proof.
  destruct (new_session_opens_and_binds Demo.wss 1 (Demo.working_env "N" "sess-N")
              None (Demo.sess "sess-N") Demo.st_AB)
    as (entry & _ & _ & Horder & _ & Hbound & _).
  - apply demo_registry_wf; compute_done.
  - reflexivity.
  - reflexivity.
  - reflexivity.
  - compute_done.
  - compute_done.
  - split; [exact Horder | exact Hbound].
Defined.

Lemma prompt_reaches_viewed_tab_witness :
  ∃ entry,
    JsMap.get (Server.tabs Demo.st_AB) "B" = Some entry
    ∧ Session.handle_prompt 1 (Some "hello") None Demo.st_AB
      = Some (Session.session_prompt entry "hello"
                (if Server.isStreaming (Server.session entry)
                 then Some "followUp" else None))
    ∧ Session.handle_abort 1 Demo.st_AB = Some (Session.session_abort entry).
Proof.
  destruct (prompt_reaches_viewed_tab Demo.wss
              {| Server.ws_id := 1; Server.readyState := Server.OPEN |}
              "B" "hello" None Demo.st_AB)
    as (entry & Hget & _ & Hprompt & Habort & _).
  - apply demo_registry_wf; compute_done.
  - apply demo_bindings_valid;
      [apply demo_registry_wf; compute_done | compute_done..].
  - left.
  - reflexivity.
  - reflexivity.
  - compute_done.
  - exists entry. split; [exact Hget|]. split; [exact Hprompt | exact Habort].
Defined.

Lemma open_session_keeps_one_tab_per_session_witness :
  one_tab_per_session
    (Server.handle_open_session Demo.wss 1 (Some "/sessions/S")
       (Ok [Demo.saved "A"; Demo.saved "S"]) (Demo.working_env "U1" "sess-S")
       Demo.st_AB).
Proof.
  refine (open_session_keeps_one_tab_per_session Demo.wss 1 "/sessions/S"
    [Demo.saved "A"; Demo.saved "S"] (Demo.working_env "U1" "sess-S")
    Demo.st_AB _ _ _ _).
  - apply demo_registry_wf; compute_done.
  - unfold one_tab_per_session. compute_done.
  - compute_done.
  - intros info s Hinfo Hs. vm_compute in Hinfo, Hs. by simplify_eq.
Defined.

Lemma close_tab_redirected_client_agrees_witness :
  ∃ msgs replacement,
    Server.clientActiveTab
      (Server.handle_close_tab Demo.wss (Some "B") Demo.st_ABC) !! 1
    = Some replacement
    ∧ Client.activeTabId (client_receives msgs ClientDemo.viewing_A)
      = Some replacement.
Proof.
  destruct (close_tab_redirected_client_agrees Demo.wss Demo.st_ABC "B"
              {| Server.ws_id := 1; Server.readyState := Server.OPEN |}
              ClientDemo.viewing_A)
    as (msgs & replacement & _ & Hbound & Hclient & _).
  - apply demo_registry_wf; compute_done.
  - compute_done.
  - reflexivity.
  - simpl. lia.
  - apply list_elem_of_filter. split; [split; reflexivity | left].
  - exists msgs, replacement. split; [exact Hbound | exact Hclient].
Defined.

Lemma click_reaches_the_asker_witness :
  resolved_once "req-1"
    (DialogUI.parse_confirmed
       (DialogUI.respond "req-1" {[ "confirmed" := DialogUI.JBool true ]}))
    (DialogUI.on_extension_ui_response
       (DialogUI.respond "req-1" {[ "confirmed" := DialogUI.JBool true ]})
       (DialogUI.confirm Demo.wss None "req-1" Dialog.initial).2).
Proof.
  refine (proj2 (proj2
    (click_reaches_the_asker "req-1" DialogUI.click_yes
       {[ "confirmed" := DialogUI.JBool true ]} "confirm"
       {| Dialog.d_signal := None; Dialog.d_timeoutId := false;
          Dialog.d_default := DialogUI.JBool false;
          Dialog.d_parse := DialogUI.parse_confirmed |}
       (DialogUI.confirm Demo.wss None "req-1" Dialog.initial).2 _ _))).
  - reflexivity.
  - apply (ask_outstanding Demo.wss None (DialogUI.JBool false) "confirm"
             DialogUI.parse_confirmed "req-1" Dialog.initial);
      [reflexivity | apply initial_unused].
Defined.

Lemma request_without_deadline_waits_for_reply_witness :
  Dialog.outcome
    (Dialog.run Demo.wss
       (Dialog.createDialogPromise Demo.wss
          (Some {| Dialog.signal := None; Dialog.timeout := Some 0 |})
          false "confirm" (λ confirmed : bool, confirmed) "req-1"
          Dialog.initial).2
       [Dialog.ev_ask "req-2" None true "confirm" negb;
        Dialog.ev_response "req-2" true; Dialog.ev_timer "req-1";
        Dialog.ev_abort 7])
    "req-1"
  = None.
Proof.
  refine (proj1
    (request_without_deadline_waits_for_reply (T := bool) (Response := bool)
       Demo.wss Dialog.initial "req-1"
       (Some {| Dialog.signal := None; Dialog.timeout := Some 0 |})
       false "confirm" (λ confirmed : bool, confirmed)
       [Dialog.ev_ask "req-2" None true "confirm" negb;
        Dialog.ev_response "req-2" true; Dialog.ev_timer "req-1";
        Dialog.ev_abort 7] _ _ _ _)).
  - apply initial_unused.
  - reflexivity.
  - reflexivity.
  - repeat constructor; simpl; discriminate.
Defined.

Lemma sync_rebuilds_one_item_per_message_witness :
  ∃ st',
    Client.handleServerEvent
      (state_sync (Some "B")
         (Some [msg_user (content_string "hi"); msg_toolResult "call-9" None None;
                msg_assistant None])
         None None "sess-B")
      ClientDemo.viewing_A
    = Some st'
    ∧ length (Client.items st') = 2.
Proof.
  destruct (sync_rebuilds_one_item_per_message "B"
              [msg_user (content_string "hi"); msg_toolResult "call-9" None None;
               msg_assistant None]
              None None "sess-B" ClientDemo.viewing_A)
    as (st' & Hev & Hlen & _).
  - compute_done.
  - exists st'. split; [exact Hev | exact Hlen].
Defined.

Lemma sync_leaves_nothing_in_progress_witness :
  ∃ st',
    Client.handleServerEvent
      (state_sync (Some "B") (Some [msg_assistant None]) (Some true) None "sess-B")
      ClientDemo.viewing_A
    = Some st'
    ∧ Client.currentAssistantItem st' = None
    ∧ Client.streaming st' = true.
Proof.
  destruct (sync_leaves_nothing_in_progress "B" (Some [msg_assistant None])
              (Some true) None "sess-B" ClientDemo.viewing_A)
    as (st' & Hev & _ & Hcur & Hstreaming).
  - compute_done.
  - exists st'. split; [exact Hev|]. split; [exact Hcur | exact Hstreaming].
Defined.


Lemma tool_result_for_unknown_call_is_ignored_witness :
  Client.sync_message
    [Client.AssistantItem
       [Client.ToolBlock "call-1" "bash" "ls" "" false true false] false]
    (msg_toolResult "call-2" None None)
  = [Client.AssistantItem
       [Client.ToolBlock "call-1" "bash" "ls" "" false true false] false].
Proof.
  refine (tool_result_for_unknown_call_is_ignored
            [Client.AssistantItem
               [Client.ToolBlock "call-1" "bash" "ls" "" false true false] false]
            "call-2" None None _).
  intros blocks s Hin n a o e r x Hblock.
  apply list_elem_of_singleton in Hin. injection Hin as -> ->.
  apply list_elem_of_singleton in Hblock. discriminate.
Defined.
